(** * The search engine of chess-bot/chess-simulator.cpp

    A shallow embedding of the move-selection engine: static evaluation,
    move ordering, transposition table, quiescence search, alpha-beta (PVS)
    search and the iterative-deepening driver [Move].

    Conventions of the embedding.
    - A C++ [int] is a [Z].  Signed overflow is undefined behaviour in C++:
      for the scores the development covers the executions in which it does
      not happen; the one [int] that grows for the lifetime of the process,
      a counter of [historyHeuristic], is updated with the 32-bit
      wrap-around of the compiled engine ([wrap32]).
    - The position hash ([uint64_t]) is a [Z]; the slot of the transposition
      table is computed with [Z.land], as the code does.
    - chess.hpp (board, move generator, FEN and UCI) is not part of the
      engine: it is the interface [ChessLib], and what the engine relies on
      is stated as laws of that interface.
    - The board is passed by reference and mutated in place (make/unmake):
      every function that receives [chess::Board&] and mutates it returns
      the board it leaves behind.
    - The process-wide tables and the clock live in the record [Engine].
    - The callers of the engine in chess-gui/main.cpp ([reset], [move],
      [GeneratePGN], [ConvertResultToPGN]) are in the module [Gui], over the
      interface [GuiLib]; the player selection of the web front end
      (BotSelector.tsx) is in the module [BotSelector]. *)

From Stdlib Require Import ZArith Lia Bool ZifyBool.
From stdpp Require Import base decidable option list sorting gmap strings
  pretty.

Local Open Scope Z_scope.

(** ** Constants *)

Definition INF : Z := 1000000.
Definition MATE_SCORE : Z := 100000.
Definition MAX_DEPTH : nat := 5.
Definition TT_SIZE : Z := Z.shiftl 1 22.

(** The range of [int], and the two's complement wrap-around of a sum
    that leaves it. *)
Definition INT_MIN : Z := - 2 ^ 31.
Definition INT_MAX : Z := 2 ^ 31 - 1.
Definition wrap32 (x : Z) : Z := (x + 2 ^ 31) mod 2 ^ 32 - 2 ^ 31.

(** ** The types of chess.hpp the engine names *)

Module Color.
Inductive t := WHITE | BLACK | NONE.
#[global] Instance eq_dec : EqDecision t.
Proof. solve_decision. Defined.
End Color.

Module Piece.
(** [chess::Piece::underlying] *)
Inductive underlying :=
| WHITEPAWN | WHITEKNIGHT | WHITEBISHOP | WHITEROOK | WHITEQUEEN | WHITEKING
| BLACKPAWN | BLACKKNIGHT | BLACKBISHOP | BLACKROOK | BLACKQUEEN | BLACKKING
| NONE.
#[global] Instance eq_dec : EqDecision underlying.
Proof. solve_decision. Defined.

(** [chess::Piece(p).color()] *)
Definition color (p : underlying) : Color.t :=
  match p with
  | WHITEPAWN | WHITEKNIGHT | WHITEBISHOP | WHITEROOK | WHITEQUEEN
  | WHITEKING => Color.WHITE
  | BLACKPAWN | BLACKKNIGHT | BLACKBISHOP | BLACKROOK | BLACKQUEEN
  | BLACKKING => Color.BLACK
  | NONE => Color.NONE
  end.
End Piece.

Module GameResult.
(** Modelled from the spec: the declaration of [chess::GameResult] is in
    chess.hpp; the engine names only [NONE] and [DRAW], and the spec gives
    the results as NONE, WHITE_WIN, BLACK_WIN and DRAW. *)
Inductive t := NONE | WHITE_WIN | BLACK_WIN | DRAW.
#[global] Instance eq_dec : EqDecision t.
Proof. solve_decision. Defined.
End GameResult.

Module GameResultReason.
(** Modelled from the spec: the reasons of the game-termination detector
    (checkmate, stalemate, repetition, 50-move rule, insufficient
    material). *)
Inductive t :=
| CHECKMATE | STALEMATE | INSUFFICIENT_MATERIAL | FIFTY_MOVE_RULE
| THREEFOLD_REPETITION | NONE.
End GameResultReason.

(** The collaborator: everything the engine calls in chess.hpp. *)
Class ChessLib := {
  Board : Type;
  chess_Move : Type;
  Move_eq_dec :: EqDecision chess_Move;
  (** a default-constructed [chess::Move], the initial content of the
      killer table *)
  NO_MOVE : chess_Move;
  (** [move.from().index()] and [move.to().index()] *)
  move_from : chess_Move -> Z;
  move_to : chess_Move -> Z;
  (** [chess::Board board(fen)] *)
  parseFen : string -> Board;
  (** [board.at(chess::Square(i)).internal()] *)
  board_at : Board -> Z -> Piece.underlying;
  sideToMove : Board -> Color.t;
  (** [chess::movegen::legalmoves(moves, board)] *)
  legalmoves : Board -> list chess_Move;
  makeMove : Board -> chess_Move -> Board;
  unmakeMove : Board -> chess_Move -> Board;
  makeNullMove : Board -> Board;
  unmakeNullMove : Board -> Board;
  isCapture : Board -> chess_Move -> bool;
  isGameOver : Board -> GameResultReason.t * GameResult.t;
  (** [board.hash()], a [uint64_t] *)
  board_hash : Board -> Z;
  (** [chess::uci::moveToUci] *)
  moveToUci : chess_Move -> string
}.

(** ** Piece-square tables *)

Definition knightPST : list Z := [
  -50;-40;-30;-30;-30;-30;-40;-50;
  -40;-20;  0;  0;  0;  0;-20;-40;
  -30;  0; 10; 15; 15; 10;  0;-30;
  -30;  5; 15; 20; 20; 15;  5;-30;
  -30;  0; 15; 20; 20; 15;  0;-30;
  -30;  5; 10; 15; 15; 10;  5;-30;
  -40;-20;  0;  5;  5;  0;-20;-40;
  -50;-40;-30;-30;-30;-30;-40;-50 ].

Definition pawnPST : list Z := [
    0;  0;  0;  0;  0;  0;  0;  0;
    5; 10; 10;-20;-20; 10; 10;  5;
    5; -5;-10;  0;  0;-10; -5;  5;
    0;  0;  0; 20; 20;  0;  0;  0;
    5;  5; 10; 25; 25; 10;  5;  5;
   10; 10; 20; 30; 30; 20; 10; 10;
   50; 50; 50; 50; 50; 50; 50; 50;
    0;  0;  0;  0;  0;  0;  0;  0 ].

Definition bishopPST : list Z := [
  -20;-10;-10;-10;-10;-10;-10;-20;
  -10;  5;  0;  0;  0;  0;  5;-10;
  -10; 10; 10; 10; 10; 10; 10;-10;
  -10;  0; 10; 10; 10; 10;  0;-10;
  -10;  5;  5; 10; 10;  5;  5;-10;
  -10;  0;  5; 10; 10;  5;  0;-10;
  -10;  0;  0;  0;  0;  0;  0;-10;
  -20;-10;-10;-10;-10;-10;-10;-20 ].

Definition rookPST : list Z := [
    0;  0;  5; 10; 10;  5;  0;  0;
   -5;  0;  0;  0;  0;  0;  0; -5;
   -5;  0;  0;  0;  0;  0;  0; -5;
   -5;  0;  0;  0;  0;  0;  0; -5;
   -5;  0;  0;  0;  0;  0;  0; -5;
   -5;  0;  0;  0;  0;  0;  0; -5;
    5; 10; 10; 10; 10; 10; 10;  5;
    0;  0;  5; 10; 10;  5;  0;  0 ].

Definition queenPST : list Z := [
  -20;-10;-10; -5; -5;-10;-10;-20;
  -10;  0;  0;  0;  0;  0;  0;-10;
  -10;  0;  5;  5;  5;  5;  0;-10;
   -5;  0;  5;  5;  5;  5;  0; -5;
    0;  0;  5;  5;  5;  5;  0; -5;
  -10;  5;  5;  5;  5;  5;  0;-10;
  -10;  0;  5;  0;  0;  0;  0;-10;
  -20;-10;-10; -5; -5;-10;-10;-20 ].

(** [table[sq]] for an index inside the table. *)
Definition pst (table : list Z) (sq : Z) : Z :=
  default 0 (table !! Z.to_nat sq).

Definition pieceValue (p : Piece.underlying) : Z :=
  match p with
  | Piece.WHITEPAWN | Piece.BLACKPAWN => 100
  | Piece.WHITEKNIGHT | Piece.BLACKKNIGHT => 320
  | Piece.WHITEBISHOP | Piece.BLACKBISHOP => 330
  | Piece.WHITEROOK | Piece.BLACKROOK => 500
  | Piece.WHITEQUEEN | Piece.BLACKQUEEN => 900
  | _ => 0
  end.

(** The squares in the order of [for (int i = 0; i < 64; ++i)]. *)
Definition squares : list Z := seqZ 0 64.

(** ** Static evaluation *)

Section Evaluator.
Context `{lib : ChessLib}.

Definition evaluateMaterial (board : Board) : Z :=
  foldl (fun score i =>
    let piece := board_at board i in
    if decide (piece = Piece.NONE) then score
    else
      let val := pieceValue piece in
      if decide (Piece.color piece = Color.WHITE) then score + val
      else score - val)
    0 squares.

(** The board is mutated by the null move and handed back after
    [unmakeNullMove]. *)
Definition evaluateMobility (board : Board) : Z * Board :=
  let whiteMoves := legalmoves board in
  let whiteMob :=
    if decide (sideToMove board = Color.WHITE)
    then Z.of_nat (length whiteMoves) else 0 in
  let board := makeNullMove board in
  let blackMoves := legalmoves board in
  let blackMob :=
    if decide (sideToMove board = Color.BLACK)
    then Z.of_nat (length blackMoves) else 0 in
  let board := unmakeNullMove board in
  ((whiteMob - blackMob) * 2, board).

Definition evaluateKingSafety (board : Board) : Z :=
  foldl (fun score i =>
    let piece := board_at board i in
    let score :=
      if decide (piece = Piece.WHITEKING) then
        let file := Z.rem i 8 in
        let rank := Z.quot i 8 in
        foldl (fun score df =>
          let f := file + df in
          let r := rank + 1 in
          if (0 <=? f) && (f <? 8) && (r <? 8) then
            let sq := r * 8 + f in
            if decide (board_at board sq = Piece.WHITEPAWN)
            then score + 15 else score
          else score) score [-1; 0; 1]
      else score in
    if decide (piece = Piece.BLACKKING) then
      let file := Z.rem i 8 in
      let rank := Z.quot i 8 in
      foldl (fun score df =>
        let f := file + df in
        let r := rank - 1 in
        if (0 <=? f) && (f <? 8) && (0 <=? r) then
          let sq := r * 8 + f in
          if decide (board_at board sq = Piece.BLACKPAWN)
          then score - 15 else score
        else score) score [-1; 0; 1]
    else score)
    0 squares.

(** The two inner loops of the passed-pawn test: the scan stops at the
    first opposing pawn, [forallb] stops at the first [false]. *)
Definition noPawnOn (board : Board) (pawn : Piece.underlying) (r file : Z)
  : bool :=
  forallb (fun f =>
    negb ((0 <=? f) && (f <? 8)
          && bool_decide (board_at board (r * 8 + f) = pawn)))
    (seqZ (file - 1) 3).

Definition whitePassed (board : Board) (file rank : Z) : bool :=
  forallb (fun r => noPawnOn board Piece.BLACKPAWN r file)
    (seqZ (rank + 1) (7 - rank)).

Definition blackPassed (board : Board) (file rank : Z) : bool :=
  forallb (fun r => noPawnOn board Piece.WHITEPAWN r file)
    (reverse (seqZ 0 rank)).

Definition evaluatePawnStructure (board : Board) : Z :=
  let score :=
    foldl (fun score file =>
      let '(whiteCount, blackCount) :=
        foldl (fun '(whiteCount, blackCount) rank =>
          let sq := rank * 8 + file in
          let piece := board_at board sq in
          let whiteCount :=
            if decide (piece = Piece.WHITEPAWN)
            then whiteCount + 1 else whiteCount in
          let blackCount :=
            if decide (piece = Piece.BLACKPAWN)
            then blackCount + 1 else blackCount in
          (whiteCount, blackCount)) (0, 0) (seqZ 0 8) in
      let score :=
        if whiteCount >? 1 then score - 15 * (whiteCount - 1) else score in
      if blackCount >? 1 then score + 15 * (blackCount - 1) else score)
      0 (seqZ 0 8) in
  (* Passed pawns *)
  foldl (fun score i =>
    let piece := board_at board i in
    let score :=
      if decide (piece = Piece.WHITEPAWN) then
        let file := Z.rem i 8 in
        let rank := Z.quot i 8 in
        if whitePassed board file rank then score + rank * 10 else score
      else score in
    if decide (piece = Piece.BLACKPAWN) then
      let file := Z.rem i 8 in
      let rank := Z.quot i 8 in
      if blackPassed board file rank then score - (7 - rank) * 10
      else score
    else score)
    score squares.

(** The piece-square bonus selected by the [switch]. *)
Definition pstBonus (piece : Piece.underlying) (isWhite : bool) (sq : Z) : Z :=
  match piece with
  | Piece.WHITEPAWN | Piece.BLACKPAWN =>
      if isWhite then pst pawnPST sq else pst pawnPST (63 - sq)
  | Piece.WHITEKNIGHT | Piece.BLACKKNIGHT =>
      if isWhite then pst knightPST sq else pst knightPST (63 - sq)
  | Piece.WHITEBISHOP | Piece.BLACKBISHOP =>
      if isWhite then pst bishopPST sq else pst bishopPST (63 - sq)
  | Piece.WHITEROOK | Piece.BLACKROOK =>
      if isWhite then pst rookPST sq else pst rookPST (63 - sq)
  | Piece.WHITEQUEEN | Piece.BLACKQUEEN =>
      if isWhite then pst queenPST sq else pst queenPST (63 - sq)
  | _ => 0
  end.

Definition isBishop (piece : Piece.underlying) : bool :=
  match piece with
  | Piece.WHITEBISHOP | Piece.BLACKBISHOP => true
  | _ => false
  end.

Definition evaluatePieceSquare (board : Board) : Z :=
  let '(score, whiteBishops, blackBishops) :=
    foldl (fun '(score, whiteBishops, blackBishops) i =>
      let piece := board_at board i in
      if decide (piece = Piece.NONE)
      then (score, whiteBishops, blackBishops)
      else
        let sq := i in
        let isWhite := bool_decide (Piece.color piece = Color.WHITE) in
        let bonus := pstBonus piece isWhite sq in
        let whiteBishops :=
          if isBishop piece && isWhite
          then whiteBishops + 1 else whiteBishops in
        let blackBishops :=
          if isBishop piece && negb isWhite
          then blackBishops + 1 else blackBishops in
        let score := if isWhite then score + bonus else score - bonus in
        (score, whiteBishops, blackBishops))
      (0, 0, 0) squares in
  let score := if whiteBishops >=? 2 then score + 30 else score in
  if blackBishops >=? 2 then score - 30 else score.

(** Square indexes of [SQ_B1], [SQ_G1], ... (a1 = 0, h8 = 63). *)
Definition SQ_B1 : Z := 1.
Definition SQ_C1 : Z := 2.
Definition SQ_F1 : Z := 5.
Definition SQ_G1 : Z := 6.
Definition SQ_B8 : Z := 57.
Definition SQ_C8 : Z := 58.
Definition SQ_F8 : Z := 61.
Definition SQ_G8 : Z := 62.

Definition evaluateDevelopment (board : Board) : Z :=
  let on sq piece (delta : Z) (score : Z) :=
    if decide (board_at board sq = piece) then score + delta else score in
  let score := 0 in
  let score := on SQ_B1 Piece.WHITEKNIGHT (-15) score in
  let score := on SQ_G1 Piece.WHITEKNIGHT (-15) score in
  let score := on SQ_B8 Piece.BLACKKNIGHT 15 score in
  let score := on SQ_G8 Piece.BLACKKNIGHT 15 score in
  let score := on SQ_C1 Piece.WHITEBISHOP (-15) score in
  let score := on SQ_F1 Piece.WHITEBISHOP (-15) score in
  let score := on SQ_C8 Piece.BLACKBISHOP 15 score in
  let score := on SQ_F8 Piece.BLACKBISHOP 15 score in
  score.

Definition centerSquares : list Z := [27; 28; 35; 36].

Definition evaluateCenterControl (board : Board) : Z :=
  foldl (fun score sq =>
    let piece := board_at board sq in
    let score :=
      if decide (piece = Piece.WHITEPAWN) then score + 20 else score in
    if decide (piece = Piece.BLACKPAWN) then score - 20 else score)
    0 centerSquares.

Definition evaluate (board : Board) : Z * Board :=
  let score := 0 in
  let score := score + evaluateMaterial board in
  let score := score + evaluatePawnStructure board in
  let '(mobility, board) := evaluateMobility board in
  let score := score + mobility in
  let score := score + evaluateKingSafety board in
  let score := score + evaluatePieceSquare board in
  let score := score + evaluateDevelopment board in
  let score := score + evaluateCenterControl board in
  (if decide (sideToMove board = Color.WHITE) then score else - score,
   board).

End Evaluator.

(** ** Transposition table *)

Module NodeType.
Inductive t := EXACT | LOWERBOUND | UPPERBOUND.
#[global] Instance eq_dec : EqDecision t.
Proof. solve_decision. Defined.
End NodeType.

Record TTEntry := {
  tt_depth : Z;
  tt_score : Z;
  tt_type : NodeType.t
}.

#[global] Instance TTEntry_eq_dec : EqDecision TTEntry.
Proof. solve_decision. Defined.

(** [static TTEntry transTable[TT_SIZE]]: the slots written so far and the
    content of every slot not written yet (zero-initialised at start-up). *)
Record TransTable := {
  tt_fill : TTEntry;
  tt_slots : gmap Z TTEntry
}.

Definition tt_zero : TransTable :=
  {| tt_fill := {| tt_depth := 0; tt_score := 0; tt_type := NodeType.EXACT |};
     tt_slots := ∅ |}.

(** [transTable[i]] *)
Definition tt_read (T : TransTable) (i : Z) : TTEntry :=
  default (tt_fill T) (tt_slots T !! i).

Definition tt_write (T : TransTable) (i : Z) (e : TTEntry) : TransTable :=
  {| tt_fill := tt_fill T; tt_slots := <[i := e]> (tt_slots T) |}.

Definition tt_index (hash : Z) : Z := Z.land hash (TT_SIZE - 1).

Definition probeTT (T : TransTable) (hash : Z) : TTEntry :=
  tt_read T (tt_index hash).

Definition storeTT (T : TransTable) (hash depth score : Z)
    (type : NodeType.t) : TransTable :=
  let entry := probeTT T hash in
  if tt_depth entry <=? depth then
    tt_write T (tt_index hash)
      {| tt_depth := depth; tt_score := score; tt_type := type |}
  else T.

Definition invalidate (e : TTEntry) : TTEntry :=
  {| tt_depth := -1; tt_score := tt_score e; tt_type := tt_type e |}.

(** [transTable[i].depth = -1] for every slot. *)
Definition clearTT (T : TransTable) : TransTable :=
  {| tt_fill := invalidate (tt_fill T);
     tt_slots := invalidate <$> tt_slots T |}.

(** ** Process-wide state *)

Section Search.
Context `{lib : ChessLib}.

(** The globals of the translation unit, and the clock: [clock k] is
    what the k-th call of [high_resolution_clock::now()] returns, in
    nanoseconds. *)
Record Engine := {
  transTable : TransTable;
  killerMoves : gmap Z (chess_Move * chess_Move);
  historyHeuristic : gmap (Z * Z * Z) Z;
  searchStart : Z;
  timeLimitMsGlobal : Z;
  clock : N -> Z;
  clockReads : N
}.

Definition set_transTable (eng : Engine) (T : TransTable) : Engine :=
  {| transTable := T; killerMoves := killerMoves eng;
     historyHeuristic := historyHeuristic eng;
     searchStart := searchStart eng;
     timeLimitMsGlobal := timeLimitMsGlobal eng;
     clock := clock eng; clockReads := clockReads eng |}.

Definition set_killerMoves (eng : Engine) (K : gmap Z (chess_Move * chess_Move))
  : Engine :=
  {| transTable := transTable eng; killerMoves := K;
     historyHeuristic := historyHeuristic eng;
     searchStart := searchStart eng;
     timeLimitMsGlobal := timeLimitMsGlobal eng;
     clock := clock eng; clockReads := clockReads eng |}.

Definition set_historyHeuristic (eng : Engine) (H : gmap (Z * Z * Z) Z)
  : Engine :=
  {| transTable := transTable eng; killerMoves := killerMoves eng;
     historyHeuristic := H;
     searchStart := searchStart eng;
     timeLimitMsGlobal := timeLimitMsGlobal eng;
     clock := clock eng; clockReads := clockReads eng |}.

(** [high_resolution_clock::now()] *)
Definition readClock (eng : Engine) : Z * Engine :=
  (clock eng (clockReads eng),
   {| transTable := transTable eng; killerMoves := killerMoves eng;
      historyHeuristic := historyHeuristic eng;
      searchStart := searchStart eng;
      timeLimitMsGlobal := timeLimitMsGlobal eng;
      clock := clock eng; clockReads := N.succ (clockReads eng) |}).

Definition startSearch (eng : Engine) (start limit : Z) : Engine :=
  {| transTable := transTable eng; killerMoves := killerMoves eng;
     historyHeuristic := historyHeuristic eng;
     searchStart := start;
     timeLimitMsGlobal := limit;
     clock := clock eng; clockReads := clockReads eng |}.

Definition outOfTime (eng : Engine) : bool * Engine :=
  let '(now, eng) := readClock eng in
  let elapsed := Z.quot (now - searchStart eng) 1000000 in
  (elapsed >=? timeLimitMsGlobal eng, eng).

(** [killerMoves[ply][0]] and [killerMoves[ply][1]] *)
Definition killers (eng : Engine) (ply : Z) : chess_Move * chess_Move :=
  default (NO_MOVE, NO_MOVE) (killerMoves eng !! ply).

(** [historyHeuristic[side][from][to]] *)
Definition history (eng : Engine) (side from to : Z) : Z :=
  default 0 (historyHeuristic eng !! (side, from, to)).

(** ** Move ordering *)

Definition captureScore (board : Board) (move : chess_Move) : Z :=
  let victim := board_at board (move_to move) in
  let attacker := board_at board (move_from move) in
  pieceValue victim - pieceValue attacker.

Definition scoreMove (eng : Engine) (board : Board) (move : chess_Move)
    (depth : Z) : Z :=
  if isCapture board move then 100000 + captureScore board move
  else if decide (move = (killers eng depth).1) then 90000
  else if decide (move = (killers eng depth).2) then 80000
  else
    let side := if decide (sideToMove board = Color.WHITE) then 0 else 1 in
    history eng side (move_from move) (move_to move).

(** [std::sort] with the comparator [scoreMove(a) > scoreMove(b)]: the
    result is a permutation in descending order of priority.  The order
    among equal priorities is unspecified in C++; the model takes that of
    a merge sort. *)
Definition orderMoves (eng : Engine) (moves : list chess_Move) (board : Board)
    (depth : Z) : list chess_Move :=
  merge_sort
    (fun a b => scoreMove eng board b depth <= scoreMove eng board a depth)
    (H := fun a b =>
            decide (scoreMove eng board b depth <= scoreMove eng board a depth))
    moves.

(** ** Quiescence search *)

(** The loop [for (auto move : moves)] of [quiescence]; [rec] is the
    recursive call. *)
Fixpoint quiescenceLoop (rec : Board -> Z -> Z -> option (Z * Board))
    (beta : Z) (moves : list chess_Move) (board : Board) (alpha : Z)
    : option (Z * Board) :=
  match moves with
  | [] => Some (alpha, board)
  | move :: moves =>
      if negb (isCapture board move)
      then quiescenceLoop rec beta moves board alpha
      else
        let board := makeMove board move in
        '(r, board) ← rec board (- beta) (- alpha);
        let score := - r in
        let board := unmakeMove board move in
        if score >=? beta then Some (beta, board)
        else
          let alpha := if score >? alpha then score else alpha in
          quiescenceLoop rec beta moves board alpha
  end.

(** The recursion of [quiescence] has no depth guard: [fuel] bounds the
    nesting of calls, and [None] is "out of fuel". *)
Fixpoint quiescence (fuel : nat) (board : Board) (alpha beta : Z)
    : option (Z * Board) :=
  match fuel with
  | O => None
  | S fuel =>
      let '(standPat, board) := evaluate board in
      if standPat >=? beta then Some (beta, board)
      else
        let alpha := if alpha <? standPat then standPat else alpha in
        let moves := legalmoves board in
        quiescenceLoop (quiescence fuel) beta moves board alpha
  end.

(** ** Alpha-beta search *)

(** The killer and history update of a quiet move that raised alpha. *)
Definition recordQuiet (eng : Engine) (board : Board) (move : chess_Move)
    (depth ply : Z) : Engine :=
  let eng :=
    set_killerMoves eng
      (<[ply := (move, (killers eng ply).1)]> (killerMoves eng)) in
  let side := if decide (sideToMove board = Color.WHITE) then 0 else 1 in
  let key := (side, move_from move, move_to move) in
  set_historyHeuristic eng
    (<[key := wrap32 (history eng side (move_from move) (move_to move)
                      + depth * depth)]> (historyHeuristic eng)).

(** The loop [for (auto move : moves)] of [alphaBeta]; [rec] is the
    recursive call at [depth - 1] and [ply + 1]. *)
Fixpoint alphaBetaLoop
    (rec : Board -> Engine -> Z -> Z -> option (Z * Board * Engine))
    (depth beta ply : Z) (moves : list chess_Move) (board : Board)
    (eng : Engine) (alpha bestScore : Z) (firstMove : bool)
    : option (Z * Board * Engine) :=
  match moves with
  | [] => Some (bestScore, board, eng)
  | move :: moves =>
      let board := makeMove board move in
      '(score, board, eng) ←
        (if firstMove then
           '(r, board, eng) ← rec board eng (- beta) (- alpha);
           Some (- r, board, eng)
         else
           (* PVS null window search *)
           '(r, board, eng) ← rec board eng (- alpha - 1) (- alpha);
           let score := - r in
           if (score >? alpha) && (score <? beta) then
             '(r, board, eng) ← rec board eng (- beta) (- alpha);
             Some (- r, board, eng)
           else Some (score, board, eng));
      let board := unmakeMove board move in
      let bestScore := if score >? bestScore then score else bestScore in
      let '(alpha, eng) :=
        if score >? alpha then
          (score,
           if negb (isCapture board move)
           then recordQuiet eng board move depth ply
           else eng)
        else (alpha, eng) in
      if alpha >=? beta then Some (bestScore, board, eng)
      else alphaBetaLoop rec depth beta ply moves board eng alpha
             bestScore false
  end.

(** The transposition-table lookup of a node: either the node returns
    the stored score, or the search goes on with the tightened window. *)
Definition ttLookup (tt : TTEntry) (depth alpha beta : Z)
    : Z + (Z * Z) :=
  if tt_depth tt >=? depth then
    match tt_type tt with
    | NodeType.EXACT => inl (tt_score tt)
    | NodeType.LOWERBOUND =>
        let alpha := Z.max alpha (tt_score tt) in
        if alpha >=? beta then inl (tt_score tt) else inr (alpha, beta)
    | NodeType.UPPERBOUND =>
        let beta := Z.min beta (tt_score tt) in
        if alpha >=? beta then inl (tt_score tt) else inr (alpha, beta)
    end
  else inr (alpha, beta).

(** [depth] is never negative at a call ([Move] starts at [depth - 1]
    with [depth >= 1], and a node recurses only below [depth == 0]): it
    is a [nat].  [fuel] is handed to [quiescence]. *)
Fixpoint alphaBeta (fuel : nat) (eng : Engine) (board : Board)
    (depth : nat) (alpha beta ply : Z) {struct depth}
    : option (Z * Board * Engine) :=
  let '(timeout, eng) := outOfTime eng in
  if timeout then
    let '(v, board) := evaluate board in Some (v, board, eng)
  else
    match depth with
    | O =>
        '(v, board) ← quiescence fuel board alpha beta;
        Some (v, board, eng)
    | S depth' =>
        let gameOver := isGameOver board in
        if decide (gameOver.2 ≠ GameResult.NONE) then
          if decide (gameOver.2 = GameResult.DRAW)
          then Some (0, board, eng)
          else Some (- MATE_SCORE + ply, board, eng)
        else
          let hash := board_hash board in
          let tt := probeTT (transTable eng) hash in
          match ttLookup tt (Z.of_nat depth) alpha beta with
          | inl v => Some (v, board, eng)
          | inr (alpha, beta) =>
              let moves := legalmoves board in
              let moves := orderMoves eng moves board ply in
              let originalAlpha := alpha in
              '(bestScore, board, eng) ←
                alphaBetaLoop
                  (fun board eng alpha beta =>
                     alphaBeta fuel eng board depth' alpha beta (ply + 1))
                  (Z.of_nat depth) beta ply moves board eng alpha
                  (- INF) true;
              let type :=
                if bestScore <=? originalAlpha then NodeType.UPPERBOUND
                else if bestScore >=? beta then NodeType.LOWERBOUND
                else NodeType.EXACT in
              let eng :=
                set_transTable eng
                  (storeTT (transTable eng) hash (Z.of_nat depth)
                     bestScore type) in
              Some (bestScore, board, eng)
          end
    end.

(** ** Iterative deepening *)

(** The loop over the root moves at one depth.  It ends with the best
    move so far, the board and the engine state. *)
Fixpoint rootLoop (fuel : nat) (depth : nat) (moves : list chess_Move)
    (board : Board) (eng : Engine) (alpha beta bestScore : Z)
    (firstMove : bool) (bestMove : chess_Move)
    : option (chess_Move * Board * Engine) :=
  match moves with
  | [] => Some (bestMove, board, eng)
  | move :: moves =>
      let board := makeMove board move in
      '(score, board, eng) ←
        (if firstMove then
           '(r, board, eng) ←
             alphaBeta fuel eng board (depth - 1) (- beta) (- alpha) 1;
           Some (- r, board, eng)
         else
           '(r, board, eng) ←
             alphaBeta fuel eng board (depth - 1) (- alpha - 1) (- alpha) 1;
           let score := - r in
           if score >? alpha then
             '(r, board, eng) ←
               alphaBeta fuel eng board (depth - 1) (- beta) (- alpha) 1;
             Some (- r, board, eng)
           else Some (score, board, eng));
      let board := unmakeMove board move in
      let '(timeout, eng) := outOfTime eng in
      if timeout then Some (bestMove, board, eng)
      else
        let '(bestScore, bestMove) :=
          if score >? bestScore then (score, move)
          else (bestScore, bestMove) in
        let alpha := if score >? alpha then score else alpha in
        rootLoop fuel depth moves board eng alpha beta bestScore false
          bestMove
  end.

(** [for (int depth = 1; depth <= MAX_DEPTH; depth++)]: [depths] are the
    depths still to run; [moves] is sorted in place at each depth. *)
Fixpoint deepen (fuel : nat) (depths : list nat) (moves : list chess_Move)
    (board : Board) (eng : Engine) (bestMove : chess_Move)
    : option (chess_Move * Engine) :=
  match depths with
  | [] => Some (bestMove, eng)
  | depth :: depths =>
      let '(timeout, eng) := outOfTime eng in
      if timeout then Some (bestMove, eng)
      else
        let moves := orderMoves eng moves board 0 in
        '(bestMove, board, eng) ←
          rootLoop fuel depth moves board eng (- INF) INF (- INF) true
            bestMove;
        deepen fuel depths moves board eng bestMove
  end.

Definition Move (fuel : nat) (eng : Engine) (fen : string)
    (timeLimitMs : Z) : option (string * Engine) :=
  let board := parseFen fen in
  let moves := legalmoves board in
  match moves with
  | [] => Some (EmptyString, eng)
  | first :: _ =>
      let '(now, eng) := readClock eng in
      let eng := startSearch eng now timeLimitMs in
      let eng := set_transTable eng (clearTT (transTable eng)) in
      let bestMove := first in
      '(bestMove, eng) ←
        deepen fuel (seq 1 MAX_DEPTH) moves board eng bestMove;
      Some (moveToUci bestMove, eng)
  end.

End Search.

(** ** Colour flip of a position *)

Definition swapColor (p : Piece.underlying) : Piece.underlying :=
  match p with
  | Piece.WHITEPAWN => Piece.BLACKPAWN
  | Piece.WHITEKNIGHT => Piece.BLACKKNIGHT
  | Piece.WHITEBISHOP => Piece.BLACKBISHOP
  | Piece.WHITEROOK => Piece.BLACKROOK
  | Piece.WHITEQUEEN => Piece.BLACKQUEEN
  | Piece.WHITEKING => Piece.BLACKKING
  | Piece.BLACKPAWN => Piece.WHITEPAWN
  | Piece.BLACKKNIGHT => Piece.WHITEKNIGHT
  | Piece.BLACKBISHOP => Piece.WHITEBISHOP
  | Piece.BLACKROOK => Piece.WHITEROOK
  | Piece.BLACKQUEEN => Piece.WHITEQUEEN
  | Piece.BLACKKING => Piece.WHITEKING
  | Piece.NONE => Piece.NONE
  end.

(** [score += f(i)] over a list of indexes. *)
Definition sumOver (f : Z -> Z) (l : list Z) : Z :=
  foldl (fun acc i => acc + f i) 0 l.

Section ColorFlipDefs.
Context `{lib : ChessLib}.

(** [b'] carries on square [i] the piece of [b] on square [63 - i], with
    its colour swapped: the mirror of the piece-square tables. *)
Definition mirrored (b b' : Board) : Prop :=
  forall i, 0 <= i < 64 -> board_at b' i = swapColor (board_at b (63 - i)).

(** The colour flip of a position: the pieces are mirrored, the same side
    is to move, and the move generator sees the mirrored position the same
    way: when White is to move (the case in which [evaluateMobility]
    counts moves) the mover of [b'] has as many legal moves as the side
    that waits in [b], and conversely. *)
Definition colorFlip (b b' : Board) : Prop :=
  mirrored b b'
  /\ sideToMove b' = sideToMove b
  /\ (sideToMove b = Color.WHITE ->
      length (legalmoves b') = length (legalmoves (makeNullMove b))
      /\ length (legalmoves (makeNullMove b')) = length (legalmoves b)).

(** What each loop of the evaluation adds to the score at one index. *)

Definition materialAt (bd : Board) (i : Z) : Z :=
  let piece := board_at bd i in
  if decide (piece = Piece.NONE) then 0
  else if decide (Piece.color piece = Color.WHITE) then pieceValue piece
       else - pieceValue piece.

Definition pstAt (bd : Board) (i : Z) : Z :=
  let piece := board_at bd i in
  if decide (piece = Piece.NONE) then 0
  else
    let isWhite := bool_decide (Piece.color piece = Color.WHITE) in
    if isWhite then pstBonus piece isWhite i else - pstBonus piece isWhite i.

Definition bishopAt (white : bool) (bd : Board) (i : Z) : Z :=
  let piece := board_at bd i in
  if isBishop piece
     && bool_decide (bool_decide (Piece.color piece = Color.WHITE) = white)
  then 1 else 0.

Definition shieldTerm (bd : Board) (pawn : Piece.underlying) (ok : bool)
    (sq : Z) : Z :=
  if ok then if decide (board_at bd sq = pawn) then 15 else 0 else 0.

Definition whiteShield (bd : Board) (i : Z) : Z :=
  sumOver (fun df =>
    let f := Z.rem i 8 + df in
    let r := Z.quot i 8 + 1 in
    shieldTerm bd Piece.WHITEPAWN ((0 <=? f) && (f <? 8) && (r <? 8))
      (r * 8 + f)) [-1; 0; 1].

Definition blackShield (bd : Board) (i : Z) : Z :=
  sumOver (fun df =>
    let f := Z.rem i 8 + df in
    let r := Z.quot i 8 - 1 in
    shieldTerm bd Piece.BLACKPAWN ((0 <=? f) && (f <? 8) && (0 <=? r))
      (r * 8 + f)) [-1; 0; 1].

Definition kingAt (bd : Board) (i : Z) : Z :=
  (if decide (board_at bd i = Piece.WHITEKING) then whiteShield bd i else 0)
  - (if decide (board_at bd i = Piece.BLACKKING) then blackShield bd i else 0).

Definition passedAt (bd : Board) (i : Z) : Z :=
  (if decide (board_at bd i = Piece.WHITEPAWN) then
     if whitePassed bd (Z.rem i 8) (Z.quot i 8) then Z.quot i 8 * 10 else 0
   else 0)
  - (if decide (board_at bd i = Piece.BLACKPAWN) then
       if blackPassed bd (Z.rem i 8) (Z.quot i 8)
       then (7 - Z.quot i 8) * 10 else 0
     else 0).

Definition pawnOn (bd : Board) (pawn : Piece.underlying) (file rank : Z)
    : Z :=
  if decide (board_at bd (rank * 8 + file) = pawn) then 1 else 0.

Definition doubledAt (bd : Board) (file : Z) : Z :=
  let whiteCount := sumOver (pawnOn bd Piece.WHITEPAWN file) (seqZ 0 8) in
  let blackCount := sumOver (pawnOn bd Piece.BLACKPAWN file) (seqZ 0 8) in
  (if whiteCount >? 1 then - (15 * (whiteCount - 1)) else 0)
  + (if blackCount >? 1 then 15 * (blackCount - 1) else 0).

End ColorFlipDefs.

(** ** What the engine relies on in chess.hpp *)

Definition opposite (c : Color.t) : Color.t :=
  match c with
  | Color.WHITE => Color.BLACK
  | Color.BLACK => Color.WHITE
  | Color.NONE => Color.NONE
  end.

(** The contract of the collaborator: make/unmake pairs are exact inverses
    on legal moves, a null move passes the turn, a capture takes a piece
    off the board and no move adds one ([pieceCount] is the number of
    pieces on the board), and a move in UCI notation is never the empty
    string. *)
Class ChessLaws (lib : ChessLib) := {
  pieceCount : Board -> nat;
  null_roundtrip : forall b, unmakeNullMove (makeNullMove b) = b;
  null_passes_turn :
    forall b, sideToMove (makeNullMove b) = opposite (sideToMove b);
  move_roundtrip :
    forall b m, m ∈ legalmoves b -> unmakeMove (makeMove b m) m = b;
  capture_shrinks :
    forall b m, m ∈ legalmoves b -> isCapture b m = true ->
      (pieceCount (makeMove b m) < pieceCount b)%nat;
  move_no_growth :
    forall b m, m ∈ legalmoves b ->
      (pieceCount (makeMove b m) <= pieceCount b)%nat;
  uci_nonempty : forall m, moveToUci m <> EmptyString
}.

(** ** A scripted collaborator

    A position is given with its legal moves and the position each one
    leads to; the board keeps the trail of positions left by [makeMove].
    It is the test double used to run the engine on concrete game trees. *)

Module Script.

Record mv := Mv { mv_from : Z; mv_to : Z }.

#[global] Instance mv_eq_dec : EqDecision mv.
Proof. solve_decision. Defined.

(** placement, side to move, result, hash, legal moves (each with its
    capture flag and the position it leads to), legal moves of the other
    side after a null move *)
#[local] Unset Elimination Schemes.
Inductive pos :=
| Pos (placement : list (Z * Piece.underlying)) (stm : Color.t)
      (result : GameResult.t) (key : Z)
      (replies : list (mv * bool * pos)) (afterNull : list mv).
#[local] Set Elimination Schemes.

Definition placement (p : pos) := let 'Pos x _ _ _ _ _ := p in x.
Definition stm (p : pos) := let 'Pos _ x _ _ _ _ := p in x.
Definition result (p : pos) := let 'Pos _ _ x _ _ _ := p in x.
Definition key (p : pos) := let 'Pos _ _ _ x _ _ := p in x.
Definition replies (p : pos) := let 'Pos _ _ _ _ x _ := p in x.
Definition afterNull (p : pos) := let 'Pos _ _ _ _ _ x := p in x.

Fixpoint height (p : pos) : nat :=
  let 'Pos _ _ _ _ rs _ := p in
  S (foldr Nat.max 0%nat (map (fun r => height r.2) rs)).

Record board := Bd { cur : pos; trail : list pos; nulled : bool }.

Fixpoint findReply (m : mv) (rs : list (mv * bool * pos))
    : option (bool * pos) :=
  match rs with
  | [] => None
  | (m', capture, p) :: rs =>
      if decide (m = m') then Some (capture, p) else findReply m rs
  end.

Fixpoint pieceOn (pl : list (Z * Piece.underlying)) (i : Z)
    : Piece.underlying :=
  match pl with
  | [] => Piece.NONE
  | (sq, piece) :: pl => if decide (sq = i) then piece else pieceOn pl i
  end.

Definition make (b : board) (m : mv) : board :=
  match findReply m (replies (cur b)) with
  | Some (_, p) =>
      {| cur := p; trail := cur b :: trail b; nulled := nulled b |}
  | None =>
      {| cur := cur b; trail := cur b :: trail b; nulled := nulled b |}
  end.

Definition unmake (b : board) (m : mv) : board :=
  match trail b with
  | p :: t => {| cur := p; trail := t; nulled := nulled b |}
  | [] => b
  end.

Definition passTurn (b : board) : board :=
  {| cur := cur b; trail := trail b; nulled := negb (nulled b) |}.

Definition squareName (i : Z) : string :=
  String (Ascii.ascii_of_nat (97 + Z.to_nat (i mod 8)))
    (String (Ascii.ascii_of_nat (49 + Z.to_nat (i / 8))) EmptyString).

Definition uci (m : mv) : string :=
  String.append (squareName (mv_from m)) (squareName (mv_to m)).

(** The collaborator that plays the game trees of [book], which gives the
    scripted position of each position string. *)
Definition lib (book : string -> pos) : ChessLib := {|
  Board := board;
  chess_Move := mv;
  NO_MOVE := Mv 0 0;
  move_from := mv_from;
  move_to := mv_to;
  parseFen := fun fen => {| cur := book fen; trail := []; nulled := false |};
  board_at := fun b i => pieceOn (placement (cur b)) i;
  sideToMove := fun b =>
    if nulled b then opposite (stm (cur b)) else stm (cur b);
  legalmoves := fun b =>
    if nulled b then afterNull (cur b)
    else map (fun r => r.1.1) (replies (cur b));
  makeMove := make;
  unmakeMove := unmake;
  makeNullMove := passTurn;
  unmakeNullMove := passTurn;
  isCapture := fun b m =>
    if nulled b then false
    else match findReply m (replies (cur b)) with
         | Some (capture, _) => capture
         | None => false
         end;
  isGameOver := fun b => (GameResultReason.NONE, result (cur b));
  board_hash := fun b => key (cur b);
  moveToUci := uci
|}.

(** An engine at start-up: zero-initialised tables, and a clock that
    advances by [tick] nanoseconds at each reading. *)
Definition engine0 (book : string -> pos) (tick : Z) : @Engine (lib book) :=
  {| transTable := tt_zero; killerMoves := ∅; historyHeuristic := ∅;
     searchStart := 0; timeLimitMsGlobal := 0;
     clock := fun k => Z.of_N k * tick; clockReads := 0%N |}.

End Script.

(** ** Scripted positions *)

Module Scenario.
Import Script.

(** White Kg6 and Qh5 against Kg8, White to move: Qh5-e8 mates.  The
    script follows two of White's moves. *)
Definition drawnPos : pos :=
  Pos [(45, Piece.WHITEKING); (39, Piece.WHITEQUEEN); (61, Piece.BLACKKING)]
    Color.WHITE GameResult.DRAW 4 [] [].

(** After Kg6-f6, Black to move: Kg8-f8 is the only legal move. *)
Definition afterKf6 : pos :=
  Pos [(45, Piece.WHITEKING); (39, Piece.WHITEQUEEN); (62, Piece.BLACKKING)]
    Color.BLACK GameResult.NONE 3 [(Mv 62 61, false, drawnPos)] [Mv 45 46].

Definition matedPos : pos :=
  Pos [(46, Piece.WHITEKING); (60, Piece.WHITEQUEEN); (62, Piece.BLACKKING)]
    Color.BLACK GameResult.WHITE_WIN 2 [] [].

Definition mateInOne : pos :=
  Pos [(46, Piece.WHITEKING); (39, Piece.WHITEQUEEN); (62, Piece.BLACKKING)]
    Color.WHITE GameResult.NONE 1
    [(Mv 46 45, false, afterKf6); (Mv 39 60, false, matedPos)]
    [Mv 62 61].

Definition mateInOneFen : string := "6k1/8/6K1/7Q/8/8/8/8 w - - 0 1".

Definition matedFen : string := "4Q1k1/8/6K1/8/8/8/8/8 b - - 1 1".

(** White Kh1 in check from Rh8, Black Kf3: Kh1-g1 is the only move. *)
Definition rookDraw : pos :=
  Pos [(6, Piece.WHITEKING); (15, Piece.BLACKROOK); (21, Piece.BLACKKING)]
    Color.WHITE GameResult.DRAW 7 [] [].

(** After Kh1-g1 the script follows one reply of Black only: the position
    is there for the root to have a move to make, and is never searched. *)
Definition afterKg1 : pos :=
  Pos [(6, Piece.WHITEKING); (63, Piece.BLACKROOK); (21, Piece.BLACKKING)]
    Color.BLACK GameResult.NONE 6 [(Mv 63 15, false, rookDraw)] [Mv 6 5].

Definition onlyMove : pos :=
  Pos [(7, Piece.WHITEKING); (63, Piece.BLACKROOK); (21, Piece.BLACKKING)]
    Color.WHITE GameResult.NONE 5 [(Mv 7 6, false, afterKg1)] [Mv 63 15].

Definition onlyMoveFen : string := "7r/8/8/8/8/5k2/8/7K w - - 0 1".

(** Black to move with the quiet Rh8-h2 and the capture e5xd4. *)
Definition quietOrCapture : pos :=
  Pos [(6, Piece.WHITEKING); (27, Piece.WHITEPAWN); (63, Piece.BLACKROOK);
       (36, Piece.BLACKPAWN); (21, Piece.BLACKKING)]
    Color.BLACK GameResult.NONE 8
    [(Mv 63 15, false, rookDraw); (Mv 36 27, true, rookDraw)] [Mv 6 5].

(** A position and its colour flip. *)
Definition pawnUp : pos :=
  Pos [(4, Piece.WHITEKING); (12, Piece.WHITEPAWN); (27, Piece.WHITEPAWN);
       (60, Piece.BLACKKING); (57, Piece.BLACKKNIGHT)]
    Color.WHITE GameResult.NONE 9
    [(Mv 4 3, false, drawnPos); (Mv 12 20, false, drawnPos);
     (Mv 27 35, false, drawnPos)]
    [Mv 60 59; Mv 57 42].

Definition pawnUpFlipped : pos :=
  Pos [(59, Piece.BLACKKING); (51, Piece.BLACKPAWN); (36, Piece.BLACKPAWN);
       (3, Piece.WHITEKING); (6, Piece.WHITEKNIGHT)]
    Color.WHITE GameResult.NONE 10
    [(Mv 3 4, false, drawnPos); (Mv 6 21, false, drawnPos)]
    [Mv 59 60; Mv 51 43; Mv 36 28].

(** A forced line of three white moves, the last one mating. *)
Definition mateInThree : pos :=
  Pos [(46, Piece.WHITEKING); (7, Piece.WHITEQUEEN); (62, Piece.BLACKKING)]
    Color.WHITE GameResult.NONE 20
    [(Mv 7 15, false,
      Pos [(46, Piece.WHITEKING); (15, Piece.WHITEQUEEN);
           (62, Piece.BLACKKING)]
        Color.BLACK GameResult.NONE 21
        [(Mv 62 61, false,
          Pos [(46, Piece.WHITEKING); (15, Piece.WHITEQUEEN);
               (61, Piece.BLACKKING)]
            Color.WHITE GameResult.NONE 22
            [(Mv 15 39, false,
              Pos [(46, Piece.WHITEKING); (39, Piece.WHITEQUEEN);
                   (61, Piece.BLACKKING)]
                Color.BLACK GameResult.NONE 23
                [(Mv 61 62, false, mateInOne)] [])] [])] [])] [].

(** White Ke1 and Rh1 with the right to castle against Ke8, White to move
    ("4k3/8/8/8/8/8/8/4K2R w K - 0 1"): five king moves, nine rook moves and
    castling (the king onto its rook, as chess.hpp encodes it); after a null
    move Black has five king moves. *)
Definition castling : pos :=
  Pos [(4, Piece.WHITEKING); (7, Piece.WHITEROOK); (60, Piece.BLACKKING)]
    Color.WHITE GameResult.NONE 30
    (map (fun m => (m, false, drawnPos))
       [Mv 4 3; Mv 4 11; Mv 4 12; Mv 4 13; Mv 4 5;
        Mv 7 6; Mv 7 5; Mv 7 15; Mv 7 23; Mv 7 31; Mv 7 39; Mv 7 47;
        Mv 7 55; Mv 7 63;
        Mv 4 7])
    [Mv 60 59; Mv 60 51; Mv 60 52; Mv 60 53; Mv 60 61].

(** The same position mirrored with the colours swapped, White to move
    ("r2k4/8/8/8/8/8/8/3K4 w - - 0 1"): five king moves; after a null move
    Black has five king moves and nine rook moves, and no castling with the
    king on d8. *)
Definition castlingFlipped : pos :=
  Pos [(59, Piece.BLACKKING); (56, Piece.BLACKROOK); (3, Piece.WHITEKING)]
    Color.WHITE GameResult.NONE 31
    (map (fun m => (m, false, drawnPos))
       [Mv 3 2; Mv 3 10; Mv 3 11; Mv 3 12; Mv 3 4])
    [Mv 59 58; Mv 59 50; Mv 59 51; Mv 59 52; Mv 59 60;
     Mv 56 57; Mv 56 58; Mv 56 48; Mv 56 40; Mv 56 32; Mv 56 24; Mv 56 16;
     Mv 56 8; Mv 56 0].

Definition book (fen : string) : pos :=
  if decide (fen = mateInOneFen) then mateInOne
  else if decide (fen = onlyMoveFen) then onlyMove
  else matedPos.

Definition chess : ChessLib := lib book.

(** The board on a scripted position, before any move. *)
Definition start (p : pos) : @Board chess := Bd p [] false.

(** The engine at start-up, on a clock that advances by 1000 ns at each
    reading, and the same engine inside a search that began at clock 0 with
    a budget of 1000 ms. *)
Definition fresh : @Engine chess := engine0 book 1000.

Definition searching : @Engine chess := @startSearch chess fresh 0 1000.

End Scenario.

(** ** Relations between engine states *)

(** Two tables agree for a search when each slot holds the same entry in
    both, or an entry that no node can use (its depth is below 1) in
    both. *)
Definition ttAgree (T1 T2 : TransTable) : Prop :=
  forall i, tt_read T1 i = tt_read T2 i
            \/ (tt_depth (tt_read T1 i) < 1 /\ tt_depth (tt_read T2 i) < 1).

Section EngineRelations.
Context `{lib : ChessLib}.

(** The clock never goes backwards. *)
Definition clockMonotone (eng : Engine) : Prop :=
  forall j k, (j <= k)%N -> clock eng j <= clock eng k.

(** Every reading of the clock from now on is past the budget. *)
Definition expired (eng : Engine) : Prop :=
  forall k, (clockReads eng <= k)%N ->
    timeLimitMsGlobal eng <= Z.quot (clock eng k - searchStart eng) 1000000.

(** [e'] differs from [e] by clock readings only. *)
Definition sameTables (e e' : Engine) : Prop :=
  transTable e' = transTable e
  /\ killerMoves e' = killerMoves e
  /\ historyHeuristic e' = historyHeuristic e
  /\ searchStart e' = searchStart e
  /\ timeLimitMsGlobal e' = timeLimitMsGlobal e
  /\ clock e' = clock e
  /\ (clockReads e <= clockReads e')%N.

(** [e'] is a later state of the same search: same start, budget and
    clock, and at least as many clock readings. *)
Definition laterClock (e e' : Engine) : Prop :=
  searchStart e' = searchStart e
  /\ timeLimitMsGlobal e' = timeLimitMsGlobal e
  /\ clock e' = clock e
  /\ (clockReads e <= clockReads e')%N.

(** No slot of the transposition table holds a smaller depth in [e2]. *)
Definition ttDepth_le (e1 e2 : Engine) : Prop :=
  forall i, tt_depth (tt_read (transTable e1) i)
            <= tt_depth (tt_read (transTable e2) i).

(** The killer slots of the plies below [ply] are the same. *)
Definition killersBelow (ply : Z) (e1 e2 : Engine) : Prop :=
  forall q, q < ply -> killers e2 q = killers e1 q.

(** Two engine states that differ only by unusable table entries. *)
Definition sameSearch (e1 e2 : Engine) : Prop :=
  ttAgree (transTable e1) (transTable e2)
  /\ killerMoves e1 = killerMoves e2
  /\ historyHeuristic e1 = historyHeuristic e2
  /\ searchStart e1 = searchStart e2
  /\ timeLimitMsGlobal e1 = timeLimitMsGlobal e2
  /\ clock e1 = clock e2
  /\ clockReads e1 = clockReads e2.

(** Two runs end the same way: both out of fuel, or both with the same
    value and engine states that still differ only by unusable entries. *)
Definition sameResult {A} (x y : option (A * Engine)) : Prop :=
  match x, y with
  | Some (a, e), Some (a', e') => a = a' /\ sameSearch e e'
  | None, None => True
  | _, _ => False
  end.

(** Two calls of [Move] give the same answer and leave the same killer
    and history tables. *)
Definition sameAnswer (x y : option (string * Engine)) : Prop :=
  match x, y with
  | Some (s, e), Some (s', e') =>
      s = s' /\ killerMoves e = killerMoves e'
      /\ historyHeuristic e = historyHeuristic e'
  | None, None => True
  | _, _ => False
  end.

(** The number of clock readings between two states. *)
Definition readings (e e' : Engine) : Z :=
  Z.of_N (clockReads e') - Z.of_N (clockReads e).

(** From [e] to [e'] every entry of the history table is either as it
    was, or the 32-bit sum of its old value and a positive total [n] of
    additions, [n] being at most [k] times [D]. *)
Definition grownBy (D k : Z) (e e' : Engine) : Prop :=
  forall side from to,
    history e' side from to = history e side from to
    \/ exists n,
         0 < n <= D * k
         /\ history e' side from to = wrap32 (history e side from to + n).

(** The order that [orderMoves] sorts by: [a] may stand before [b]. *)
Definition byPriority (eng : Engine) (board : Board) (depth : Z)
    : relation chess_Move :=
  fun a b => scoreMove eng board b depth <= scoreMove eng board a depth.

(** The terms of [evaluate] that read the piece placement only. *)
Definition staticScore (board : Board) : Z :=
  evaluateMaterial board + evaluatePawnStructure board
  + evaluateKingSafety board + evaluatePieceSquare board
  + evaluateDevelopment board + evaluateCenterControl board.

End EngineRelations.

(** ** The desktop front end (chess-gui/main.cpp) *)

Module SimulationState.
Inductive t := PAUSED | RUNNING.
End SimulationState.

#[global] Instance GameResultReason_eq_dec : EqDecision GameResultReason.t.
Proof. solve_decision. Defined.

(** What main.cpp calls in chess.hpp, magic_enum and chess-simulator.h
    beyond what the engine calls. *)
Class GuiLib `{lib : ChessLib} := {
  (** [chess::Board()] *)
  startBoard : Board;
  (** [board.getFen(true)] *)
  getFen : Board -> string;
  (** [chess::uci::uciToMove] and [chess::uci::moveToSan] *)
  uciToMove : Board -> string -> chess_Move;
  moveToSan : Board -> chess_Move -> string;
  isHalfMoveDraw : Board -> bool;
  getHalfMoveDrawType : Board -> GameResultReason.t * GameResult.t;
  fullMoveNumber : Board -> Z;
  (** [magic_enum::enum_name] on the three enumerations *)
  resultName : GameResult.t -> string;
  reasonName : GameResultReason.t -> string;
  colorName : Color.t -> string;
  (** the default argument of [Move] in chess-simulator.h *)
  defaultTimeLimitMs : Z
}.

Module Gui.

Definition newline : string := String (Ascii.ascii_of_nat 10) EmptyString.
Definition quote : string := String (Ascii.ascii_of_nat 34) EmptyString.

(** [moveStr.erase(std::remove(moveStr.begin(), moveStr.end(), '\n'),
    moveStr.end())] *)
Fixpoint stripNewlines (s : string) : string :=
  match s with
  | EmptyString => EmptyString
  | String c s =>
      if decide (c = Ascii.ascii_of_nat 10) then stripNewlines s
      else String c (stripNewlines s)
  end.

(** [hay.find(needle)], with [None] for [std::string::npos]. *)
Fixpoint string_find (hay needle : string) {struct hay} : option nat :=
  if String.prefix needle hay then Some 0%nat
  else match hay with
       | EmptyString => None
       | String _ hay => S <$> string_find hay needle
       end.

Definition ConvertResultToPGN (raw : string) : string :=
  if string_find raw "WHITE" is Some _ then "1-0"
  else if string_find raw "BLACK" is Some _ then "0-1"
  else if string_find raw "DRAW" is Some _ then "1/2-1/2"
  else "".

(** No blank in [w]. *)
Fixpoint spaceFree (w : string) : bool :=
  match w with
  | EmptyString => true
  | String c w => negb (Ascii.eqb c Ascii.Space) && spaceFree w
  end.

(** [w] occurs in [a] or in [b]. *)
Definition mentions (w a b : string) : bool :=
  bool_decide (is_Some (string_find a w) \/ is_Some (string_find b w)).

Section WithLib.
Context `{gui : GuiLib}.

(** The globals of main.cpp, the board of [main] and the process-wide
    state of the engine. *)
Record state := {
  board : Board;
  simulationState : SimulationState.t;
  timeSpentOnMoves : Z;
  timeSpentLastMove : Z;
  gameResult : string;
  movesDisplay : list string;
  movesUCI : list string;
  engine : Engine
}.

Definition reset (s : state) : state :=
  {| board := startBoard;
     simulationState := SimulationState.PAUSED;
     timeSpentOnMoves := 0;
     timeSpentLastMove := 0;
     gameResult := "";
     movesDisplay := [];
     movesUCI := [];
     engine := engine s |}.

Definition set_gameResult (s : state) (r : string)
    (sim : SimulationState.t) : state :=
  {| board := board s;
     simulationState := sim;
     timeSpentOnMoves := timeSpentOnMoves s;
     timeSpentLastMove := timeSpentLastMove s;
     gameResult := r;
     movesDisplay := movesDisplay s;
     movesUCI := movesUCI s;
     engine := engine s |}.

Definition move (fuel : nat) (s : state) : option state :=
  if isHalfMoveDraw (board s) then
    let result := getHalfMoveDrawType (board s) in
    Some (set_gameResult s
            (resultName result.2 +:+ " " +:+ reasonName result.1)
            (simulationState s))
  else
    let result := isGameOver (board s) in
    if decide (result.2 <> GameResult.NONE
               \/ result.1 <> GameResultReason.NONE) then
      Some (set_gameResult s
              (resultName result.2 +:+ " " +:+ reasonName result.1)
              SimulationState.PAUSED)
    else
      let turn := colorName (sideToMove (board s)) in
      let '(beforeTime, eng) := readClock (engine s) in
      '(moveStr, eng) ←
        Move fuel eng (getFen (board s)) defaultTimeLimitMs;
      let '(afterTime, eng) := readClock eng in
      let moveStr := stripNewlines moveStr in
      let move := uciToMove (board s) moveStr in
      let board' := makeMove (board s) move in
      Some {| board := board';
              simulationState := simulationState s;
              timeSpentOnMoves :=
                timeSpentOnMoves s + (afterTime - beforeTime);
              timeSpentLastMove := afterTime - beforeTime;
              gameResult := gameResult s;
              movesDisplay :=
                movesDisplay s
                ++ [pretty (fullMoveNumber board') +:+ " " +:+ turn
                    +:+ ": " +:+ moveStr];
              movesUCI := movesUCI s ++ [moveStr];
              engine := eng |}.

(** One round of the loop of [GeneratePGN] on the stream, the board and
    the move counter. *)
Definition pgnStep (st : string * Board * Z) (uci : string)
    : string * Board * Z :=
  let '(pgn, board, moveNumber) := st in
  let move := uciToMove board uci in
  let pgn :=
    if decide (sideToMove board = Color.WHITE)
    then pgn +:+ pretty moveNumber +:+ ". " else pgn in
  let san := moveToSan board move in
  let pgn := pgn +:+ san +:+ " " in
  let board := makeMove board move in
  let moveNumber :=
    if decide (sideToMove board = Color.WHITE) then moveNumber + 1
    else moveNumber in
  (pgn, board, moveNumber).

Definition pgnHeader (result : string) : string :=
  "[Event " +:+ quote +:+ "Self Play" +:+ quote +:+ "]" +:+ newline
  +:+ "[Site " +:+ quote +:+ "Local" +:+ quote +:+ "]" +:+ newline
  +:+ "[Result " +:+ quote +:+ result +:+ quote +:+ "]" +:+ newline
  +:+ newline.

Definition GeneratePGN (uciMoves : list string) (result : string) : string :=
  let '(pgn, _, _) :=
    foldl pgnStep (pgnHeader result, startBoard, 1) uciMoves in
  pgn +:+ result.

(** The board is the one [GeneratePGN] reaches on the recorded moves, and
    the two move lists go together. *)
Definition inSync (s : state) : Prop :=
  (forall pgn n, (foldl pgnStep (pgn, startBoard, n) (movesUCI s)).1.2
                 = board s)
  /\ length (movesDisplay s) = length (movesUCI s).

(** The game on the board has ended for [move]. *)
Definition finished (b : Board) : Prop :=
  isHalfMoveDraw b = true
  \/ (isGameOver b).2 <> GameResult.NONE
  \/ (isGameOver b).1 <> GameResultReason.NONE.

End WithLib.
End Gui.

(** ** Player selection (web/src/components/BotSelector.tsx) *)

Module BotSelector.

Record BotInfo := { username : string; avatar : string; forkUrl : string }.

Module PlayerType.
Inductive t := bot | human.
End PlayerType.

Record PlayerInfo := { type : PlayerType.t; bot : option BotInfo }.

Definition HUMAN_PLAYER : PlayerInfo :=
  {| type := PlayerType.human; bot := None |}.

Definition resolvePlayer (bots : list BotInfo) (value : string)
    : option PlayerInfo :=
  if decide (value = "") then None
  else if decide (value = "__human__") then Some HUMAN_PLAYER
  else
    match List.find (fun b => bool_decide (username b = value)) bots with
    | Some b => Some {| type := PlayerType.bot; bot := Some b |}
    | None => None
    end.

Definition playerValue (p : option PlayerInfo) : string :=
  match p with
  | None => ""
  | Some p =>
      match type p with
      | PlayerType.human => "__human__"
      | PlayerType.bot =>
          match bot p with
          | Some b => username b
          | None => ""
          end
      end
  end.

End BotSelector.

(** ** Scripted front end and player lists *)

Module Desk.
Import Script Scenario.

(** The legal move whose UCI string is [s]. *)
Definition findUci (b : board) (s : string) : mv :=
  default (Mv 0 0)
    (List.find (fun m => bool_decide (uci m = s)) (@legalmoves chess b)).

(** The position string of a scripted position, by its key. *)
Definition fenOf (b : board) : string :=
  if decide (key (cur b) = 1) then mateInOneFen
  else if decide (key (cur b) = 5) then onlyMoveFen
  else matedFen.

Definition gui : @GuiLib chess := {|
  startBoard := start mateInOne;
  getFen := fenOf;
  uciToMove := findUci;
  moveToSan := fun _ m => uci m;
  isHalfMoveDraw := fun _ => false;
  getHalfMoveDrawType := fun _ => (GameResultReason.NONE, GameResult.NONE);
  fullMoveNumber := fun b => 1 + Z.of_nat (length (trail b)) / 2;
  resultName := fun r =>
    match r with
    | GameResult.NONE => "NONE"
    | GameResult.WHITE_WIN => "WHITE_WIN"
    | GameResult.BLACK_WIN => "BLACK_WIN"
    | GameResult.DRAW => "DRAW"
    end;
  reasonName := fun r =>
    match r with
    | GameResultReason.CHECKMATE => "CHECKMATE"
    | GameResultReason.STALEMATE => "STALEMATE"
    | GameResultReason.INSUFFICIENT_MATERIAL => "INSUFFICIENT_MATERIAL"
    | GameResultReason.FIFTY_MOVE_RULE => "FIFTY_MOVE_RULE"
    | GameResultReason.THREEFOLD_REPETITION => "THREEFOLD_REPETITION"
    | GameResultReason.NONE => "NONE"
    end;
  colorName := fun c =>
    match c with
    | Color.WHITE => "WHITE"
    | Color.BLACK => "BLACK"
    | Color.NONE => "NONE"
    end;
  defaultTimeLimitMs := 1000
|}.

(** The front end on the mated position, while the simulation runs. *)
Definition lost : @Gui.state chess :=
  {| Gui.board := start matedPos;
     Gui.simulationState := SimulationState.RUNNING;
     Gui.timeSpentOnMoves := 0;
     Gui.timeSpentLastMove := 0;
     Gui.gameResult := "";
     Gui.movesDisplay := [];
     Gui.movesUCI := [];
     Gui.engine := fresh |}.

(** The front end after a reset, and after one call of [move]. *)
Definition opening : @Gui.state chess := @Gui.reset chess gui lost.

Definition afterMove : @Gui.state chess :=
  match @Gui.move chess gui 4 opening with
  | Some s => s
  | None => opening
  end.

(** The engine after a node of depth 2 on the mate in one, and an engine
    whose budget of 0 ms is spent from the start. *)
Definition afterSearch : @Engine chess :=
  match @alphaBeta chess 4 searching (start mateInOne) 2 (- INF) INF 1 with
  | Some (_, _, e) => e
  | None => searching
  end.

Definition timedOut : @Engine chess := @startSearch chess fresh 0 0.

(** A table with one deep entry. *)
Definition deepTable : TransTable := storeTT tt_zero 5 7 40 NodeType.EXACT.

Definition alice : BotSelector.BotInfo :=
  {| BotSelector.username := "alice"; BotSelector.avatar := "a.png";
     BotSelector.forkUrl := "forks/alice" |}.

Definition bob : BotSelector.BotInfo :=
  {| BotSelector.username := "bob"; BotSelector.avatar := "b.png";
     BotSelector.forkUrl := "forks/bob" |}.

End Desk.

(** ** A blocked position *)

Module Blockade.
Import Script.

(** Every piece is blocked but the d-pawns: White Ka1, Bb1, pawns a2, c2,
    d3, f6, h6; Black Kh8, Bg8, pawns a3, c3, d6, f7, h7.  White has the
    single legal move d3-d4, Black then the single legal move d6-d5, and
    White is stalemated.  The three positions are the whole game tree. *)
Definition locked : pos :=
  Pos [(0, Piece.WHITEKING); (1, Piece.WHITEBISHOP); (8, Piece.WHITEPAWN);
       (10, Piece.WHITEPAWN); (16, Piece.BLACKPAWN); (18, Piece.BLACKPAWN);
       (27, Piece.WHITEPAWN); (35, Piece.BLACKPAWN); (45, Piece.WHITEPAWN);
       (47, Piece.WHITEPAWN); (53, Piece.BLACKPAWN); (55, Piece.BLACKPAWN);
       (62, Piece.BLACKBISHOP); (63, Piece.BLACKKING)]
    Color.WHITE GameResult.DRAW 42 [] [].

Definition afterD4 : pos :=
  Pos [(0, Piece.WHITEKING); (1, Piece.WHITEBISHOP); (8, Piece.WHITEPAWN);
       (10, Piece.WHITEPAWN); (16, Piece.BLACKPAWN); (18, Piece.BLACKPAWN);
       (27, Piece.WHITEPAWN); (43, Piece.BLACKPAWN); (45, Piece.WHITEPAWN);
       (47, Piece.WHITEPAWN); (53, Piece.BLACKPAWN); (55, Piece.BLACKPAWN);
       (62, Piece.BLACKBISHOP); (63, Piece.BLACKKING)]
    Color.BLACK GameResult.NONE 41 [(Mv 43 35, false, locked)] [Mv 27 35].

Definition blockade : pos :=
  Pos [(0, Piece.WHITEKING); (1, Piece.WHITEBISHOP); (8, Piece.WHITEPAWN);
       (10, Piece.WHITEPAWN); (16, Piece.BLACKPAWN); (18, Piece.BLACKPAWN);
       (19, Piece.WHITEPAWN); (43, Piece.BLACKPAWN); (45, Piece.WHITEPAWN);
       (47, Piece.WHITEPAWN); (53, Piece.BLACKPAWN); (55, Piece.BLACKPAWN);
       (62, Piece.BLACKBISHOP); (63, Piece.BLACKKING)]
    Color.WHITE GameResult.NONE 40 [(Mv 19 27, false, afterD4)] [Mv 43 35].

Definition blockadeFen : string :=
  "6bk/5p1p/3p1P1P/8/8/p1pP4/P1P5/KB6 w - - 0 1".

(** A position that is not looked at. *)
Definition unexplored : pos := Pos [] Color.NONE GameResult.NONE 0 [] [].

(** White Kg1, pawn f4; Black Kg8, pawns d6, e5; Black to move
    ("6k1/8/3p4/4p3/5P2/8/8/6K1 b - - 0 1"): five king moves, the quiet
    d6-d5 and e5-e4, and the capture e5xf4.  Only the root is used: the
    replies are not followed. *)
Definition pushOrCapture : pos :=
  Pos [(6, Piece.WHITEKING); (29, Piece.WHITEPAWN); (36, Piece.BLACKPAWN);
       (43, Piece.BLACKPAWN); (62, Piece.BLACKKING)]
    Color.BLACK GameResult.NONE 43
    [(Mv 62 53, false, unexplored); (Mv 62 54, false, unexplored);
     (Mv 62 55, false, unexplored); (Mv 62 61, false, unexplored);
     (Mv 62 63, false, unexplored); (Mv 43 35, false, unexplored);
     (Mv 36 28, false, unexplored); (Mv 36 29, true, unexplored)]
    [Mv 29 37; Mv 29 36; Mv 6 5; Mv 6 7; Mv 6 13; Mv 6 14; Mv 6 15].

Definition book (fen : string) : pos :=
  if decide (fen = blockadeFen) then blockade else locked.

Definition chess : ChessLib := lib book.

Definition start (p : pos) : @Board chess := Bd p [] false.

(** The engine at start-up, on a clock that advances by 1000 ns at each
    reading. *)
Definition fresh : @Engine chess := engine0 book 1000.

(** One call of [Move] on the blocked position with a budget of 1000 ms,
    and the engine after [n] such calls. *)
Definition again (eng : @Engine chess) : @Engine chess :=
  match @Move chess 4 eng blockadeFen 1000 with
  | Some (_, eng) => eng
  | None => eng
  end.

Definition played (n : N) : @Engine chess := N.iter n again fresh.

#[local] Existing Instance chess.

(** The boards of the line, as [makeMove] leaves them. *)
Definition afterWhite : Board := makeMove (start blockade) (Mv 19 27).
Definition afterBlack : Board := makeMove afterWhite (Mv 43 35).

(** The engine is [j] clock readings into a call of [Move] that started
    at reading [r] with a budget of 1000 ms, on the clock of [fresh]; the
    slot of [afterWhite] holds depth [t], the count of d6-d5 is [h], and
    the killers of ply 0 are untouched. *)
Definition inCall (r j : N) (t h : Z) (e : Engine) : Prop :=
  clock e = (fun k => Z.of_N k * 1000)
  /\ searchStart e = Z.of_N r * 1000
  /\ timeLimitMsGlobal e = 1000
  /\ clockReads e = (r + j)%N
  /\ tt_depth (probeTT (transTable e) 41) = t
  /\ history e 1 43 35 = h
  /\ killers e 0 = (NO_MOVE, NO_MOVE).

(** The state a node on [afterWhite] leaves when its only move, the
    quiet d6-d5, has raised alpha at depth [d]. *)
Definition afterNode (e : Engine) (d : Z) : Engine :=
  set_transTable
    (recordQuiet (outOfTime (outOfTime e).2).2 afterWhite (Mv 43 35) d 1)
    (storeTT
       (transTable
          (recordQuiet (outOfTime (outOfTime e).2).2 afterWhite (Mv 43 35)
             d 1))
       41 d 0 NodeType.EXACT).

End Blockade.

(** * Properties *)

#[global] Arguments evaluate : simpl never.
#[global] Arguments outOfTime : simpl never.
#[global] Arguments orderMoves : simpl never.
#[global] Arguments recordQuiet : simpl never.
#[global] Arguments storeTT : simpl never.
#[global] Arguments clearTT : simpl never.
#[global] Arguments ttLookup : simpl never.

(** ** Transposition table *)

Lemma tt_read_write T i j e :
  tt_read (tt_write T i e) j = if decide (i = j) then e else tt_read T j.
Proof.
  unfold tt_read, tt_write; simpl.
  rewrite lookup_insert. by case_decide.
Qed.

Lemma tt_read_clear T i : tt_read (clearTT T) i = invalidate (tt_read T i).
Proof.
  unfold tt_read, clearTT; simpl.
  rewrite lookup_fmap. by destruct (tt_slots T !! i).
Qed.

Lemma tt_index_range hash : 0 <= hash -> 0 <= tt_index hash < TT_SIZE.
Proof.
  intros Hh. unfold tt_index.
  replace (TT_SIZE - 1) with (Z.ones 22) by reflexivity.
  rewrite Z.land_ones by lia.
  change TT_SIZE with (2 ^ 22). apply Z.mod_pos_bound. lia.
Qed.

Lemma storeTT_read T hash depth score type i :
  tt_read (storeTT T hash depth score type) i =
    if decide (tt_depth (probeTT T hash) <= depth /\ i = tt_index hash)
    then {| tt_depth := depth; tt_score := score; tt_type := type |}
    else tt_read T i.
Proof.
  unfold storeTT.
  destruct (Z.leb_spec (tt_depth (probeTT T hash)) depth) as [Hle|Hlt].
  - rewrite tt_read_write. destruct (decide (tt_index hash = i)) as [<-|Hne].
    + by rewrite decide_True.
    + rewrite decide_False; [done|]. by intros [_ ->].
  - rewrite decide_False; [done|]. lia.
Qed.

(** C4. Depth-preferred replacement: [storeTT] writes the slot
    [hash & (TT_SIZE - 1)] exactly when the depth stored there is at most
    the incoming depth; a store with a strictly smaller depth leaves the
    whole table as it was; after a store that went through, [probeTT] of
    the same hash gives back the stored depth, score and type, and no
    other slot has changed. *)
Theorem storeTT_depth_preferred T hash depth score type :
  let T' := storeTT T hash depth score type in
  let new := {| tt_depth := depth; tt_score := score; tt_type := type |} in
  (tt_depth (probeTT T hash) <= depth ->
     probeTT T' hash = new
     /\ forall i, i <> tt_index hash -> tt_read T' i = tt_read T i)
  /\ (depth < tt_depth (probeTT T hash) -> T' = T)
  /\ (probeTT T' hash =
        if tt_depth (probeTT T hash) <=? depth then new else probeTT T hash).
Proof.
  cbv zeta. split; [|split].
  - intros Hle. split.
    + unfold probeTT at 1. rewrite storeTT_read. by rewrite decide_True.
    + intros i Hi. rewrite storeTT_read. rewrite decide_False; [done|].
      by intros [_ ->].
  - intros Hlt. unfold storeTT.
    destruct (Z.leb_spec (tt_depth (probeTT T hash)) depth); [lia | done].
  - unfold probeTT at 1. rewrite storeTT_read.
    destruct (Z.leb_spec (tt_depth (probeTT T hash)) depth).
    + by rewrite decide_True.
    + rewrite decide_False; [done|]. lia.
Qed.

Lemma storeTT_depth_preferred_witness :
  probeTT
    (storeTT (storeTT tt_zero 77 3 25 NodeType.LOWERBOUND)
       77 5 (-40) NodeType.EXACT) 77
    = {| tt_depth := 5; tt_score := -40; tt_type := NodeType.EXACT |}
  /\ storeTT (storeTT tt_zero 77 3 25 NodeType.LOWERBOUND)
       77 2 900 NodeType.UPPERBOUND
     = storeTT tt_zero 77 3 25 NodeType.LOWERBOUND.
Proof.
  pose proof (storeTT_depth_preferred
                (storeTT tt_zero 77 3 25 NodeType.LOWERBOUND)
                77 5 (-40) NodeType.EXACT) as [Hstore _].
  pose proof (storeTT_depth_preferred
                (storeTT tt_zero 77 3 25 NodeType.LOWERBOUND)
                77 2 900 NodeType.UPPERBOUND) as (_ & Hkeep & _).
  split.
  - apply Hstore. vm_compute. discriminate.
  - apply Hkeep. vm_compute. reflexivity.
Defined.

(** ** Static evaluation: the board *)

Section EvaluatorFacts.
Context `{laws : ChessLaws}.

Lemma evaluateMobility_board (b : Board) : (evaluateMobility b).2 = b.
Proof. unfold evaluateMobility; simpl. apply null_roundtrip. Qed.

Lemma evaluate_snd (b : Board) : (evaluate b).2 = b.
Proof.
  unfold evaluate.
  destruct (evaluateMobility b) as [mob b'] eqn:E. simpl.
  change b' with (mob, b').2. rewrite <- E. apply evaluateMobility_board.
Qed.

Lemma evaluate_eta (b : Board) : evaluate b = ((evaluate b).1, b).
Proof.
  pose proof (evaluate_snd b) as H.
  destruct (evaluate b) as [v b']. simpl in *. by subst.
Qed.

(** C9. [evaluate] hands the board back as it received it: the null move
    of the mobility term is taken back before the remaining terms are
    computed, so the position (side to move and hash included) is the
    one before the call. *)
Theorem evaluate_board (b : Board) :
  (evaluate b).2 = b
  /\ sideToMove (evaluate b).2 = sideToMove b
  /\ board_hash (evaluate b).2 = board_hash b.
Proof. by rewrite evaluate_snd. Qed.

End EvaluatorFacts.

(** ** Quiescence search *)

Section QuiescenceFacts.
Context `{laws : ChessLaws}.

Lemma quiescence_S fuel board alpha beta :
  quiescence (S fuel) board alpha beta =
    let '(standPat, board) := evaluate board in
    if standPat >=? beta then Some (beta, board)
    else
      let alpha := if alpha <? standPat then standPat else alpha in
      quiescenceLoop (quiescence fuel) beta (legalmoves board) board alpha.
Proof. reflexivity. Qed.

(** The window of the loop: whatever the recursive calls return, the
    loop ends on [beta] or on the running [alpha]. *)
Lemma quiescenceLoop_range rec beta moves board alpha v b' :
  alpha <= beta ->
  quiescenceLoop rec beta moves board alpha = Some (v, b') ->
  alpha <= v <= beta.
Proof.
  revert board alpha.
  induction moves as [|m ms IH]; intros board alpha Hab H; simpl in H.
  - inversion H; lia.
  - destruct (isCapture board m); simpl in H; [|by eapply IH].
    destruct (rec (makeMove board m) (- beta) (- alpha)) as [[r b1]|];
      simpl in H; [|done].
    destruct (- r >=? beta) eqn:Hcut.
    + inversion H; lia.
    + destruct (- r >? alpha) eqn:Hup; apply IH in H; lia.
Qed.

Lemma quiescence_range fuel board alpha beta v b' :
  alpha <= beta ->
  quiescence fuel board alpha beta = Some (v, b') ->
  alpha <= v <= beta.
Proof.
  destruct fuel as [|fuel]; [done|]. rewrite quiescence_S. intros Hab.
  destruct (evaluate board) as [standPat b1].
  destruct (standPat >=? beta) eqn:Hcut.
  - intros H; inversion H; lia.
  - destruct (alpha <? standPat) eqn:Hup; intros H;
      apply quiescenceLoop_range in H; lia.
Qed.

(** A loop over moves without a capture does not move the board and
    does not call [rec]. *)
Lemma quiescenceLoop_quiet rec beta moves board alpha :
  (forall m, m ∈ moves -> isCapture board m = false) ->
  quiescenceLoop rec beta moves board alpha = Some (alpha, board).
Proof.
  induction moves as [|m ms IH]; intros Hq; [done|]. simpl.
  rewrite (Hq m) by left. simpl. apply IH. intros m' Hm'. apply Hq. by right.
Qed.

(** The loop leaves the board of a lawful collaborator where it found
    it, and ends, when the recursive calls do on the positions one capture
    away. *)
Lemma quiescenceLoop_total rec beta moves board alpha :
  moves ⊆ legalmoves board ->
  (forall m a b, m ∈ legalmoves board -> isCapture board m = true ->
     exists r, rec (makeMove board m) a b = Some (r, makeMove board m)) ->
  exists v, quiescenceLoop rec beta moves board alpha = Some (v, board).
Proof.
  revert alpha. induction moves as [|m ms IH]; intros alpha Hsub Hrec.
  - by eexists.
  - assert (Hm : m ∈ legalmoves board) by (apply Hsub; left).
    assert (Hms : ms ⊆ legalmoves board).
    { intros x Hx. apply Hsub. by right. }
    simpl. destruct (isCapture board m) eqn:Hc; simpl; [|by apply IH].
    destruct (Hrec m (- beta) (- alpha) Hm Hc) as [r ->]. simpl.
    rewrite move_roundtrip by done.
    destruct (- r >=? beta); [by eexists|]. by apply IH.
Qed.

(** [quiescence] ends within [pieceCount board] nested calls, on the
    board it was given. *)
Lemma quiescence_total fuel board alpha beta :
  (pieceCount board < fuel)%nat ->
  exists v, quiescence fuel board alpha beta = Some (v, board).
Proof.
  revert board alpha beta.
  induction fuel as [|fuel IH]; intros board alpha beta Hf; [lia|].
  rewrite quiescence_S, (evaluate_eta board).
  destruct ((evaluate board).1 >=? beta); [by eexists|].
  apply quiescenceLoop_total; [done|].
  intros m a b Hm Hc. apply IH.
  pose proof (capture_shrinks board m Hm Hc). lia.
Qed.

Lemma quiescenceLoop_board rec beta moves board alpha v b' :
  moves ⊆ legalmoves board ->
  (forall m a b r b1, rec (makeMove board m) a b = Some (r, b1) ->
     b1 = makeMove board m) ->
  quiescenceLoop rec beta moves board alpha = Some (v, b') ->
  b' = board.
Proof.
  revert alpha. induction moves as [|m ms IH]; intros alpha Hsub Hrec H;
    simpl in H.
  - by inversion H.
  - assert (Hm : m ∈ legalmoves board) by (apply Hsub; left).
    assert (Hms : ms ⊆ legalmoves board).
    { intros x Hx. apply Hsub. by right. }
    destruct (isCapture board m); simpl in H; [|by eapply IH].
    destruct (rec (makeMove board m) (- beta) (- alpha)) as [[r b1]|] eqn:E;
      simpl in H; [|done].
    apply Hrec in E. subst b1. rewrite move_roundtrip in H by done.
    destruct (- r >=? beta); [by inversion H|]. by eapply IH.
Qed.

Lemma quiescence_board fuel board alpha beta v b' :
  quiescence fuel board alpha beta = Some (v, b') -> b' = board.
Proof.
  revert board alpha beta v b'.
  induction fuel as [|fuel IH]; intros board alpha beta v b'; [done|].
  rewrite quiescence_S, (evaluate_eta board).
  destruct ((evaluate board).1 >=? beta); [by inversion 1|].
  apply quiescenceLoop_board; [done|].
  intros m a b r b1. apply IH.
Qed.

(** C10. [quiescence] is fail-hard: on a window with [alpha <= beta] it
    returns (within [pieceCount board] nested calls) a value of the closed
    interval [alpha, beta], and whatever the fuel, a value it returns lies
    in that interval. *)
Theorem quiescence_fail_hard board alpha beta :
  alpha <= beta ->
  (exists v, quiescence (S (pieceCount board)) board alpha beta
             = Some (v, board) /\ alpha <= v <= beta)
  /\ (forall fuel v b', quiescence fuel board alpha beta = Some (v, b') ->
        alpha <= v <= beta).
Proof.
  intros Hab. split.
  - destruct (quiescence_total (S (pieceCount board)) board alpha beta)
      as [v Hv]; [lia|].
    exists v. split; [done|]. by eapply quiescence_range.
  - intros fuel v b'. by apply quiescence_range.
Qed.

(** C5 (amended). On a position without a legal capture, [quiescence]
    returns the static evaluation clamped to the window: [beta] when the
    evaluation is at least [beta], otherwise the larger of [alpha] and the
    evaluation; it is the evaluation itself exactly when the evaluation is
    [beta] or lies in [alpha, beta). *)
Theorem quiescence_stand_pat fuel board alpha beta :
  (forall m, m ∈ legalmoves board -> isCapture board m = false) ->
  let standPat := (evaluate board).1 in
  quiescence (S fuel) board alpha beta =
    Some (if standPat >=? beta then beta else Z.max alpha standPat, board)
  /\ (alpha <= standPat < beta \/ standPat = beta ->
      quiescence (S fuel) board alpha beta = Some (standPat, board)).
Proof.
  intros Hq standPat.
  assert (H : quiescence (S fuel) board alpha beta =
    Some (if standPat >=? beta then beta else Z.max alpha standPat, board)).
  { rewrite quiescence_S, (evaluate_eta board). fold standPat.
    destruct (standPat >=? beta); [done|].
    rewrite quiescenceLoop_quiet by done.
    destruct (alpha <? standPat) eqn:E; do 2 f_equal; lia. }
  split; [done|]. intros Hwin. rewrite H.
  destruct (standPat >=? beta) eqn:E; do 2 f_equal; lia.
Qed.

End QuiescenceFacts.

(** ** A node of the search, unfolded *)

Section NodeFacts.
Context `{lib : ChessLib}.

Lemma outOfTime_eta eng :
  outOfTime eng = ((outOfTime eng).1, (outOfTime eng).2).
Proof. by destruct (outOfTime eng). Qed.

Lemma alphaBeta_unfold fuel eng board depth alpha beta ply :
  alphaBeta fuel eng board depth alpha beta ply =
    let '(timeout, eng) := outOfTime eng in
    if timeout then
      let '(v, board) := evaluate board in Some (v, board, eng)
    else
      match depth with
      | O =>
          '(v, board) ← quiescence fuel board alpha beta;
          Some (v, board, eng)
      | S depth' =>
          let gameOver := isGameOver board in
          if decide (gameOver.2 ≠ GameResult.NONE) then
            if decide (gameOver.2 = GameResult.DRAW)
            then Some (0, board, eng)
            else Some (- MATE_SCORE + ply, board, eng)
          else
            let hash := board_hash board in
            let tt := probeTT (transTable eng) hash in
            match ttLookup tt (Z.of_nat depth) alpha beta with
            | inl v => Some (v, board, eng)
            | inr (alpha, beta) =>
                let moves := legalmoves board in
                let moves := orderMoves eng moves board ply in
                let originalAlpha := alpha in
                '(bestScore, board, eng) ←
                  alphaBetaLoop
                    (fun board eng alpha beta =>
                       alphaBeta fuel eng board depth' alpha beta (ply + 1))
                    (Z.of_nat depth) beta ply moves board eng alpha
                    (- INF) true;
                let type :=
                  if bestScore <=? originalAlpha then NodeType.UPPERBOUND
                  else if bestScore >=? beta then NodeType.LOWERBOUND
                  else NodeType.EXACT in
                let eng :=
                  set_transTable eng
                    (storeTT (transTable eng) hash (Z.of_nat depth)
                       bestScore type) in
                Some (bestScore, board, eng)
            end
      end.
Proof. by destruct depth. Qed.

End NodeFacts.

(** ** Termination and the board: search with a lawful collaborator *)

Section SearchFacts.
Context `{laws : ChessLaws}.

Lemma orderMoves_perm eng moves board depth :
  orderMoves eng moves board depth ≡ₚ moves.
Proof. unfold orderMoves. apply merge_sort_Permutation. Qed.

Lemma orderMoves_elem eng moves board depth m :
  m ∈ orderMoves eng moves board depth <-> m ∈ moves.
Proof. by rewrite orderMoves_perm. Qed.

(** The loop of a node hands the board back and ends, when the
    recursive calls do so on the positions one legal move away. *)
Lemma alphaBetaLoop_total rec depth beta ply moves board eng alpha best
    first :
  moves ⊆ legalmoves board ->
  (forall m e a b, m ∈ legalmoves board ->
     exists r e', rec (makeMove board m) e a b
                  = Some (r, makeMove board m, e')) ->
  exists v e',
    alphaBetaLoop rec depth beta ply moves board eng alpha best first
      = Some (v, board, e').
Proof.
  intros Hsub Hrec. revert eng alpha best first Hsub.
  induction moves as [|m ms IH]; intros eng alpha best first Hsub.
  - by do 2 eexists.
  - assert (Hm : m ∈ legalmoves board) by (apply Hsub; left).
    assert (Hms : ms ⊆ legalmoves board).
    { intros x Hx. apply Hsub. by right. }
    assert (Hstep : forall score e1, exists v e',
      (let board' := unmakeMove (makeMove board m) m in
       let bestScore := if score >? best then score else best in
       let '(alpha, eng) :=
         if score >? alpha then
           (score,
            if negb (isCapture board' m)
            then recordQuiet e1 board' m depth ply else e1)
         else (alpha, e1) in
       if alpha >=? beta then Some (bestScore, board', eng)
       else alphaBetaLoop rec depth beta ply ms board' eng alpha bestScore
              false) = Some (v, board, e')).
    { intros score e1. simpl. rewrite move_roundtrip by done.
      destruct (score >? alpha).
      - destruct (score >=? beta); [by do 2 eexists|]. by apply IH.
      - destruct (alpha >=? beta); [by do 2 eexists|]. by apply IH. }
    simpl. destruct first.
    + destruct (Hrec m eng (- beta) (- alpha) Hm) as (r & e1 & ->).
      simpl. apply Hstep.
    + destruct (Hrec m eng (- alpha - 1) (- alpha) Hm) as (r & e1 & ->).
      simpl. destruct ((- r >? alpha) && (- r <? beta)).
      * destruct (Hrec m e1 (- beta) (- alpha) Hm) as (r2 & e2 & ->).
        simpl. apply Hstep.
      * simpl. apply Hstep.
Qed.

(** A node ends, and hands back the board it received, as soon as the
    fuel exceeds the number of pieces on the board. *)
Lemma alphaBeta_total fuel eng board depth alpha beta ply :
  (pieceCount board < fuel)%nat ->
  exists v e',
    alphaBeta fuel eng board depth alpha beta ply = Some (v, board, e').
Proof.
  revert eng board alpha beta ply.
  induction depth as [|depth IH]; intros eng board alpha beta ply Hf;
    rewrite alphaBeta_unfold, (outOfTime_eta eng);
    (destruct (outOfTime eng).1;
     [rewrite (evaluate_eta board); by do 2 eexists|]).
  - destruct (quiescence_total fuel board alpha beta Hf) as [v ->].
    simpl. by do 2 eexists.
  - cbv zeta. case_decide.
    { case_decide; by do 2 eexists. }
    destruct (ttLookup _ _ _ _) as [?|[a b]]; [by do 2 eexists|].
    edestruct (alphaBetaLoop_total
      (fun board eng alpha beta =>
         alphaBeta fuel eng board depth alpha beta (ply + 1))
      (Z.of_nat (S depth)) b ply
      (orderMoves (outOfTime eng).2 (legalmoves board) board ply)
      board (outOfTime eng).2 a (- INF) true) as (v & e1 & ->).
    { intros m. by rewrite orderMoves_elem. }
    { intros m e a' b' Hm. apply IH.
      pose proof (move_no_growth board m Hm). lia. }
    simpl. by do 2 eexists.
Qed.

(** The root loop ends on the board it received, with the best move it
    was given or one of the moves of the list. *)
Lemma rootLoop_total fuel depth moves board eng alpha beta best first
    bestMove :
  (pieceCount board < fuel)%nat ->
  moves ⊆ legalmoves board ->
  exists bm e',
    rootLoop fuel depth moves board eng alpha beta best first bestMove
      = Some (bm, board, e')
    /\ (bm = bestMove \/ bm ∈ moves).
Proof.
  intros Hf. revert eng alpha best first bestMove.
  induction moves as [|m ms IH]; intros eng alpha best first bestMove Hsub.
  - exists bestMove, eng. by split; [|left].
  - assert (Hm : m ∈ legalmoves board) by (apply Hsub; left).
    assert (Hms : ms ⊆ legalmoves board).
    { intros x Hx. apply Hsub. by right. }
    assert (Hc : (pieceCount (makeMove board m) < fuel)%nat).
    { pose proof (move_no_growth board m Hm). lia. }
    assert (Hstep : forall score e1, exists bm e',
      (let board' := unmakeMove (makeMove board m) m in
       let '(timeout, eng) := outOfTime e1 in
       if timeout then Some (bestMove, board', eng)
       else
         let '(bestScore, bestMove) :=
           if score >? best then (score, m) else (best, bestMove) in
         let alpha := if score >? alpha then score else alpha in
         rootLoop fuel depth ms board' eng alpha beta bestScore false
           bestMove) = Some (bm, board, e')
      /\ (bm = bestMove \/ bm ∈ m :: ms)).
    { intros score e1. cbv zeta. rewrite move_roundtrip by done.
      rewrite (outOfTime_eta e1).
      destruct (outOfTime e1).1; [by exists bestMove; eexists; split; [|left]|].
      destruct (score >? best).
      - edestruct IH as (bm & e' & -> & Hbm); [done|].
        exists bm, e'. split; [done|]. right.
        destruct Hbm as [->|?]; [left|by right].
      - edestruct IH as (bm & e' & -> & Hbm); [done|].
        exists bm, e'. split; [done|].
        destruct Hbm as [->|?]; [by left|right; by right]. }
    simpl. destruct first.
    + destruct (alphaBeta_total fuel eng (makeMove board m) (depth - 1)
                  (- beta) (- alpha) 1 Hc) as (r & e1 & ->).
      simpl. apply Hstep.
    + destruct (alphaBeta_total fuel eng (makeMove board m) (depth - 1)
                  (- alpha - 1) (- alpha) 1 Hc) as (r & e1 & ->).
      simpl. destruct (- r >? alpha).
      * destruct (alphaBeta_total fuel e1 (makeMove board m) (depth - 1)
                    (- beta) (- alpha) 1 Hc) as (r2 & e2 & ->).
        simpl. apply Hstep.
      * apply Hstep.
Qed.

Lemma deepen_cons fuel depth depths moves board eng bestMove :
  deepen fuel (depth :: depths) moves board eng bestMove =
    let '(timeout, eng) := outOfTime eng in
    if timeout then Some (bestMove, eng)
    else
      let moves := orderMoves eng moves board 0 in
      '(bestMove, board, eng) ←
        rootLoop fuel depth moves board eng (- INF) INF (- INF) true
          bestMove;
      deepen fuel depths moves board eng bestMove.
Proof. reflexivity. Qed.

Lemma deepen_total fuel depths moves board eng bestMove :
  (pieceCount board < fuel)%nat ->
  moves ⊆ legalmoves board ->
  exists bm e',
    deepen fuel depths moves board eng bestMove = Some (bm, e')
    /\ (bm = bestMove \/ bm ∈ moves).
Proof.
  intros Hf. revert moves eng bestMove.
  induction depths as [|d ds IH]; intros moves eng bestMove Hsub.
  - exists bestMove, eng. by split; [|left].
  - rewrite deepen_cons, (outOfTime_eta eng).
    destruct (outOfTime eng).1; [by exists bestMove; eexists; split; [|left]|].
    cbv zeta.
    set (sorted := orderMoves (outOfTime eng).2 moves board 0).
    assert (Hsorted : forall m, m ∈ sorted <-> m ∈ moves)
      by (intros m; apply orderMoves_elem).
    destruct (rootLoop_total fuel d sorted board (outOfTime eng).2
                (- INF) INF (- INF) true bestMove Hf)
      as (bm & e1 & -> & Hbm).
    { intros m Hm. apply Hsub. by apply Hsorted. }
    simpl.
    destruct (IH sorted e1 bm) as (bm' & e' & -> & Hbm').
    { intros m Hm. apply Hsub. by apply Hsorted. }
    exists bm', e'. split; [done|].
    destruct Hbm' as [->|Hin].
    + destruct Hbm as [->|Hin]; [by left|right; by apply Hsorted].
    + right; by apply Hsorted.
Qed.

(** [Move] returns, and what it returns. *)
Lemma Move_result fuel eng fen timeLimitMs :
  (pieceCount (parseFen fen) < fuel)%nat ->
  exists s eng',
    Move fuel eng fen timeLimitMs = Some (s, eng')
    /\ (legalmoves (parseFen fen) = [] -> s = EmptyString)
    /\ (legalmoves (parseFen fen) <> [] ->
        exists m, m ∈ legalmoves (parseFen fen) /\ s = moveToUci m).
Proof.
  intros Hf. unfold Move.
  destruct (legalmoves (parseFen fen)) as [|m ms] eqn:Hmoves.
  - exists EmptyString, eng. by split.
  - cbv zeta. destruct (readClock eng) as [now e0].
    edestruct (deepen_total fuel (seq 1 MAX_DEPTH) (m :: ms) (parseFen fen))
      as (bm & e' & -> & Hbm); [done|by rewrite Hmoves|].
    simpl. exists (moveToUci bm), e'. split; [done|]. split; [done|].
    intros _. exists bm. split; [|done].
    destruct Hbm as [->|?]; [left|done].
Qed.

End SearchFacts.

(** ** The driver *)

Section DriverFacts.
Context `{lib : ChessLib}.

(** A node where the collaborator reports a decisive result. *)
Definition decided (board : Board) : Prop :=
  (isGameOver board).2 <> GameResult.NONE
  /\ (isGameOver board).2 <> GameResult.DRAW.

Lemma alphaBeta_gameOver fuel eng board depth alpha beta ply :
  (outOfTime eng).1 = false ->
  depth <> 0%nat ->
  (isGameOver board).2 <> GameResult.NONE ->
  alphaBeta fuel eng board depth alpha beta ply =
    Some (if decide ((isGameOver board).2 = GameResult.DRAW) then 0
          else - MATE_SCORE + ply, board, (outOfTime eng).2).
Proof.
  intros Ht Hd Hover. rewrite alphaBeta_unfold, (outOfTime_eta eng), Ht.
  destruct depth as [|depth]; [done|]. cbv zeta.
  rewrite decide_True by done. by case_decide.
Qed.

(** C3 (amended). While the time budget lasts and the remaining depth is
    not 0, a node where the game is over returns 0 for a draw and
    [-MATE_SCORE + ply] otherwise; so of two such lost nodes the one at
    the smaller ply is worth strictly more to its parent: a mate in 1 (lost
    node at ply 1) is seen as 99999, a mate in 3 (lost node at ply 5) as
    99995. *)
Theorem alphaBeta_mate_distance fuel eng board depth alpha beta ply :
  (outOfTime eng).1 = false ->
  depth <> 0%nat ->
  ((isGameOver board).2 = GameResult.DRAW ->
     alphaBeta fuel eng board depth alpha beta ply
     = Some (0, board, (outOfTime eng).2))
  /\ (decided board ->
        alphaBeta fuel eng board depth alpha beta ply
        = Some (- MATE_SCORE + ply, board, (outOfTime eng).2)
        /\ forall fuel2 eng2 board2 depth2 alpha2 beta2 ply2,
             (outOfTime eng2).1 = false -> depth2 <> 0%nat ->
             decided board2 -> ply < ply2 ->
             exists v v2 e e2,
               alphaBeta fuel eng board depth alpha beta ply
               = Some (v, board, e)
               /\ alphaBeta fuel2 eng2 board2 depth2 alpha2 beta2 ply2
                  = Some (v2, board2, e2)
               /\ - v2 < - v
               /\ (ply = 1 -> ply2 = 5 -> - v = 99999 /\ - v2 = 99995)).
Proof.
  intros Ht Hd. split.
  - intros Hdraw. rewrite alphaBeta_gameOver by (done || by rewrite Hdraw).
    by rewrite decide_True.
  - intros [Hover Hnd].
    assert (H1 : alphaBeta fuel eng board depth alpha beta ply
                 = Some (- MATE_SCORE + ply, board, (outOfTime eng).2)).
    { rewrite alphaBeta_gameOver by done. by rewrite decide_False. }
    split; [done|].
    intros fuel2 eng2 board2 depth2 alpha2 beta2 ply2 Ht2 Hd2 [Hover2 Hnd2] Hlt.
    exists (- MATE_SCORE + ply), (- MATE_SCORE + ply2),
      (outOfTime eng).2, (outOfTime eng2).2.
    split; [done|]. split.
    { rewrite alphaBeta_gameOver by done. by rewrite decide_False. }
    unfold MATE_SCORE. lia.
Qed.

End DriverFacts.

Section MoveFacts.
Context `{laws : ChessLaws}.

(** C1. [Move] returns the empty string exactly when the parsed position
    has no legal move; when it has one, the string returned is the UCI
    notation of a legal move of that position.  This holds for every
    position string, time budget, clock and state of the tables. *)
Theorem Move_returns_legal_move fuel eng fen timeLimitMs :
  (pieceCount (parseFen fen) < fuel)%nat ->
  exists s eng',
    Move fuel eng fen timeLimitMs = Some (s, eng')
    /\ (s = EmptyString <-> legalmoves (parseFen fen) = [])
    /\ (legalmoves (parseFen fen) <> [] ->
        exists m, m ∈ legalmoves (parseFen fen) /\ s = moveToUci m).
Proof.
  intros Hf.
  destruct (Move_result fuel eng fen timeLimitMs Hf)
    as (s & eng' & HM & Hnone & Hsome).
  exists s, eng'. split; [done|]. split; [|done]. split; [|done].
  intros ->. destruct (legalmoves (parseFen fen)) as [|m ms]; [done|].
  destruct Hsome as (bm & _ & Hbm); [done|].
  symmetry in Hbm. by apply uci_nonempty in Hbm.
Qed.

(** C2. With exactly one legal move, [Move] returns the UCI notation of
    that move, which is not the empty string, whatever the time budget
    (0 and negative budgets included). *)
Theorem Move_single_legal_move fuel eng fen timeLimitMs m :
  (pieceCount (parseFen fen) < fuel)%nat ->
  legalmoves (parseFen fen) = [m] ->
  exists eng',
    Move fuel eng fen timeLimitMs = Some (moveToUci m, eng')
    /\ moveToUci m <> EmptyString.
Proof.
  intros Hf Hone.
  destruct (Move_result fuel eng fen timeLimitMs Hf)
    as (s & eng' & HM & _ & Hsome).
  destruct Hsome as (bm & Hin & ->); [by rewrite Hone|].
  rewrite Hone in Hin. apply list_elem_of_singleton in Hin. subst bm.
  exists eng'. split; [done|]. apply uci_nonempty.
Qed.

End MoveFacts.

(** ** Move ordering *)

Section OrderingFacts.
Context `{lib : ChessLib}.

Lemma pieceValue_range p : 0 <= pieceValue p <= 900.
Proof. destruct p; simpl; lia. Qed.

(** C6 (amended). The priority of a move is 100000 + (value of the
    piece on the target square - value of the moving piece) for a capture,
    else 90000 for the first killer of the ply, else 80000 for the second,
    else the history count of (side, from, to).  A capture has priority at
    least 99100, above both killer priorities, and it is ahead of a
    non-capture exactly when that move's priority is below its own: that
    holds for every non-capture whose history count is below 99100. *)
Theorem scoreMove_priority eng board move ply :
  let side := if decide (sideToMove board = Color.WHITE) then 0 else 1 in
  scoreMove eng board move ply =
    (if isCapture board move then
       100000 + (pieceValue (board_at board (move_to move))
                 - pieceValue (board_at board (move_from move)))
     else if decide (move = (killers eng ply).1) then 90000
     else if decide (move = (killers eng ply).2) then 80000
     else history eng side (move_from move) (move_to move))
  /\ (isCapture board move = true ->
      99100 <= scoreMove eng board move ply
      /\ forall quiet,
           isCapture board quiet = false ->
           history eng side (move_from quiet) (move_to quiet) < 99100 ->
           scoreMove eng board quiet ply < scoreMove eng board move ply).
Proof.
  simpl. split; [done|]. intros Hc.
  assert (Hlo : 99100 <= scoreMove eng board move ply).
  { unfold scoreMove, captureScore. rewrite Hc.
    pose proof (pieceValue_range (board_at board (move_to move))).
    pose proof (pieceValue_range (board_at board (move_from move))). lia. }
  split; [done|]. intros quiet Hq Hh.
  unfold scoreMove at 1. rewrite Hq. repeat case_decide; lia.
Qed.

End OrderingFacts.

(** ** Static evaluation under a colour flip *)

Lemma foldl_pointwise {A B} (f g : A -> B -> A) a l :
  (forall a i, i ∈ l -> f a i = g a i) -> foldl f a l = foldl g a l.
Proof.
  revert a. induction l as [|x l IH]; intros a H; [done|]. simpl.
  rewrite (H a x) by left. apply IH. intros a' i Hi. apply H. by right.
Qed.

Lemma foldl_add f a l :
  foldl (fun acc i => acc + f i) a l = a + sumOver f l.
Proof.
  unfold sumOver. revert a. induction l as [|x l IH]; intros a; simpl; [lia|].
  rewrite IH, (IH (0 + f x)). lia.
Qed.

Lemma sumOver_cons f x l : sumOver f (x :: l) = f x + sumOver f l.
Proof. unfold sumOver; simpl. rewrite foldl_add. unfold sumOver. lia. Qed.

Lemma sumOver_app f l1 l2 :
  sumOver f (l1 ++ l2) = sumOver f l1 + sumOver f l2.
Proof.
  induction l1 as [|x l1 IH]; [done|]. simpl.
  rewrite !sumOver_cons, IH. lia.
Qed.

Lemma sumOver_reverse f l : sumOver f (reverse l) = sumOver f l.
Proof.
  induction l as [|x l IH]; [done|].
  rewrite reverse_cons, sumOver_app, !sumOver_cons, IH.
  unfold sumOver; simpl. lia.
Qed.

Lemma sumOver_map f g l : sumOver f (map g l) = sumOver (fun i => f (g i)) l.
Proof.
  induction l as [|x l IH]; [done|]. simpl. by rewrite !sumOver_cons, IH.
Qed.

Lemma sumOver_ext f g l :
  (forall i, i ∈ l -> f i = g i) -> sumOver f l = sumOver g l.
Proof.
  induction l as [|x l IH]; intros H; [done|].
  rewrite !sumOver_cons, (H x) by left. rewrite IH; [done|].
  intros i Hi. apply H. by right.
Qed.

Lemma sumOver_neg f l : sumOver (fun i => - f i) l = - sumOver f l.
Proof. induction l as [|x l IH]; [done|]. rewrite !sumOver_cons, IH. lia. Qed.

Lemma squares_mirror : map (fun i => 63 - i) squares = reverse squares.
Proof. reflexivity. Qed.

Lemma sumOver_mirror f g :
  (forall i, 0 <= i < 64 -> f i = g (63 - i)) ->
  sumOver f squares = sumOver g squares.
Proof.
  intros H. rewrite <- (sumOver_reverse g), <- squares_mirror, sumOver_map.
  apply sumOver_ext. intros i Hi. apply H.
  unfold squares in Hi. apply elem_of_seqZ in Hi. lia.
Qed.

Lemma coords i : 0 <= i < 64 ->
  0 <= Z.rem i 8 < 8 /\ 0 <= Z.quot i 8 < 8 /\ i = Z.quot i 8 * 8 + Z.rem i 8
  /\ Z.rem (63 - i) 8 = 7 - Z.rem i 8 /\ Z.quot (63 - i) 8 = 7 - Z.quot i 8.
Proof.
  intros Hi. rewrite !Z.rem_mod_nonneg, !Z.quot_div_nonneg by lia.
  Z.div_mod_to_equations. 
  lia.
Qed.

Section ColorFlip.
Context `{laws : ChessLaws}.

Lemma swapColor_eq p q : swapColor p = q <-> p = swapColor q.
Proof. destruct p, q; simpl; split; congruence. Qed.

Lemma swapColor_involutive p : swapColor (swapColor p) = p.
Proof. by destruct p. Qed.

Lemma mirrored_sym b b' : mirrored b b' -> mirrored b' b.
Proof.
  intros H i Hi. rewrite H by lia. rewrite swapColor_involutive.
  f_equal. lia.
Qed.

(** Material *)

Lemma evaluateMaterial_sum bd :
  evaluateMaterial bd = sumOver (materialAt bd) squares.
Proof.
  unfold evaluateMaterial.
  rewrite (foldl_pointwise _ (fun s i => s + materialAt bd i)).
  - rewrite foldl_add. lia.
  - intros s i _. unfold materialAt. cbv zeta. repeat case_decide; lia.
Qed.

Lemma evaluateMaterial_flip b b' :
  mirrored b b' -> evaluateMaterial b' = - evaluateMaterial b.
Proof.
  intros Hflip.
  rewrite !evaluateMaterial_sum, <- sumOver_neg.
  apply sumOver_mirror. intros i Hi. unfold materialAt.
  rewrite Hflip by done. by destruct (board_at b (63 - i)).
Qed.

(** Piece-square tables and the bishop pair *)

Lemma foldl_add3 (f g h : Z -> Z) s w k l :
  foldl (fun '(s, w, k) i => (s + f i, w + g i, k + h i)) (s, w, k) l
  = (s + sumOver f l, w + sumOver g l, k + sumOver h l).
Proof.
  revert s w k. induction l as [|x l IH]; intros s w k; simpl.
  - unfold sumOver; simpl. rewrite !pair_equal_spec; lia.
  - rewrite IH, !sumOver_cons, !pair_equal_spec. lia.
Qed.

Lemma evaluatePieceSquare_sum bd :
  evaluatePieceSquare bd =
    let score := sumOver (pstAt bd) squares in
    let score :=
      if sumOver (bishopAt true bd) squares >=? 2 then score + 30 else score in
    if sumOver (bishopAt false bd) squares >=? 2 then score - 30 else score.
Proof.
  unfold evaluatePieceSquare.
  rewrite (foldl_pointwise _
    (fun '(s, w, k) i =>
       (s + pstAt bd i, w + bishopAt true bd i, k + bishopAt false bd i))).
  - rewrite foldl_add3. done.
  - intros [[s w] k] i _. unfold pstAt, bishopAt. cbv zeta.
    destruct (board_at bd i); simpl; rewrite !pair_equal_spec; lia.
Qed.

Lemma pstAt_flip b b' i :
  mirrored b b' -> 0 <= i < 64 -> pstAt b' i = - pstAt b (63 - i).
Proof.
  intros Hflip Hi. unfold pstAt. rewrite Hflip by done. cbv zeta.
  destruct (board_at b (63 - i)); simpl;
    rewrite ?Z.opp_involutive; try done;
    by replace (63 - (63 - i)) with i by lia.
Qed.

Lemma bishopAt_flip b b' w i :
  mirrored b b' ->
  0 <= i < 64 -> bishopAt w b' i = bishopAt (negb w) b (63 - i).
Proof.
  intros Hflip Hi. unfold bishopAt. rewrite Hflip by done.
  by destruct (board_at b (63 - i)), w.
Qed.

Lemma evaluatePieceSquare_flip b b' :
  mirrored b b' -> evaluatePieceSquare b' = - evaluatePieceSquare b.
Proof.
  intros Hflip.
  rewrite !evaluatePieceSquare_sum. cbv zeta.
  rewrite (sumOver_mirror (pstAt b') (fun i => - pstAt b i))
    by (intros; by apply pstAt_flip).
  rewrite (sumOver_mirror (bishopAt true b') (bishopAt false b))
    by (intros; by apply bishopAt_flip).
  rewrite (sumOver_mirror (bishopAt false b') (bishopAt true b))
    by (intros; by apply bishopAt_flip).
  rewrite sumOver_neg.
  destruct (sumOver (bishopAt false b) squares >=? 2),
    (sumOver (bishopAt true b) squares >=? 2); lia.
Qed.

(** King safety *)

Lemma evaluateKingSafety_sum bd :
  evaluateKingSafety bd = sumOver (kingAt bd) squares.
Proof.
  unfold evaluateKingSafety.
  rewrite (foldl_pointwise _ (fun s i => s + kingAt bd i)).
  { rewrite foldl_add. lia. }
  intros s i _. cbv zeta. unfold kingAt, whiteShield, blackShield.
  set (t1 := sumOver _ _). set (t2 := sumOver _ _).
  assert (H1 : forall s0,
    foldl (fun score df =>
      if (0 <=? Z.rem i 8 + df) && (Z.rem i 8 + df <? 8)
         && (Z.quot i 8 + 1 <? 8)
      then if decide (board_at bd ((Z.quot i 8 + 1) * 8 + (Z.rem i 8 + df))
                      = Piece.WHITEPAWN)
           then score + 15 else score
      else score) s0 [-1; 0; 1] = s0 + t1).
  { intros s0. subst t1. rewrite <- foldl_add. apply foldl_pointwise.
    intros a df _. unfold shieldTerm.
    destruct (_ && _); [|lia]. case_decide; lia. }
  assert (H2 : forall s0,
    foldl (fun score df =>
      if (0 <=? Z.rem i 8 + df) && (Z.rem i 8 + df <? 8)
         && (0 <=? Z.quot i 8 - 1)
      then if decide (board_at bd ((Z.quot i 8 - 1) * 8 + (Z.rem i 8 + df))
                      = Piece.BLACKPAWN)
           then score - 15 else score
      else score) s0 [-1; 0; 1] = s0 - t2).
  { intros s0. subst t2.
    rewrite <- (Z.add_opp_r s0), <- sumOver_neg, <- foldl_add.
    apply foldl_pointwise.
    intros a df _. unfold shieldTerm.
    destruct (_ && _); [|lia]. case_decide; lia. }
  rewrite H1, H2. repeat case_decide; lia.
Qed.

Lemma whiteShield_flip b b' i :
  mirrored b b' -> 0 <= i < 64 -> whiteShield b' i = blackShield b (63 - i).
Proof.
  intros Hflip Hi. unfold whiteShield, blackShield.
  destruct (coords i Hi) as (Hf & Hr & _ & -> & ->).
  rewrite !sumOver_cons. cbv zeta.
  assert (T : forall df dg, dg = - df -> -1 <= df <= 1 ->
    shieldTerm b' Piece.WHITEPAWN
      ((0 <=? Z.rem i 8 + df) && (Z.rem i 8 + df <? 8)
       && (Z.quot i 8 + 1 <? 8))
      ((Z.quot i 8 + 1) * 8 + (Z.rem i 8 + df))
    = shieldTerm b Piece.BLACKPAWN
      ((0 <=? 7 - Z.rem i 8 + dg) && (7 - Z.rem i 8 + dg <? 8)
       && (0 <=? 7 - Z.quot i 8 - 1))
      ((7 - Z.quot i 8 - 1) * 8 + (7 - Z.rem i 8 + dg))).
  { intros df dg -> Hdf. unfold shieldTerm.
    destruct ((0 <=? Z.rem i 8 + df) && (Z.rem i 8 + df <? 8)
              && (Z.quot i 8 + 1 <? 8)) eqn:E1;
    destruct ((0 <=? 7 - Z.rem i 8 + - df) && (7 - Z.rem i 8 + - df <? 8)
              && (0 <=? 7 - Z.quot i 8 - 1)) eqn:E2; try lia.
    assert (Hsq : 0 <= (Z.quot i 8 + 1) * 8 + (Z.rem i 8 + df) < 64) by lia.
    rewrite (Hflip _ Hsq).
    replace (63 - ((Z.quot i 8 + 1) * 8 + (Z.rem i 8 + df)))
      with ((7 - Z.quot i 8 - 1) * 8 + (7 - Z.rem i 8 + - df)) by lia.
    apply decide_ext. apply swapColor_eq. }
  rewrite (T (-1) 1), (T 0 0), (T 1 (-1)) by lia.
  change (sumOver _ []) with 0. change (sumOver _ []) with 0. lia.
Qed.

Lemma kingAt_flip b b' i :
  mirrored b b' -> 0 <= i < 64 -> kingAt b' i = - kingAt b (63 - i).
Proof.
  intros Hflip Hi. unfold kingAt.
  rewrite (whiteShield_flip b b') by done.
  pose proof (whiteShield_flip b' b (63 - i) (mirrored_sym _ _ Hflip)) as Hb.
  replace (63 - (63 - i)) with i in Hb by lia. rewrite <- Hb by lia.
  rewrite !Hflip by done.
  rewrite (decide_ext _ (board_at b (63 - i) = Piece.BLACKKING))
    by apply swapColor_eq.
  rewrite (decide_ext (swapColor _ = Piece.BLACKKING)
             (board_at b (63 - i) = Piece.WHITEKING))
    by apply swapColor_eq.
  lia.
Qed.

Lemma evaluateKingSafety_flip b b' :
  mirrored b b' -> evaluateKingSafety b' = - evaluateKingSafety b.
Proof.
  intros Hflip.
  rewrite !evaluateKingSafety_sum, <- sumOver_neg.
  apply sumOver_mirror. intros i Hi. by apply kingAt_flip.
Qed.

(** Pawn structure *)
Lemma forallb_seqZ (P : Z -> bool) m n :
  forallb P (seqZ m n) = true <-> forall x, m <= x < m + n -> P x = true.
Proof.
  rewrite forallb_forall. split; intros H x Hx; apply H.
  - apply list_elem_of_In, elem_of_seqZ. lia.
  - apply list_elem_of_In, elem_of_seqZ in Hx. lia.
Qed.

Lemma forallb_reverse {A} (P : A -> bool) l :
  forallb P (reverse l) = forallb P l.
Proof.
  apply eq_iff_eq_true. rewrite !forallb_forall.
  split; intros H x Hx; apply H; apply list_elem_of_In;
    apply list_elem_of_In in Hx; by apply elem_of_reverse.
Qed.

Lemma noPawnOn_true bd pawn r file :
  noPawnOn bd pawn r file = true <->
  forall f, file - 1 <= f <= file + 1 -> 0 <= f < 8 ->
            board_at bd (r * 8 + f) <> pawn.
Proof.
  unfold noPawnOn. rewrite forallb_seqZ. split.
  - intros H f Hf Hr Hp. specialize (H f).
    rewrite bool_decide_eq_true_2 in H by done.
    assert ((0 <=? f) && (f <? 8) = true) as E by lia.
    rewrite E in H. simpl in H. discriminate H. lia.
  - intros H f Hf.
    destruct ((0 <=? f) && (f <? 8)) eqn:E; [|done].
    rewrite bool_decide_eq_false_2; [done|]. apply H; lia.
Qed.

Lemma whitePassed_true bd file rank :
  whitePassed bd file rank = true <->
  forall r f, rank + 1 <= r < 8 -> file - 1 <= f <= file + 1 -> 0 <= f < 8 ->
              board_at bd (r * 8 + f) <> Piece.BLACKPAWN.
Proof.
  unfold whitePassed. rewrite forallb_seqZ. split.
  - intros H r f Hr. apply noPawnOn_true, H. lia.
  - intros H r Hr. apply noPawnOn_true. intros f. apply H. lia.
Qed.

Lemma blackPassed_true bd file rank :
  blackPassed bd file rank = true <->
  forall r f, 0 <= r < rank -> file - 1 <= f <= file + 1 -> 0 <= f < 8 ->
              board_at bd (r * 8 + f) <> Piece.WHITEPAWN.
Proof.
  unfold blackPassed. rewrite forallb_reverse, forallb_seqZ. split.
  - intros H r f Hr. apply noPawnOn_true, H. lia.
  - intros H r Hr. apply noPawnOn_true. intros f. apply H. lia.
Qed.

Lemma whitePassed_flip b b' file rank :
  mirrored b b' -> 0 <= file < 8 -> 0 <= rank < 8 ->
  whitePassed b' file rank = blackPassed b (7 - file) (7 - rank).
Proof.
  intros Hflip Hf Hr. apply eq_iff_eq_true.
  rewrite whitePassed_true, blackPassed_true.
  split; intros H r f Hr' Hf1 Hf2 Hp.
  - apply (H (7 - r) (7 - f)); [lia..|].
    rewrite Hflip by lia.
    replace (63 - ((7 - r) * 8 + (7 - f))) with (r * 8 + f) by lia.
    by rewrite Hp.
  - apply (H (7 - r) (7 - f)); [lia..|].
    rewrite Hflip in Hp by lia.
    replace (63 - (r * 8 + f)) with ((7 - r) * 8 + (7 - f)) in Hp by lia.
    by apply swapColor_eq in Hp.
Qed.

Lemma foldl_add2 (f g : Z -> Z) w k l :
  foldl (fun '(w, k) i => (w + f i, k + g i)) (w, k) l
  = (w + sumOver f l, k + sumOver g l).
Proof.
  revert w k. induction l as [|x l IH]; intros w k; simpl.
  - unfold sumOver; simpl. rewrite pair_equal_spec; lia.
  - rewrite IH, !sumOver_cons, pair_equal_spec. lia.
Qed.

Lemma evaluatePawnStructure_sum bd :
  evaluatePawnStructure bd =
    sumOver (doubledAt bd) (seqZ 0 8) + sumOver (passedAt bd) squares.
Proof.
  unfold evaluatePawnStructure. cbv zeta.
  rewrite (foldl_pointwise _ (fun s i => s + passedAt bd i)).
  2:{ intros s i _. unfold passedAt. repeat case_decide;
        repeat case_match; lia. }
  rewrite foldl_add. f_equal.
  rewrite (foldl_pointwise _ (fun s file => s + doubledAt bd file)).
  { rewrite foldl_add. lia. }
  intros s file _.
  rewrite (foldl_pointwise _
    (fun '(w, k) rank =>
       (w + pawnOn bd Piece.WHITEPAWN file rank,
        k + pawnOn bd Piece.BLACKPAWN file rank))).
  2:{ intros [w k] rank _. unfold pawnOn. rewrite pair_equal_spec.
      repeat case_decide; lia. }
  rewrite foldl_add2. unfold doubledAt. cbv zeta. rewrite !Z.add_0_l.
  repeat case_match; lia.
Qed.

Lemma files_mirror : map (fun i => 7 - i) (seqZ 0 8) = reverse (seqZ 0 8).
Proof. reflexivity. Qed.

Lemma sumOver_mirror8 f g :
  (forall i, 0 <= i < 8 -> f i = g (7 - i)) ->
  sumOver f (seqZ 0 8) = sumOver g (seqZ 0 8).
Proof.
  intros H. rewrite <- (sumOver_reverse g), <- files_mirror, sumOver_map.
  apply sumOver_ext. intros i Hi. apply H.
  apply elem_of_seqZ in Hi. lia.
Qed.

Lemma pawnOn_flip b b' pawn file rank :
  mirrored b b' -> 0 <= file < 8 -> 0 <= rank < 8 ->
  pawnOn b' pawn file rank = pawnOn b (swapColor pawn) (7 - file) (7 - rank).
Proof.
  intros Hflip Hf Hr. unfold pawnOn. rewrite Hflip by lia.
  replace (63 - (rank * 8 + file)) with ((7 - rank) * 8 + (7 - file)) by lia.
  apply decide_ext, swapColor_eq.
Qed.

Lemma doubledAt_flip b b' file :
  mirrored b b' -> 0 <= file < 8 ->
  doubledAt b' file = - doubledAt b (7 - file).
Proof.
  intros Hflip Hf. unfold doubledAt. cbv zeta.
  rewrite (sumOver_mirror8 (pawnOn b' Piece.WHITEPAWN file)
             (pawnOn b Piece.BLACKPAWN (7 - file)))
    by (intros; by apply (pawnOn_flip b b' Piece.WHITEPAWN)).
  rewrite (sumOver_mirror8 (pawnOn b' Piece.BLACKPAWN file)
             (pawnOn b Piece.WHITEPAWN (7 - file)))
    by (intros; by apply (pawnOn_flip b b' Piece.BLACKPAWN)).
  repeat case_match; lia.
Qed.

Lemma passedAt_flip b b' i :
  mirrored b b' -> 0 <= i < 64 -> passedAt b' i = - passedAt b (63 - i).
Proof.
  intros Hflip Hi. unfold passedAt.
  destruct (coords i Hi) as (Hf & Hr & _ & -> & ->).
  rewrite (whitePassed_flip b b') by done.
  pose proof (whitePassed_flip b' b (7 - Z.rem i 8) (7 - Z.quot i 8)
                (mirrored_sym _ _ Hflip)) as Hb.
  replace (7 - (7 - Z.rem i 8)) with (Z.rem i 8) in Hb by lia.
  replace (7 - (7 - Z.quot i 8)) with (Z.quot i 8) in Hb by lia.
  rewrite <- Hb by lia.
  rewrite !Hflip by done.
  rewrite (decide_ext _ (board_at b (63 - i) = Piece.BLACKPAWN))
    by apply swapColor_eq.
  rewrite (decide_ext (swapColor _ = Piece.BLACKPAWN)
             (board_at b (63 - i) = Piece.WHITEPAWN))
    by apply swapColor_eq.
  replace (7 - (7 - Z.quot i 8)) with (Z.quot i 8) by lia.
  lia.
Qed.

Lemma evaluatePawnStructure_flip b b' :
  mirrored b b' -> evaluatePawnStructure b' = - evaluatePawnStructure b.
Proof.
  intros Hflip. rewrite !evaluatePawnStructure_sum.
  rewrite (sumOver_mirror8 (doubledAt b') (fun f => - doubledAt b f))
    by (intros; by apply doubledAt_flip).
  rewrite (sumOver_mirror (passedAt b') (fun i => - passedAt b i))
    by (intros; by apply passedAt_flip).
  rewrite !sumOver_neg. lia.
Qed.

(** Development and centre *)
Lemma mirrored_at b b' i j :
  mirrored b b' -> i + j = 63 -> 0 <= i < 64 ->
  board_at b' i = swapColor (board_at b j).
Proof. intros H Hij Hi. rewrite H by done. do 2 f_equal. lia. Qed.

Lemma if_swapColor {A} p q (x y : A) :
  (if decide (swapColor p = q) then x else y)
  = (if decide (p = swapColor q) then x else y).
Proof. apply decide_ext, swapColor_eq. Qed.

Lemma evaluateDevelopment_flip b b' :
  mirrored b b' -> evaluateDevelopment b' = - evaluateDevelopment b.
Proof.
  intros Hflip. unfold evaluateDevelopment. cbv zeta beta.
  unfold SQ_B1, SQ_G1, SQ_C1, SQ_F1, SQ_B8, SQ_G8, SQ_C8, SQ_F8.
  rewrite (mirrored_at b b' 1 62), (mirrored_at b b' 6 57),
    (mirrored_at b b' 57 6), (mirrored_at b b' 62 1),
    (mirrored_at b b' 2 61), (mirrored_at b b' 5 58),
    (mirrored_at b b' 58 5), (mirrored_at b b' 61 2) by (done || lia).
  rewrite !if_swapColor. simpl swapColor.
  repeat case_decide; lia.
Qed.

Lemma evaluateCenterControl_flip b b' :
  mirrored b b' -> evaluateCenterControl b' = - evaluateCenterControl b.
Proof.
  intros Hflip. unfold evaluateCenterControl, centerSquares. simpl foldl.
  cbv zeta.
  rewrite (mirrored_at b b' 27 36), (mirrored_at b b' 28 35),
    (mirrored_at b b' 35 28), (mirrored_at b b' 36 27) by (done || lia).
  rewrite !if_swapColor. simpl swapColor.
  repeat case_decide; lia.
Qed.

(** The whole evaluation *)

Lemma evaluate_value b :
  (evaluate b).1 =
    let score :=
      0 + evaluateMaterial b + evaluatePawnStructure b
      + (evaluateMobility b).1 + evaluateKingSafety b
      + evaluatePieceSquare b + evaluateDevelopment b
      + evaluateCenterControl b in
    if decide (sideToMove b = Color.WHITE) then score else - score.
Proof.
  unfold evaluate. pose proof (evaluateMobility_board b) as Hb.
  destruct (evaluateMobility b) as [mob b1]. simpl in Hb. by subst b1.
Qed.

Lemma evaluateMobility_flip b b' :
  colorFlip b b' -> (evaluateMobility b').1 = - (evaluateMobility b).1.
Proof.
  intros (_ & Hstm & Hmob). unfold evaluateMobility. simpl.
  rewrite !null_passes_turn, Hstm.
  destruct (sideToMove b) eqn:E; simpl.
  - destruct Hmob as [-> ->]; [done|]. lia.
  - lia.
  - lia.
Qed.

Lemma mirrored_check b b' :
  forallb (fun i =>
    bool_decide (board_at b' i = swapColor (board_at b (63 - i)))) squares
  = true ->
  mirrored b b'.
Proof.
  unfold squares. rewrite forallb_seqZ. intros H i Hi.
  specialize (H i). rewrite bool_decide_eq_true in H. apply H. lia.
Qed.

(** C7. [evaluate] is antisymmetric under the colour flip of a position:
  for the position mirrored square by square ([i] to [63 - i], the
  convention of the piece-square tables) with the colours of the pieces
  swapped, the score returned is the opposite of the score of the
  original position. *)
Theorem evaluate_color_flip b b' :
  colorFlip b b' -> (evaluate b').1 = - (evaluate b).1.
Proof.
  intros Hcf. pose proof Hcf as (Hflip & Hstm & _).
  rewrite !evaluate_value. cbv zeta.
  rewrite (evaluateMaterial_flip b b'), (evaluatePawnStructure_flip b b'),
    (evaluateMobility_flip b b'), (evaluateKingSafety_flip b b'),
    (evaluatePieceSquare_flip b b'), (evaluateDevelopment_flip b b'),
    (evaluateCenterControl_flip b b'), Hstm by done.
  case_decide; lia.
Qed.

End ColorFlip.

(** ** The scripted collaborator is lawful *)

Lemma Script_findReply_height m rs capture p :
  Script.findReply m rs = Some (capture, p) ->
  (Script.height p
   <= foldr Nat.max 0 (map (fun r => Script.height r.2) rs))%nat.
Proof.
  induction rs as [|[[m' c'] p'] rs IH]; [done|]. simpl.
  destruct (decide (m = m')) as [_|_].
  - intros [= <- <-]. lia.
  - intros H. apply IH in H. lia.
Qed.

Lemma Script_findReply_child m p capture q :
  Script.findReply m (Script.replies p) = Some (capture, q) ->
  (Script.height q < Script.height p)%nat.
Proof.
  destruct p as [pl s r k rs an]. simpl. intros H.
  apply Script_findReply_height in H. lia.
Qed.

Lemma Script_make_height b m :
  (Script.height (Script.cur (Script.make b m))
   <= Script.height (Script.cur b))%nat.
Proof.
  unfold Script.make.
  destruct (Script.findReply m (Script.replies (Script.cur b)))
    as [[c q]|] eqn:E; simpl; [|lia].
  apply Script_findReply_child in E. lia.
Qed.

Lemma Script_squareName_nonempty i : Script.squareName i <> EmptyString.
Proof. done. Qed.

#[global] Program Instance Script_laws (book : string -> Script.pos)
  : ChessLaws (Script.lib book) :=
  {| pieceCount := fun b => Script.height (Script.cur b) |}.
Next Obligation.
  intros book [c t n]. unfold unmakeNullMove, makeNullMove; simpl.
  unfold Script.passTurn; simpl. by rewrite negb_involutive.
Qed.
Next Obligation.
  intros book [c t n]. unfold sideToMove, makeNullMove; simpl.
  destruct n; simpl; [|done]. by destruct (Script.stm c).
Qed.
Next Obligation.
  intros book [c t n] m _. unfold unmakeMove, makeMove; simpl.
  unfold Script.make, Script.unmake; simpl.
  by destruct (Script.findReply m (Script.replies c)) as [[? ?]|].
Qed.
Next Obligation.
  intros book b m _. unfold isCapture, makeMove; simpl.
  destruct (Script.nulled b); [done|].
  unfold Script.make.
  destruct (Script.findReply m (Script.replies (Script.cur b)))
    as [[c q]|] eqn:E; [|done].
  intros _. simpl. by apply Script_findReply_child in E.
Qed.
Next Obligation.
  intros book b m _. apply Script_make_height.
Qed.
Next Obligation.
  intros book m. unfold moveToUci; simpl. unfold Script.uci. done.
Qed.

(** * The engine on scripted positions *)

Section Scenarios.
Import Scenario.

#[local] Existing Instance Scenario.chess.

#[local] Instance Scenario_laws : ChessLaws Scenario.chess :=
  Script_laws Scenario.book.

Example Move_plays_the_mate :
  fst <$> Move 4 fresh mateInOneFen 1000 = Some "h5e8"%string.
Proof. vm_compute. reflexivity. Qed.

Example Move_without_legal_move :
  Move 4 fresh matedFen 1000 = Some (EmptyString, fresh).
Proof. vm_compute. reflexivity. Qed.

(** A mate in 1 searched at depth 2, a mate in 3 searched at depth 6, and
    the same mate in 3 at depth 5, where the mated node is at depth 0 and
    gets its static evaluation. *)
Example search_mate_distance :
  (fun r => r.1.1) <$> alphaBeta 6 searching (start mateInOne) 2 (- INF) INF 0
    = Some 99999
  /\ (fun r => r.1.1)
       <$> alphaBeta 6 searching (start mateInThree) 6 (- INF) INF 0
     = Some 99995
  /\ (fun r => r.1.1)
       <$> alphaBeta 6 searching (start mateInThree) 5 (- INF) INF 0
     = Some 895.
Proof. repeat split; vm_compute; reflexivity. Qed.

Lemma Move_returns_legal_move_witness :
  (pieceCount (parseFen mateInOneFen) < 4)%nat
  /\ exists s eng',
       Move 4 fresh mateInOneFen 1000 = Some (s, eng')
       /\ (s = EmptyString <-> legalmoves (parseFen mateInOneFen) = [])
       /\ (legalmoves (parseFen mateInOneFen) <> [] ->
           exists m, m ∈ legalmoves (parseFen mateInOneFen)
                     /\ s = moveToUci m).
Proof.
  assert (H : (pieceCount (parseFen mateInOneFen) < 4)%nat)
    by (vm_compute; lia).
  split; [exact H|].
  exact (Move_returns_legal_move 4 fresh mateInOneFen 1000 H).
Defined.

Lemma Move_single_legal_move_witness :
  (pieceCount (parseFen onlyMoveFen) < 4)%nat
  /\ legalmoves (parseFen onlyMoveFen) = [Script.Mv 7 6]
  /\ exists eng',
       Move 4 fresh onlyMoveFen 0 = Some ("h1g1"%string, eng')
       /\ "h1g1"%string <> EmptyString.
Proof.
  assert (H : (pieceCount (parseFen onlyMoveFen) < 4)%nat)
    by (vm_compute; lia).
  assert (Hone : legalmoves (parseFen onlyMoveFen) = [Script.Mv 7 6])
    by reflexivity.
  split; [exact H|]. split; [exact Hone|].
  exact (Move_single_legal_move 4 fresh onlyMoveFen 0 (Script.Mv 7 6) H Hone).
Defined.

Lemma alphaBeta_mate_distance_witness :
  (outOfTime searching).1 = false
  /\ 1%nat <> 0%nat
  /\ decided (start matedPos)
  /\ alphaBeta 4 searching (start matedPos) 1 (- INF) INF 1
     = Some (-99999, start matedPos, (outOfTime searching).2).
Proof.
  assert (Ht : (outOfTime searching).1 = false) by reflexivity.
  assert (Hd : 1%nat <> 0%nat) by discriminate.
  assert (Hdec : decided (start matedPos)) by (split; discriminate).
  split; [exact Ht|]. split; [exact Hd|]. split; [exact Hdec|].
  exact (proj1 (proj2 (alphaBeta_mate_distance 4 searching (start matedPos)
                         1 (- INF) INF 1 Ht Hd) Hdec)).
Defined.

(** C3, as stated, fails at depth 0: the mated position is handed to
    [quiescence] before the game-over test and gets its static evaluation,
    -895, not -MATE_SCORE + 1. *)
Lemma alphaBeta_mate_at_horizon :
  decided (start matedPos)
  /\ (outOfTime searching).1 = false
  /\ alphaBeta 4 searching (start matedPos) 0 (- INF) INF 1
     = Some (-895, start matedPos, (outOfTime searching).2)
  /\ -895 <> - MATE_SCORE + 1.
Proof.
  split; [split; discriminate|]. split; [reflexivity|].
  split; [vm_compute; reflexivity|discriminate].
Qed.

Lemma afterKf6_quiet m :
  m ∈ legalmoves (start afterKf6) -> isCapture (start afterKf6) m = false.
Proof.
  change (legalmoves (start afterKf6)) with [Script.Mv 62 61].
  intros ->%list_elem_of_singleton. reflexivity.
Qed.

Lemma quiescence_stand_pat_witness :
  (forall m, m ∈ legalmoves (start afterKf6) ->
             isCapture (start afterKf6) m = false)
  /\ (-1000 <= (evaluate (start afterKf6)).1 < 1000)
  /\ quiescence 2 (start afterKf6) (-1000) 1000
     = Some ((evaluate (start afterKf6)).1, start afterKf6).
Proof.
  assert (Hwin : -1000 <= (evaluate (start afterKf6)).1 < 1000).
  { replace (evaluate (start afterKf6)).1 with (-895)
      by (vm_compute; reflexivity). lia. }
  split; [exact afterKf6_quiet|]. split; [exact Hwin|].
  exact (proj2 (quiescence_stand_pat 1 (start afterKf6) (-1000) 1000
                  afterKf6_quiet) (or_introl Hwin)).
Defined.

(** C5, as stated, fails on a window that does not contain the static
    evaluation: no capture is legal, the evaluation is -895, and on the
    window (-10, 10) [quiescence] returns -10. *)
Lemma quiescence_clamps_outside_window :
  (forall m, m ∈ legalmoves (start afterKf6) ->
             isCapture (start afterKf6) m = false)
  /\ (evaluate (start afterKf6)).1 = -895
  /\ quiescence 2 (start afterKf6) (-10) 10 = Some (-10, start afterKf6)
  /\ quiescence 2 (start afterKf6) (-10) 10
     <> Some ((evaluate (start afterKf6)).1, start afterKf6).
Proof.
  split; [exact afterKf6_quiet|]. split; [vm_compute; reflexivity|].
  split; [vm_compute; reflexivity|]. vm_compute. discriminate.
Qed.

Lemma quiescence_fail_hard_witness :
  -50 <= 50
  /\ exists v,
       quiescence (S (pieceCount (start afterKf6))) (start afterKf6) (-50) 50
       = Some (v, start afterKf6)
       /\ -50 <= v <= 50.
Proof.
  assert (H : -50 <= 50) by lia.
  split; [exact H|].
  exact (proj1 (quiescence_fail_hard (start afterKf6) (-50) 50 H)).
Defined.

Lemma evaluate_board_witness :
  (evaluate (start pawnUp)).2 = start pawnUp
  /\ sideToMove (evaluate (start pawnUp)).2 = sideToMove (start pawnUp)
  /\ board_hash (evaluate (start pawnUp)).2 = board_hash (start pawnUp).
Proof. exact (evaluate_board (start pawnUp)). Defined.

Lemma pawnUp_colorFlip : colorFlip (start pawnUp) (start pawnUpFlipped).
Proof.
  split; [|split].
  - apply mirrored_check. vm_compute. reflexivity.
  - reflexivity.
  - intros _. split; reflexivity.
Qed.

Lemma evaluate_color_flip_witness :
  colorFlip (start pawnUp) (start pawnUpFlipped)
  /\ (evaluate (start pawnUpFlipped)).1 = - (evaluate (start pawnUp)).1.
Proof.
  split; [exact pawnUp_colorFlip|].
  exact (evaluate_color_flip (start pawnUp) (start pawnUpFlipped)
           pawnUp_colorFlip).
Defined.

Lemma castling_mirrored : mirrored (start castling) (start castlingFlipped).
Proof. apply mirrored_check. vm_compute. reflexivity. Qed.

(** C7, as stated, fails where the mirror does not keep the number of legal
    moves: with the right to castle White has 15 moves against 5 and the
    score is 520; in the mirrored position the rook side has 14 moves
    against 5 and the score is -518. *)
Lemma evaluate_flip_castling :
  mirrored (start castling) (start castlingFlipped)
  /\ sideToMove (start castlingFlipped) = sideToMove (start castling)
  /\ (evaluate (start castling)).1 = 520
  /\ (evaluate (start castlingFlipped)).1 = -518
  /\ (evaluate (start castlingFlipped)).1 <> - (evaluate (start castling)).1.
Proof.
  split; [exact castling_mirrored|]. split; [reflexivity|].
  split; [vm_compute; reflexivity|]. split; [vm_compute; reflexivity|].
  vm_compute. discriminate.
Qed.

End Scenarios.

(** * Further properties of the engine *)

(** ** Slots of the transposition table *)

Lemma tt_index_land hash : tt_index hash = hash mod 2 ^ 22.
Proof.
  unfold tt_index. replace (TT_SIZE - 1) with (Z.ones 22) by reflexivity.
  apply Z.land_ones. lia.
Qed.

(** X1. The table is indexed by the low 22 bits of the hash and keeps no
    key: two hashes that differ by a multiple of [TT_SIZE] share a slot,
    and what is stored under one of them is what [probeTT] returns for
    the other. *)
Theorem probeTT_aliasing T hash k depth score type :
  tt_depth (probeTT T hash) <= depth ->
  0 <= tt_index hash < TT_SIZE
  /\ tt_index (hash + k * TT_SIZE) = tt_index hash
  /\ probeTT (storeTT T hash depth score type) (hash + k * TT_SIZE)
     = {| tt_depth := depth; tt_score := score; tt_type := type |}.
Proof.
  intros Hle.
  assert (Hk : tt_index (hash + k * TT_SIZE) = tt_index hash).
  { rewrite !tt_index_land. change TT_SIZE with (2 ^ 22).
    apply Z_mod_plus_full. }
  split; [|split; [done|]].
  - rewrite tt_index_land. change TT_SIZE with (2 ^ 22).
    apply Z.mod_pos_bound. lia.
  - unfold probeTT at 1. rewrite Hk, storeTT_read.
    by rewrite decide_True.
Qed.

(** X2. [clearTT] resets the depth of every slot to -1 and keeps its
    score and type; after it no lookup at a depth of 0 or more uses an
    entry, and every store at such a depth goes through. *)
Theorem clearTT_invalidates T hash depth alpha beta score type :
  0 <= depth ->
  (forall i, tt_read (clearTT T) i
             = {| tt_depth := -1; tt_score := tt_score (tt_read T i);
                  tt_type := tt_type (tt_read T i) |})
  /\ ttLookup (probeTT (clearTT T) hash) depth alpha beta = inr (alpha, beta)
  /\ probeTT (storeTT (clearTT T) hash depth score type) hash
     = {| tt_depth := depth; tt_score := score; tt_type := type |}.
Proof.
  intros Hd. split; [|split].
  - intros i. by rewrite tt_read_clear.
  - unfold ttLookup, probeTT. rewrite tt_read_clear. simpl.
    destruct (Z.geb_spec (-1) depth); [lia|done].
  - unfold probeTT at 1.
    rewrite storeTT_read, decide_True; [done|].
    split; [|done]. unfold probeTT. rewrite tt_read_clear. simpl. lia.
Qed.

Lemma storeTT_depth T hash depth score type i :
  tt_depth (tt_read (storeTT T hash depth score type) i) =
    if decide (i = tt_index hash)
    then Z.max (tt_depth (tt_read T i)) depth
    else tt_depth (tt_read T i).
Proof.
  rewrite storeTT_read. unfold probeTT.
  destruct (decide (i = tt_index hash)) as [->|Hne].
  - destruct (Z.le_gt_cases (tt_depth (tt_read T (tt_index hash))) depth).
    + rewrite decide_True by done. simpl. lia.
    + rewrite decide_False by lia. lia.
  - rewrite decide_False; [done|]. by intros [_ ?].
Qed.

(** X3. The lookup of a node: a stored score is returned only from an
    entry at least as deep as the node, and then for an exact entry or
    for a bound that closes the window; otherwise the search goes on with
    a window that is inside the one received, unchanged when the entry is
    too shallow and not empty when the entry was used. *)
Theorem ttLookup_narrows (tt : TTEntry) depth alpha beta :
  match ttLookup tt depth alpha beta with
  | inl v =>
      depth <= tt_depth tt /\ v = tt_score tt
      /\ (tt_type tt = NodeType.EXACT
          \/ (tt_type tt = NodeType.LOWERBOUND
              /\ beta <= Z.max alpha (tt_score tt))
          \/ (tt_type tt = NodeType.UPPERBOUND
              /\ Z.min beta (tt_score tt) <= alpha))
  | inr (alpha', beta') =>
      alpha <= alpha' /\ beta' <= beta
      /\ ((tt_depth tt < depth /\ alpha' = alpha /\ beta' = beta)
          \/ (depth <= tt_depth tt /\ alpha' < beta'))
  end.
Proof.
  unfold ttLookup.
  destruct (Z.geb_spec (tt_depth tt) depth) as [Hd|Hd].
  - destruct (tt_type tt) eqn:Ht.
    + repeat split; [lia|]. by left.
    + destruct (Z.geb_spec (Z.max alpha (tt_score tt)) beta).
      * repeat split; [lia|]. right; left. split; [done|lia].
      * split; [lia|]. split; [lia|]. right. lia.
    + destruct (Z.geb_spec alpha (Z.min beta (tt_score tt))).
      * repeat split; [lia|]. right; right. split; [done|lia].
      * split; [lia|]. split; [lia|]. right. lia.
  - split; [lia|]. split; [lia|]. left. lia.
Qed.

(** ** What a search leaves untouched *)

Section Preserved.
Context `{lib : ChessLib}.
Variable R : Engine -> Engine -> Prop.
Variable p0 : Z.
Hypothesis R_refl : forall e, R e e.
Hypothesis R_trans : forall e1 e2 e3, R e1 e2 -> R e2 e3 -> R e1 e3.
Hypothesis R_clock : forall e, R e (outOfTime e).2.
Hypothesis R_store :
  forall e hash depth score type,
    R e (set_transTable e (storeTT (transTable e) hash depth score type)).
Hypothesis R_quiet :
  forall e board move depth ply,
    p0 <= ply -> R e (recordQuiet e board move depth ply).

Lemma alphaBetaLoop_preserved rec depth beta ply moves board eng alpha best
    first v b' eng' :
  p0 <= ply ->
  (forall b e a bt r b1 e1, rec b e a bt = Some (r, b1, e1) -> R e e1) ->
  alphaBetaLoop rec depth beta ply moves board eng alpha best first
    = Some (v, b', eng') ->
  R eng eng'.
Proof.
  intros Hply Hrec. revert board eng alpha best first.
  induction moves as [|m ms IH]; intros board eng alpha best first H;
    simpl in H.
  - inversion H; subst. apply R_refl.
  - assert (Hstep : forall score b1 e1,
      R eng e1 ->
      (let board := unmakeMove b1 m in
       let bestScore := if score >? best then score else best in
       let '(alpha, eng) :=
         if score >? alpha then
           (score,
            if negb (isCapture board m)
            then recordQuiet e1 board m depth ply else e1)
         else (alpha, e1) in
       if alpha >=? beta then Some (bestScore, board, eng)
       else alphaBetaLoop rec depth beta ply ms board eng alpha bestScore
              false) = Some (v, b', eng') ->
      R eng eng').
    { intros score b1 e1 Hle Hk. simpl in Hk.
      destruct (score >? alpha).
      - destruct (negb (isCapture (unmakeMove b1 m) m)).
        + assert (R eng (recordQuiet e1 (unmakeMove b1 m) m depth ply))
            by (eapply R_trans; [exact Hle|by apply R_quiet]).
          destruct (score >=? beta); [by inversion Hk; subst|].
          eapply R_trans; [eassumption|]. by eapply IH.
        + destruct (score >=? beta); [by inversion Hk; subst|].
          eapply R_trans; [eassumption|]. by eapply IH.
      - destruct (alpha >=? beta); [by inversion Hk; subst|].
        eapply R_trans; [eassumption|]. by eapply IH. }
    destruct first.
    + destruct (rec (makeMove board m) eng (- beta) (- alpha))
        as [[[r b1] e1]|] eqn:E1; simpl in H; [|done].
      eapply Hstep; [|exact H]. by eapply Hrec.
    + destruct (rec (makeMove board m) eng (- alpha - 1) (- alpha))
        as [[[r b1] e1]|] eqn:E1; simpl in H; [|done].
      destruct ((- r >? alpha) && (- r <? beta)).
      * destruct (rec b1 e1 (- beta) (- alpha))
          as [[[r2 b2] e2]|] eqn:E2; simpl in H; [|done].
        eapply Hstep; [|exact H].
        eapply R_trans; by eapply Hrec.
      * simpl in H. eapply Hstep; [|exact H]. by eapply Hrec.
Qed.

Lemma alphaBeta_preserved fuel eng board depth alpha beta ply v b' eng' :
  p0 <= ply ->
  alphaBeta fuel eng board depth alpha beta ply = Some (v, b', eng') ->
  R eng eng'.
Proof.
  revert eng board alpha beta ply v b' eng'.
  induction depth as [|depth IH];
    intros eng board alpha beta ply v b' eng' Hply;
    rewrite alphaBeta_unfold, (outOfTime_eta eng);
    (destruct (outOfTime eng).1;
     [destruct (evaluate board); inversion 1; subst; apply R_clock|]).
  - destruct (quiescence fuel board alpha beta) as [[? ?]|]; simpl; [|done].
    inversion 1; subst; apply R_clock.
  - cbv zeta. case_decide.
    { case_decide; inversion 1; subst; apply R_clock. }
    destruct (ttLookup _ _ _ _) as [?|[a b]].
    { inversion 1; subst; apply R_clock. }
    destruct (alphaBetaLoop _ _ _ _ _ _ _ _ _ _) as [[[bs b1] e1]|] eqn:E;
      simpl; [|done].
    inversion 1; subst.
    apply alphaBetaLoop_preserved in E; [|done|].
    2:{ intros ??????? Hr. eapply IH; [|exact Hr]. lia. }
    eapply R_trans; [apply R_clock|]. eapply R_trans; [exact E|].
    apply R_store.
Qed.

Lemma rootLoop_preserved fuel depth moves board eng alpha beta best first
    bestMove bm b' eng' :
  p0 <= 1 ->
  rootLoop fuel depth moves board eng alpha beta best first bestMove
    = Some (bm, b', eng') ->
  R eng eng'.
Proof.
  intros Hp. revert board eng alpha best first bestMove.
  induction moves as [|m ms IH]; intros board eng alpha best first bestMove H;
    simpl in H.
  - inversion H; subst. apply R_refl.
  - assert (Hstep : forall score b1 e1,
      R eng e1 ->
      (let board := unmakeMove b1 m in
       let '(timeout, eng) := outOfTime e1 in
       if timeout then Some (bestMove, board, eng)
       else
         let '(bestScore, bestMove) :=
           if score >? best then (score, m) else (best, bestMove) in
         let alpha := if score >? alpha then score else alpha in
         rootLoop fuel depth ms board eng alpha beta bestScore false
           bestMove) = Some (bm, b', eng') ->
      R eng eng').
    { intros score b1 e1 Hle Hk. cbv zeta in Hk.
      rewrite (outOfTime_eta e1) in Hk.
      assert (R eng (outOfTime e1).2)
        by (eapply R_trans; [exact Hle|apply R_clock]).
      destruct (outOfTime e1).1; [by inversion Hk; subst|].
      destruct (score >? best); (eapply R_trans; [eassumption|]);
        by eapply IH. }
    destruct first.
    + destruct (alphaBeta fuel eng (makeMove board m) (depth - 1) (- beta)
                  (- alpha) 1) as [[[r b1] e1]|] eqn:E1; simpl in H; [|done].
      eapply Hstep; [|exact H]. by eapply alphaBeta_preserved.
    + destruct (alphaBeta fuel eng (makeMove board m) (depth - 1)
                  (- alpha - 1) (- alpha) 1)
        as [[[r b1] e1]|] eqn:E1; simpl in H; [|done].
      destruct (- r >? alpha).
      * destruct (alphaBeta fuel e1 b1 (depth - 1) (- beta) (- alpha) 1)
          as [[[r2 b2] e2]|] eqn:E2; simpl in H; [|done].
        eapply Hstep; [|exact H].
        eapply R_trans; by eapply alphaBeta_preserved.
      * eapply Hstep; [|exact H]. by eapply alphaBeta_preserved.
Qed.

Lemma deepen_preserved fuel depths moves board eng bestMove bm eng' :
  p0 <= 1 ->
  deepen fuel depths moves board eng bestMove = Some (bm, eng') ->
  R eng eng'.
Proof.
  intros Hp. revert moves board eng bestMove.
  induction depths as [|d ds IH]; intros moves board eng bestMove H.
  - inversion H; subst. apply R_refl.
  - change (deepen fuel (d :: ds) moves board eng bestMove) with
      (let '(timeout, eng) := outOfTime eng in
       if timeout then Some (bestMove, eng)
       else
         let moves := orderMoves eng moves board 0 in
         '(bestMove, board, eng) ←
           rootLoop fuel d moves board eng (- INF) INF (- INF) true bestMove;
         deepen fuel ds moves board eng bestMove) in H.
    rewrite (outOfTime_eta eng) in H.
    destruct (outOfTime eng).1.
    { inversion H; subst. apply R_clock. }
    cbv zeta in H.
    destruct (rootLoop _ _ _ _ _ _ _ _ _ _) as [[[bm1 b1] e1]|] eqn:E;
      simpl in H; [|done].
    eapply R_trans; [apply R_clock|].
    eapply R_trans; [by eapply rootLoop_preserved|]. by eapply IH.
Qed.

End Preserved.

Section MoreSearchFacts.
Context `{lib : ChessLib}.

Lemma killers_recordQuiet eng board move depth ply q :
  killers (recordQuiet eng board move depth ply) q =
    if decide (q = ply) then (move, (killers eng ply).1) else killers eng q.
Proof.
  unfold recordQuiet, killers; simpl. rewrite lookup_insert.
  destruct (decide (ply = q)) as [->|Hne].
  - by rewrite decide_True.
  - rewrite decide_False; [done|]. congruence.
Qed.

Lemma ttDepth_le_trans e1 e2 e3 :
  ttDepth_le e1 e2 -> ttDepth_le e2 e3 -> ttDepth_le e1 e3.
Proof. intros H1 H2 i. specialize (H1 i). specialize (H2 i). lia. Qed.

Lemma killersBelow_trans p e1 e2 e3 :
  killersBelow p e1 e2 -> killersBelow p e2 e3 -> killersBelow p e1 e3.
Proof. intros H1 H2 q Hq. rewrite H2, H1; done. Qed.

(** X4. The depth stored in a slot never decreases during a search:
    [storeTT] leaves in the slot the larger of the old and the new depth,
    and a node of [alphaBeta] leaves every slot at least as deep as it
    found it. *)
Theorem transTable_depth_monotone :
  (forall T hash depth score type i,
     tt_depth (tt_read (storeTT T hash depth score type) i) =
       if decide (i = tt_index hash)
       then Z.max (tt_depth (tt_read T i)) depth
       else tt_depth (tt_read T i))
  /\ (forall fuel eng board depth alpha beta ply v b' eng',
        alphaBeta fuel eng board depth alpha beta ply = Some (v, b', eng') ->
        ttDepth_le eng eng').
Proof.
  split; [apply storeTT_depth|].
  intros fuel eng board depth alpha beta ply v b' eng'.
  apply (alphaBeta_preserved ttDepth_le ply).
  - intros e i. lia.
  - apply ttDepth_le_trans.
  - intros e i. unfold outOfTime; simpl. lia.
  - intros e hash d s t i. simpl. rewrite storeTT_depth. case_decide; lia.
  - intros e b m d p _ i. unfold recordQuiet; simpl. lia.
  - lia.
Qed.

Lemma killersBelow_outOfTime p e : killersBelow p e (outOfTime e).2.
Proof. intros q _. reflexivity. Qed.

(** X5. The killer update pushes the move into the first slot of its
    ply and the former first killer into the second; a node at ply [p]
    writes no slot below [p], and [Move], whose nodes start at ply 1,
    never writes the slots of ply 0 that order the root moves. *)
Theorem killerMoves_frame :
  (forall eng board move depth ply q,
     killers (recordQuiet eng board move depth ply) q =
       if decide (q = ply) then (move, (killers eng ply).1)
       else killers eng q)
  /\ (forall fuel eng board depth alpha beta ply v b' eng',
        alphaBeta fuel eng board depth alpha beta ply = Some (v, b', eng') ->
        killersBelow ply eng eng')
  /\ (forall fuel eng fen timeLimitMs s eng',
        Move fuel eng fen timeLimitMs = Some (s, eng') ->
        killersBelow 1 eng eng').
Proof.
  assert (Hab : forall p fuel eng board depth alpha beta ply v b' eng',
    p <= ply ->
    alphaBeta fuel eng board depth alpha beta ply = Some (v, b', eng') ->
    killersBelow p eng eng').
  { intros p fuel eng board depth alpha beta ply v b' eng'.
    apply (alphaBeta_preserved (killersBelow p) p).
    - intros e q _. reflexivity.
    - apply killersBelow_trans.
    - apply killersBelow_outOfTime.
    - intros e h d s t q _. reflexivity.
    - intros e b m d pl Hpl q Hq. rewrite killers_recordQuiet.
      rewrite decide_False; [done|lia]. }
  split; [apply killers_recordQuiet|]. split.
  - intros fuel eng board depth alpha beta ply v b' eng'. apply Hab. lia.
  - intros fuel eng fen timeLimitMs s eng'. unfold Move.
    destruct (legalmoves (parseFen fen)) as [|m ms].
    { inversion 1; subst. intros q _. reflexivity. }
    cbv zeta. unfold readClock.
    destruct (deepen _ _ _ _ _ _) as [[bm e1]|] eqn:E; simpl; [|done].
    inversion 1; subst.
    apply (deepen_preserved (killersBelow 1) 1) in E.
    + intros q Hq. rewrite (E q Hq). reflexivity.
    + intros e q _. reflexivity.
    + apply killersBelow_trans.
    + apply killersBelow_outOfTime.
    + intros e h d s t q _. reflexivity.
    + intros e b m' d pl Hpl q Hq. rewrite killers_recordQuiet.
      rewrite decide_False; [done|lia].
    + lia.
Qed.

End MoreSearchFacts.

(** ** The time budget *)

Section TimeFacts.
Context `{lib : ChessLib}.

Lemma outOfTime_fst eng :
  (outOfTime eng).1 =
    (Z.quot (clock eng (clockReads eng) - searchStart eng) 1000000
     >=? timeLimitMsGlobal eng).
Proof. reflexivity. Qed.

Lemma sameTables_outOfTime eng : sameTables eng (outOfTime eng).2.
Proof. unfold sameTables, outOfTime; simpl. repeat split; lia. Qed.

Lemma sameTables_refl eng : sameTables eng eng.
Proof. unfold sameTables. repeat split; lia. Qed.

Lemma sameTables_trans e1 e2 e3 :
  sameTables e1 e2 -> sameTables e2 e3 -> sameTables e1 e3.
Proof.
  unfold sameTables. intros (?&?&?&?&?&?&?) (?&?&?&?&?&?&?).
  repeat split; try congruence. lia.
Qed.

Lemma expired_outOfTime eng :
  expired eng -> (outOfTime eng).1 = true /\ expired (outOfTime eng).2.
Proof.
  intros He. split.
  - rewrite outOfTime_fst. specialize (He (clockReads eng)). lia.
  - intros k Hk. unfold outOfTime in *; simpl in *. apply He. lia.
Qed.

Lemma expired_later eng e' :
  clockMonotone eng -> (outOfTime eng).1 = true -> laterClock eng e' ->
  expired e'.
Proof.
  intros Hmono Hout (Hs & Hl & Hc & Hr) k Hk. rewrite Hs, Hl, Hc.
  rewrite outOfTime_fst in Hout.
  assert (clock eng (clockReads eng) <= clock eng k) by (apply Hmono; lia).
  assert (Z.quot (clock eng (clockReads eng) - searchStart eng) 1000000
          <= Z.quot (clock eng k - searchStart eng) 1000000)
    by (apply Z.quot_le_mono; lia).
  lia.
Qed.

Lemma laterClock_trans e1 e2 e3 :
  laterClock e1 e2 -> laterClock e2 e3 -> laterClock e1 e3.
Proof.
  unfold laterClock. intros (?&?&?&?) (?&?&?&?).
  repeat split; try congruence. lia.
Qed.

Lemma alphaBeta_laterClock fuel eng board depth alpha beta ply v b' eng' :
  alphaBeta fuel eng board depth alpha beta ply = Some (v, b', eng') ->
  laterClock eng eng'.
Proof.
  apply (alphaBeta_preserved laterClock ply).
  - intros e. unfold laterClock. repeat split; lia.
  - apply laterClock_trans.
  - intros e. unfold laterClock, outOfTime; simpl. repeat split; lia.
  - intros e h d s t. unfold laterClock; simpl. repeat split; lia.
  - intros e b m d p _. unfold laterClock, recordQuiet; simpl.
    repeat split; lia.
  - lia.
Qed.

(** X6. The time check latches: on a clock that never goes backwards,
    once [outOfTime] has answered true the budget is spent in every later
    state of the same search, so every later call answers true whatever
    was written to the tables in between; and the state a node of
    [alphaBeta] leaves is such a later state. *)
Theorem outOfTime_latches eng :
  clockMonotone eng ->
  (outOfTime eng).1 = true ->
  (forall e', laterClock eng e' -> expired e' /\ (outOfTime e').1 = true)
  /\ (forall fuel board depth alpha beta ply v b' e',
        alphaBeta fuel eng board depth alpha beta ply = Some (v, b', e') ->
        laterClock eng e').
Proof.
  intros Hmono Hout. split.
  - intros e' Hl. pose proof (expired_later eng e' Hmono Hout Hl) as He.
    split; [done|]. by apply expired_outOfTime.
  - intros fuel board depth alpha beta ply v b' e'.
    apply alphaBeta_laterClock.
Qed.

Lemma alphaBeta_expired fuel eng board depth alpha beta ply :
  expired eng ->
  alphaBeta fuel eng board depth alpha beta ply
  = Some ((evaluate board).1, (evaluate board).2, (outOfTime eng).2).
Proof.
  intros [Ht _]%expired_outOfTime.
  rewrite alphaBeta_unfold, (outOfTime_eta eng), Ht.
  by destruct (evaluate board).
Qed.

Lemma rootLoop_expired fuel depth moves board eng alpha beta best first
    bestMove :
  expired eng ->
  exists b' e',
    rootLoop fuel depth moves board eng alpha beta best first bestMove
    = Some (bestMove, b', e')
    /\ sameTables eng e'.
Proof.
  intros He. destruct moves as [|m ms].
  { exists board, eng. split; [done|apply sameTables_refl]. }
  pose proof (expired_outOfTime _ He) as [_ He1].
  pose proof (expired_outOfTime _ He1) as [Ht1 He2].
  pose proof (expired_outOfTime _ He2) as [Ht2 _].
  cbn -[outOfTime evaluate alphaBeta]. destruct first.
  - rewrite alphaBeta_expired by done. cbn -[outOfTime evaluate alphaBeta].
    rewrite (outOfTime_eta (outOfTime eng).2), Ht1.
    do 2 eexists. split; [done|].
    eapply sameTables_trans; apply sameTables_outOfTime.
  - rewrite alphaBeta_expired by done. cbn -[outOfTime evaluate alphaBeta].
    destruct (_ >? alpha).
    + rewrite alphaBeta_expired by done. cbn -[outOfTime evaluate alphaBeta].
      rewrite (outOfTime_eta (outOfTime (outOfTime eng).2).2), Ht2.
      do 2 eexists. split; [done|].
      eapply sameTables_trans; [apply sameTables_outOfTime|].
      eapply sameTables_trans; apply sameTables_outOfTime.
    + cbn -[outOfTime evaluate alphaBeta].
      rewrite (outOfTime_eta (outOfTime eng).2), Ht1.
      do 2 eexists. split; [done|].
      eapply sameTables_trans; apply sameTables_outOfTime.
Qed.

Lemma deepen_expired fuel depths moves board eng bestMove :
  expired eng ->
  exists e',
    deepen fuel depths moves board eng bestMove = Some (bestMove, e')
    /\ sameTables eng e'.
Proof.
  intros He. destruct depths as [|d ds].
  { exists eng. split; [done|apply sameTables_refl]. }
  pose proof (expired_outOfTime _ He) as [Ht _].
  rewrite deepen_cons, (outOfTime_eta eng), Ht.
  eexists. split; [done|apply sameTables_outOfTime].
Qed.

(** X7. After the budget is spent the best move is final: a node
    returns the static evaluation at once, and the root loop and the
    deepening loop end with the best move they were given, the tables
    untouched. *)
Theorem search_after_expiry eng :
  expired eng ->
  (forall fuel board depth alpha beta ply,
     alphaBeta fuel eng board depth alpha beta ply
     = Some ((evaluate board).1, (evaluate board).2, (outOfTime eng).2))
  /\ (forall fuel depth moves board alpha beta best first bestMove,
        exists b' e',
          rootLoop fuel depth moves board eng alpha beta best first bestMove
          = Some (bestMove, b', e')
          /\ sameTables eng e')
  /\ (forall fuel depths moves board bestMove,
        exists e',
          deepen fuel depths moves board eng bestMove = Some (bestMove, e')
          /\ sameTables eng e').
Proof.
  intros He. split; [|split].
  - intros. by apply alphaBeta_expired.
  - intros. by apply rootLoop_expired.
  - intros. by apply deepen_expired.
Qed.

(** X8. With a budget of 0 ms or less, on a clock that never goes
    backwards, [Move] answers the first move of the legal-move list
    without searching: the table is cleared, killers and history are as
    before. *)
Theorem Move_without_budget fuel eng fen timeLimitMs m ms :
  clockMonotone eng ->
  timeLimitMs <= 0 ->
  legalmoves (parseFen fen) = m :: ms ->
  exists eng',
    Move fuel eng fen timeLimitMs = Some (moveToUci m, eng')
    /\ transTable eng' = clearTT (transTable eng)
    /\ killerMoves eng' = killerMoves eng
    /\ historyHeuristic eng' = historyHeuristic eng.
Proof.
  intros Hmono Hlim Hmoves. unfold Move. rewrite Hmoves. cbv zeta.
  unfold readClock.
  set (e0 := set_transTable _ _).
  assert (He : expired e0).
  { intros k Hk. subst e0. simpl in *.
    assert (clock eng (clockReads eng) <= clock eng k) by (apply Hmono; lia).
    assert (0 <= Z.quot (clock eng k - clock eng (clockReads eng)) 1000000)
      by (apply Z.quot_pos; lia).
    lia. }
  destruct (deepen_expired fuel (seq 1 MAX_DEPTH) (m :: ms) (parseFen fen)
              e0 m He) as (e' & -> & Htab & Hkil & Hhis & _).
  simpl. exists e'. split; [done|]. by rewrite Htab, Hkil, Hhis.
Qed.

End TimeFacts.

(** ** Entries left by earlier searches *)

Section SameFacts.
Context `{lib : ChessLib}.

Lemma sameResult_bind {A B} (x y : option (A * Engine))
    (k1 k2 : A * Engine -> option (B * Engine)) :
  sameResult x y ->
  (forall a e1 e2, sameSearch e1 e2 -> sameResult (k1 (a, e1)) (k2 (a, e2))) ->
  sameResult (x ≫= k1) (y ≫= k2).
Proof.
  intros Hxy Hk. destruct x as [[a e]|], y as [[a' e']|]; simpl in *; try done.
  destruct Hxy as [<- He]. by apply Hk.
Qed.

Lemma sameSearch_outOfTime e1 e2 :
  sameSearch e1 e2 ->
  (outOfTime e1).1 = (outOfTime e2).1
  /\ sameSearch (outOfTime e1).2 (outOfTime e2).2.
Proof.
  intros (HT & HK & HH & HS & HL & HC & HR).
  unfold outOfTime, sameSearch; simpl. rewrite HS, HL, HC, HR.
  repeat split; done.
Qed.

Lemma sameSearch_recordQuiet e1 e2 board move depth ply :
  sameSearch e1 e2 ->
  sameSearch (recordQuiet e1 board move depth ply)
    (recordQuiet e2 board move depth ply).
Proof.
  intros (HT & HK & HH & HS & HL & HC & HR).
  unfold recordQuiet, sameSearch, killers, history; simpl.
  rewrite HK, HH. repeat split; done.
Qed.

Lemma sameSearch_orderMoves e1 e2 moves board ply :
  sameSearch e1 e2 ->
  orderMoves e1 moves board ply = orderMoves e2 moves board ply.
Proof.
  intros (HT & HK & HH & _).
  unfold orderMoves, scoreMove, killers, history. by rewrite HK, HH.
Qed.

Lemma ttAgree_lookup T1 T2 hash depth alpha beta :
  ttAgree T1 T2 -> 1 <= depth ->
  ttLookup (probeTT T1 hash) depth alpha beta
  = ttLookup (probeTT T2 hash) depth alpha beta.
Proof.
  intros H Hd. unfold probeTT.
  destruct (H (tt_index hash)) as [->|[H1 H2]]; [done|].
  unfold ttLookup.
  destruct (Z.geb_spec (tt_depth (tt_read T1 (tt_index hash))) depth);
    [lia|].
  destruct (Z.geb_spec (tt_depth (tt_read T2 (tt_index hash))) depth);
    [lia|done].
Qed.

Lemma ttAgree_store T1 T2 hash depth score type :
  ttAgree T1 T2 -> 1 <= depth ->
  ttAgree (storeTT T1 hash depth score type)
    (storeTT T2 hash depth score type).
Proof.
  intros H Hd i. rewrite !storeTT_read. unfold probeTT.
  destruct (decide (i = tt_index hash)) as [->|Hne].
  - destruct (H (tt_index hash)) as [E|[H1 H2]].
    + rewrite E. case_decide; [by left|]. left. by rewrite <- E.
    + rewrite !decide_True by (split; [lia|done]). by left.
  - rewrite !decide_False by (by intros [_ ?]). apply H.
Qed.

Lemma ttAgree_clear T1 T2 : ttAgree (clearTT T1) (clearTT T2).
Proof. intros i. right. rewrite !tt_read_clear. simpl. lia. Qed.

Lemma alphaBetaLoop_same rec1 rec2 depth beta ply moves board e1 e2 alpha
    best first :
  (forall b x1 x2 a bt, sameSearch x1 x2 ->
     sameResult (rec1 b x1 a bt) (rec2 b x2 a bt)) ->
  sameSearch e1 e2 ->
  sameResult
    (alphaBetaLoop rec1 depth beta ply moves board e1 alpha best first)
    (alphaBetaLoop rec2 depth beta ply moves board e2 alpha best first).
Proof.
  intros Hrec. revert board e1 e2 alpha best first.
  induction moves as [|m ms IH]; intros board e1 e2 alpha best first He.
  - simpl. done.
  - simpl. apply sameResult_bind.
    + destruct first.
      * apply sameResult_bind; [by apply Hrec|].
        intros [r b] x1 x2 Hx. simpl. done.
      * apply sameResult_bind; [by apply Hrec|].
        intros [r b] x1 x2 Hx.
        destruct ((- r >? alpha) && (- r <? beta)); [|done].
        apply sameResult_bind; [by apply Hrec|].
        intros [r' b'] y1 y2 Hy. simpl. done.
    + intros [score b] x1 x2 Hx.
      destruct (score >? alpha).
      * destruct (negb (isCapture (unmakeMove b m) m)).
        -- pose proof (sameSearch_recordQuiet x1 x2 (unmakeMove b m) m depth
                         ply Hx).
           destruct (score >=? beta); [done|]. by apply IH.
        -- destruct (score >=? beta); [done|]. by apply IH.
      * destruct (alpha >=? beta); [done|]. by apply IH.
Qed.

Lemma alphaBeta_same fuel e1 e2 board depth alpha beta ply :
  sameSearch e1 e2 ->
  sameResult (alphaBeta fuel e1 board depth alpha beta ply)
    (alphaBeta fuel e2 board depth alpha beta ply).
Proof.
  revert e1 e2 board alpha beta ply.
  induction depth as [|depth IH]; intros e1 e2 board alpha beta ply He;
    rewrite !alphaBeta_unfold, (outOfTime_eta e1), (outOfTime_eta e2);
    destruct (sameSearch_outOfTime e1 e2 He) as [<- Ho];
    (destruct (outOfTime e1).1; [by destruct (evaluate board)|]).
  - destruct (quiescence fuel board alpha beta) as [[v b]|]; simpl; done.
  - cbv zeta. case_decide; [by case_decide|].
    pose proof Ho as (HT & _).
    rewrite (ttAgree_lookup _ _ _ _ alpha beta HT) by lia.
    destruct (ttLookup _ _ _ _) as [v|[a b]]; [done|].
    rewrite (sameSearch_orderMoves _ _ _ _ _ Ho).
    apply sameResult_bind.
    + apply alphaBetaLoop_same; [|done]. intros. by apply IH.
    + intros [bs b1] x1 x2 (HT' & HK & HH & HS & HL & HC & HR).
      split; [done|]. unfold sameSearch; simpl.
      repeat split; try done. apply ttAgree_store; [done|lia].
Qed.

Lemma rootLoop_cons fuel depth move moves board eng alpha beta bestScore
    firstMove bestMove :
  rootLoop fuel depth (move :: moves) board eng alpha beta bestScore
    firstMove bestMove =
    '(score, board, eng) ←
      (if firstMove then
         '(r, board, eng) ←
           alphaBeta fuel eng (makeMove board move) (depth - 1) (- beta)
             (- alpha) 1;
         Some (- r, board, eng)
       else
         '(r, board, eng) ←
           alphaBeta fuel eng (makeMove board move) (depth - 1)
             (- alpha - 1) (- alpha) 1;
         if - r >? alpha then
           '(r, board, eng) ←
             alphaBeta fuel eng board (depth - 1) (- beta) (- alpha) 1;
           Some (- r, board, eng)
         else Some (- r, board, eng));
    let '(timeout, eng) := outOfTime eng in
    if timeout then Some (bestMove, unmakeMove board move, eng)
    else
      rootLoop fuel depth moves (unmakeMove board move) eng
        (if score >? alpha then score else alpha) beta
        (if score >? bestScore then score else bestScore) false
        (if score >? bestScore then move else bestMove).
Proof.
  change (rootLoop fuel depth (move :: moves) board eng alpha beta bestScore
    firstMove bestMove) with
    ('(score, board, eng) ←
      (if firstMove then
         '(r, board, eng) ←
           alphaBeta fuel eng (makeMove board move) (depth - 1) (- beta)
             (- alpha) 1;
         Some (- r, board, eng)
       else
         '(r, board, eng) ←
           alphaBeta fuel eng (makeMove board move) (depth - 1)
             (- alpha - 1) (- alpha) 1;
         if - r >? alpha then
           '(r, board, eng) ←
             alphaBeta fuel eng board (depth - 1) (- beta) (- alpha) 1;
           Some (- r, board, eng)
         else Some (- r, board, eng));
    let '(timeout, eng) := outOfTime eng in
    if timeout then Some (bestMove, unmakeMove board move, eng)
    else
      let '(bestScore, bestMove) :=
        if score >? bestScore then (score, move)
        else (bestScore, bestMove) in
      rootLoop fuel depth moves (unmakeMove board move) eng
        (if score >? alpha then score else alpha) beta
        bestScore false bestMove).
  destruct firstMove;
    (destruct (alphaBeta _ _ _ _ _ _ _) as [[[r b] e]|]; [|done]);
    cbn [mbind option_bind].
  - destruct (outOfTime e) as [[] ?]; [done|]. by destruct (- r >? bestScore).
  - destruct (- r >? alpha).
    + destruct (alphaBeta _ _ _ _ _ _ _) as [[[r2 b2] e2]|]; [|done].
      cbn [mbind option_bind].
      destruct (outOfTime e2) as [[] ?]; [done|].
      by destruct (- r2 >? bestScore).
    + cbn [mbind option_bind]. destruct (outOfTime e) as [[] ?]; [done|].
      by destruct (- r >? bestScore).
Qed.

Lemma rootLoop_same fuel depth moves board e1 e2 alpha beta best first
    bestMove :
  sameSearch e1 e2 ->
  sameResult
    (rootLoop fuel depth moves board e1 alpha beta best first bestMove)
    (rootLoop fuel depth moves board e2 alpha beta best first bestMove).
Proof.
  revert board e1 e2 alpha best first bestMove.
  induction moves as [|m ms IH];
    intros board e1 e2 alpha best first bestMove He.
  - simpl. done.
  - rewrite !rootLoop_cons. apply sameResult_bind.
    + destruct first.
      * apply sameResult_bind; [by apply alphaBeta_same|].
        intros [r b] x1 x2 Hx. simpl. done.
      * apply sameResult_bind; [by apply alphaBeta_same|].
        intros [r b] x1 x2 Hx.
        destruct (- r >? alpha); [|done].
        apply sameResult_bind; [by apply alphaBeta_same|].
        intros [r' b'] y1 y2 Hy. simpl. done.
    + intros [score b] x1 x2 Hx. cbv beta iota zeta.
      rewrite (outOfTime_eta x1), (outOfTime_eta x2).
      destruct (sameSearch_outOfTime x1 x2 Hx) as [<- Ho].
      destruct (outOfTime x1).1; [done|]. by apply IH.
Qed.

Lemma deepen_same fuel depths moves board e1 e2 bestMove :
  sameSearch e1 e2 ->
  sameResult (deepen fuel depths moves board e1 bestMove)
    (deepen fuel depths moves board e2 bestMove).
Proof.
  revert moves board e1 e2 bestMove.
  induction depths as [|d ds IH]; intros moves board e1 e2 bestMove He.
  - simpl. done.
  - rewrite !deepen_cons, (outOfTime_eta e1), (outOfTime_eta e2).
    destruct (sameSearch_outOfTime e1 e2 He) as [<- Ho].
    destruct (outOfTime e1).1; [done|]. cbv zeta.
    rewrite (sameSearch_orderMoves _ _ _ _ _ Ho).
    apply sameResult_bind; [by apply rootLoop_same|].
    intros [bm b] x1 x2 Hx. by apply IH.
Qed.

(** X9. The answer of [Move] does not depend on what earlier calls left
    in the transposition table: started on any table [T] in place of the
    current one, it returns the same move and leaves the same killer and
    history tables ([clearTT] makes every old entry unusable, and the
    first store on a slot overwrites it). *)
Theorem Move_ignores_stale_entries fuel eng T fen timeLimitMs :
  sameAnswer (Move fuel eng fen timeLimitMs)
    (Move fuel (set_transTable eng T) fen timeLimitMs).
Proof.
  unfold Move. destruct (legalmoves (parseFen fen)) as [|m ms]; [done|].
  cbv zeta. unfold readClock.
  match goal with
  | |- sameAnswer (deepen ?f ?d ?mv ?b ?x1 ?bm ≫= _)
         (deepen _ _ _ _ ?x2 _ ≫= _) =>
      pose proof (deepen_same f d mv b x1 x2 bm) as H
  end.
  lapply H.
  - clear H. intros H.
    destruct (deepen _ _ _ _ _ _) as [[bm1 x1]|],
      (deepen _ _ _ _ _ _) as [[bm2 x2]|]; simpl in *; try done.
    destruct H as (-> & _ & HK & HH & _). done.
  - unfold sameSearch; simpl. repeat split; try done. apply ttAgree_clear.
Qed.

End SameFacts.

(** ** Terms of the evaluation *)

Section EvalFacts.
Context `{laws : ChessLaws}.

(** X10. The mobility term counts moves only when White is to move:
    it is twice the difference between White's legal moves and Black's
    after a null move, and 0 when Black is to move; the score is then the
    opposite of the placement terms alone. *)
Theorem evaluate_by_side (b : Board) :
  (evaluateMobility b).1 =
    (if decide (sideToMove b = Color.WHITE)
     then 2 * (Z.of_nat (length (legalmoves b))
               - Z.of_nat (length (legalmoves (makeNullMove b))))
     else 0)
  /\ (evaluate b).1 =
       (if decide (sideToMove b = Color.WHITE)
        then staticScore b
             + 2 * (Z.of_nat (length (legalmoves b))
                    - Z.of_nat (length (legalmoves (makeNullMove b))))
        else - staticScore b).
Proof.
  assert (Hm : (evaluateMobility b).1 =
    ((if decide (sideToMove b = Color.WHITE)
      then Z.of_nat (length (legalmoves b)) else 0)
     - (if decide (opposite (sideToMove b) = Color.BLACK)
        then Z.of_nat (length (legalmoves (makeNullMove b))) else 0)) * 2).
  { unfold evaluateMobility. simpl. by rewrite null_passes_turn. }
  rewrite evaluate_value. cbv zeta. rewrite Hm. unfold staticScore.
  destruct (sideToMove b); simpl; split; lia.
Qed.

(** X11. Each placement term is negated by the mirror of the piece-square
    tables (square [i] carries the colour-swapped piece of square
    [63 - i]), with no condition on the move generator. *)
Theorem static_terms_mirrored (b b' : Board) :
  mirrored b b' ->
  evaluateMaterial b' = - evaluateMaterial b
  /\ evaluatePawnStructure b' = - evaluatePawnStructure b
  /\ evaluateKingSafety b' = - evaluateKingSafety b
  /\ evaluatePieceSquare b' = - evaluatePieceSquare b
  /\ evaluateDevelopment b' = - evaluateDevelopment b
  /\ evaluateCenterControl b' = - evaluateCenterControl b
  /\ staticScore b' = - staticScore b.
Proof.
  intros H.
  pose proof (evaluateMaterial_flip b b' H).
  pose proof (evaluatePawnStructure_flip b b' H).
  pose proof (evaluateKingSafety_flip b b' H).
  pose proof (evaluatePieceSquare_flip b b' H).
  pose proof (evaluateDevelopment_flip b b' H).
  pose proof (evaluateCenterControl_flip b b' H).
  unfold staticScore. repeat split; try done. lia.
Qed.

Lemma sumOver_bound f l lo hi :
  (forall i, i ∈ l -> lo <= f i <= hi) ->
  Z.of_nat (length l) * lo <= sumOver f l <= Z.of_nat (length l) * hi.
Proof.
  induction l as [|x l IH]; intros H.
  - unfold sumOver; simpl. lia.
  - rewrite sumOver_cons. simpl length.
    assert (lo <= f x <= hi) by (apply H; left).
    assert (Z.of_nat (length l) * lo <= sumOver f l
            <= Z.of_nat (length l) * hi).
    { apply IH. intros i Hi. apply H. by right. }
    lia.
Qed.

Lemma squares_elem i : i ∈ squares <-> 0 <= i < 64.
Proof. unfold squares. rewrite elem_of_seqZ. lia. Qed.

Lemma evaluateMaterial_bound b : -57600 <= evaluateMaterial b <= 57600.
Proof.
  rewrite evaluateMaterial_sum.
  pose proof (sumOver_bound (materialAt b) squares (-900) 900) as H.
  change (Z.of_nat (length squares)) with 64 in H. 
  assert (forall i, i ∈ squares -> -900 <= materialAt b i <= 900).
  { intros i _. unfold materialAt. cbv zeta.
    pose proof (pieceValue_range (board_at b i)). repeat case_decide; lia. }
  specialize (H H0). lia.
Qed.

Lemma pst_bound table sq :
  Forall (fun v => -50 <= v <= 50) table -> -50 <= pst table sq <= 50.
Proof.
  intros H. unfold pst.
  destruct (table !! Z.to_nat sq) as [v|] eqn:E; simpl; [|lia].
  by eapply (Forall_lookup_1 _ _ _ _ H E).
Qed.

Lemma tables_bound :
  Forall (fun v => -50 <= v <= 50) pawnPST
  /\ Forall (fun v => -50 <= v <= 50) knightPST
  /\ Forall (fun v => -50 <= v <= 50) bishopPST
  /\ Forall (fun v => -50 <= v <= 50) rookPST
  /\ Forall (fun v => -50 <= v <= 50) queenPST.
Proof. repeat split; repeat (constructor; [lia|]); constructor. Qed.

Lemma pstAt_bound b i : -50 <= pstAt b i <= 50.
Proof.
  destruct tables_bound as (Hp & Hn & Hb & Hr & Hq).
  unfold pstAt. cbv zeta. case_decide; [lia|].
  pose proof (pst_bound pawnPST i Hp). pose proof (pst_bound pawnPST (63 - i) Hp).
  pose proof (pst_bound knightPST i Hn). pose proof (pst_bound knightPST (63 - i) Hn).
  pose proof (pst_bound bishopPST i Hb). pose proof (pst_bound bishopPST (63 - i) Hb).
  pose proof (pst_bound rookPST i Hr). pose proof (pst_bound rookPST (63 - i) Hr).
  pose proof (pst_bound queenPST i Hq). pose proof (pst_bound queenPST (63 - i) Hq).
  destruct (board_at b i); simpl; lia.
Qed.

Lemma evaluatePieceSquare_bound b : -3230 <= evaluatePieceSquare b <= 3230.
Proof.
  rewrite evaluatePieceSquare_sum. cbv zeta.
  pose proof (sumOver_bound (pstAt b) squares (-50) 50) as H.
  change (Z.of_nat (length squares)) with 64 in H.
  assert (-3200 <= sumOver (pstAt b) squares <= 3200)
    by (apply H; intros; apply pstAt_bound).
  repeat case_match; lia.
Qed.

Lemma shieldTerm_bound bd pawn ok sq : 0 <= shieldTerm bd pawn ok sq <= 15.
Proof. unfold shieldTerm. destruct ok; [case_decide|]; lia. Qed.

Lemma kingAt_bound b i : -45 <= kingAt b i <= 45.
Proof.
  unfold kingAt, whiteShield, blackShield. rewrite !sumOver_cons. cbv zeta.
  change (sumOver _ []) with 0. change (sumOver _ []) with 0.
  repeat match goal with
  | |- context [shieldTerm ?a ?p ?o ?s] =>
      pose proof (shieldTerm_bound a p o s);
      generalize dependent (shieldTerm a p o s); intros
  end.
  repeat case_decide; lia.
Qed.

Lemma evaluateKingSafety_bound b : -2880 <= evaluateKingSafety b <= 2880.
Proof.
  rewrite evaluateKingSafety_sum.
  pose proof (sumOver_bound (kingAt b) squares (-45) 45) as H.
  change (Z.of_nat (length squares)) with 64 in H.
  apply H. intros; apply kingAt_bound.
Qed.

Lemma passedAt_bound b i : 0 <= i < 64 -> -70 <= passedAt b i <= 70.
Proof.
  intros Hi. destruct (coords i Hi) as (_ & Hr & _).
  unfold passedAt. repeat case_decide; repeat case_match; lia.
Qed.

Lemma pawnOn_bound b pawn file rank : 0 <= pawnOn b pawn file rank <= 1.
Proof. unfold pawnOn. case_decide; lia. Qed.

Lemma doubledAt_bound b file : -105 <= doubledAt b file <= 105.
Proof.
  unfold doubledAt. cbv zeta.
  pose proof (sumOver_bound (pawnOn b Piece.WHITEPAWN file) (seqZ 0 8) 0 1
                ltac:(intros; apply pawnOn_bound)) as Hw.
  pose proof (sumOver_bound (pawnOn b Piece.BLACKPAWN file) (seqZ 0 8) 0 1
                ltac:(intros; apply pawnOn_bound)) as Hk.
  change (Z.of_nat (length (seqZ 0 8))) with 8 in *.
  repeat case_match; lia.
Qed.

Lemma evaluatePawnStructure_bound b :
  -5320 <= evaluatePawnStructure b <= 5320.
Proof.
  rewrite evaluatePawnStructure_sum.
  pose proof (sumOver_bound (doubledAt b) (seqZ 0 8) (-105) 105
                ltac:(intros; apply doubledAt_bound)) as Hd.
  change (Z.of_nat (length (seqZ 0 8))) with 8 in Hd.
  pose proof (sumOver_bound (passedAt b) squares (-70) 70) as Hp.
  change (Z.of_nat (length squares)) with 64 in Hp.
  assert (-4480 <= sumOver (passedAt b) squares <= 4480).
  { apply Hp. intros i Hi. apply passedAt_bound. by apply squares_elem. }
  lia.
Qed.

Lemma evaluateDevelopment_bound b : -60 <= evaluateDevelopment b <= 60.
Proof. unfold evaluateDevelopment. cbv zeta beta. repeat case_decide; lia. Qed.

Lemma evaluateCenterControl_bound b : -80 <= evaluateCenterControl b <= 80.
Proof.
  unfold evaluateCenterControl, centerSquares. simpl foldl. cbv zeta.
  repeat case_decide; lia.
Qed.

(** X12. The score is bounded by the legal-move counts: the placement
    terms never exceed 69170 in absolute value, so with at most [n] legal
    moves for either side the score is within 69170 + 2n, and with
    [n <= 256] it is strictly inside the band of the mate scores of the
    first 128 plies. *)
Theorem evaluate_bounded (b : Board) (n : Z) :
  Z.of_nat (length (legalmoves b)) <= n ->
  Z.of_nat (length (legalmoves (makeNullMove b))) <= n ->
  Z.abs (evaluate b).1 <= 69170 + 2 * n
  /\ (n <= 256 ->
      - MATE_SCORE + 128 < (evaluate b).1 < MATE_SCORE - 128).
Proof.
  intros H1 H2.
  assert (Z.abs (evaluate b).1 <= 69170 + 2 * n).
  { rewrite evaluate_value. cbv zeta.
    pose proof (evaluateMaterial_bound b).
    pose proof (evaluatePawnStructure_bound b).
    pose proof (evaluateKingSafety_bound b).
    pose proof (evaluatePieceSquare_bound b).
    pose proof (evaluateDevelopment_bound b).
    pose proof (evaluateCenterControl_bound b).
    assert (- (2 * n) <= (evaluateMobility b).1 <= 2 * n).
    { unfold evaluateMobility. simpl. repeat case_decide; lia. }
    case_decide; lia. }
  split; [done|]. unfold MATE_SCORE. lia.
Qed.

End EvalFacts.

(** ** Ordering and quiescence *)

Section FloorFacts.
Context `{laws : ChessLaws}.

(** X13. Standing pat is always an option: with enough fuel and
    [alpha <= beta], [quiescence] returns, hands the board back, and its
    value is at least the static evaluation clamped to the window,
    whatever the captures lead to. *)
Theorem quiescence_floor fuel board alpha beta :
  (pieceCount board < fuel)%nat ->
  alpha <= beta ->
  exists v,
    quiescence fuel board alpha beta = Some (v, board)
    /\ Z.min beta (Z.max alpha (evaluate board).1) <= v <= beta.
Proof.
  intros Hf Hab.
  destruct (quiescence_total fuel board alpha beta Hf) as [v H].
  exists v. split; [done|]. revert H.
  destruct fuel as [|fuel]; [done|]. rewrite quiescence_S.
  destruct (evaluate board) as [standPat b1]. simpl.
  destruct (Z.geb_spec standPat beta) as [Hcut|Hcut].
  - intros H; inversion H; lia.
  - intros H. apply quiescenceLoop_range in H.
    + destruct (Z.ltb_spec alpha standPat); lia.
    + destruct (Z.ltb_spec alpha standPat); lia.
Qed.

End FloorFacts.

Section SortFacts.
Context `{lib : ChessLib}.

Lemma orderMoves_StronglySorted eng moves board depth :
  StronglySorted (byPriority eng board depth)
    (orderMoves eng moves board depth).
Proof.
  unfold orderMoves, byPriority. apply StronglySorted_merge_sort.
  - intros x y z ??. lia.
  - intros x y. lia.
Qed.

(** X14. [orderMoves] permutes the list into non-increasing priority:
    a move never has a smaller priority than one sorted behind it, and a
    non-capture that is sorted ahead of a capture has a history count of
    at least 99100. *)
Theorem orderMoves_sorted eng moves board depth :
  orderMoves eng moves board depth ≡ₚ moves
  /\ (forall l1 a l2 c l3,
        orderMoves eng moves board depth = l1 ++ a :: l2 ++ c :: l3 ->
        scoreMove eng board c depth <= scoreMove eng board a depth)
  /\ (forall l1 a l2 c l3,
        orderMoves eng moves board depth = l1 ++ a :: l2 ++ c :: l3 ->
        isCapture board c = true -> isCapture board a = false ->
        99100 <= history eng
                   (if decide (sideToMove board = Color.WHITE) then 0 else 1)
                   (move_from a) (move_to a)).
Proof.
  assert (Hs : forall l1 a l2 c l3,
        orderMoves eng moves board depth = l1 ++ a :: l2 ++ c :: l3 ->
        scoreMove eng board c depth <= scoreMove eng board a depth).
  { intros l1 a l2 c l3 E.
    pose proof (orderMoves_StronglySorted eng moves board depth) as Hs.
    rewrite E in Hs. apply StronglySorted_app_1_r in Hs.
    apply StronglySorted_cons in Hs as [Hall _].
    rewrite Forall_app, Forall_cons in Hall.
    destruct Hall as (_ & Hac & _). exact Hac. }
  split; [apply orderMoves_perm|]. split; [done|].
  intros l1 a l2 c l3 E Hc Ha. specialize (Hs _ _ _ _ _ E).
  assert (99100 <= scoreMove eng board c depth).
  { unfold scoreMove. rewrite Hc. unfold captureScore. cbv zeta.
    pose proof (pieceValue_range (board_at board (move_to c))).
    pose proof (pieceValue_range (board_at board (move_from c))). lia. }
  unfold scoreMove at 2 in Hs. rewrite Ha in Hs. cbv zeta in Hs.
  repeat case_decide; lia.
Qed.

(** X15. When the priorities of the moves are pairwise distinct, the
    sorted order is unique: every permutation of the list in
    non-increasing priority is the list [orderMoves] returns, whichever
    algorithm [std::sort] runs. *)
Theorem orderMoves_unique eng moves board depth sorted :
  (forall a b, a ∈ moves -> b ∈ moves ->
     scoreMove eng board a depth = scoreMove eng board b depth -> a = b) ->
  sorted ≡ₚ moves ->
  StronglySorted (byPriority eng board depth) sorted ->
  sorted = orderMoves eng moves board depth.
Proof.
  intros Hinj Hp Hs.
  eapply StronglySorted_unique_strong; [|exact Hs| |].
  - intros x1 x2 H1 H2 Ha Hb. unfold byPriority in Ha, Hb.
    apply Hinj; [by rewrite <- Hp| |lia].
    by apply orderMoves_elem in H2.
  - apply orderMoves_StronglySorted.
  - by rewrite orderMoves_perm.
Qed.

End SortFacts.

(** * Properties of the front ends *)

Section StringFacts.
Import Gui.

Lemma prefix_joined w a b :
  spaceFree w = true ->
  String.prefix w (a +:+ String Ascii.Space b) = String.prefix w a.
Proof.
  revert w. induction a as [|d a IH]; intros [|c w] Hw; simpl; try done.
  - simpl in Hw. apply andb_prop in Hw as [Hc _].
    destruct (Ascii.ascii_dec c Ascii.Space) as [->|]; [done|done].
  - simpl in Hw. apply andb_prop in Hw as [_ Hw].
    destruct (Ascii.ascii_dec c d); [by apply IH|done].
Qed.

Lemma string_find_joined w a b :
  spaceFree w = true -> w <> EmptyString ->
  is_Some (string_find (a +:+ String Ascii.Space b) w)
  <-> is_Some (string_find a w) \/ is_Some (string_find b w).
Proof.
  intros Hw Hne. induction a as [|d a IH].
  - change (EmptyString +:+ String Ascii.Space b) with (String Ascii.Space b).
    assert (String.prefix w (String Ascii.Space b) = false) as Hp.
    { pose proof (prefix_joined w EmptyString b Hw) as E.
      change (EmptyString +:+ String Ascii.Space b)
        with (String Ascii.Space b) in E.
      rewrite E. by destruct w. }
    assert (string_find EmptyString w = None) as ->.
    { by destruct w. }
    assert (string_find (String Ascii.Space b) w = S <$> string_find b w)
      as ->.
    { cbn [string_find]. by rewrite Hp. }
    rewrite fmap_is_Some. split; [by right|]. by intros [[? [=]]|?].
  - change (String d a +:+ String Ascii.Space b)
      with (String d (a +:+ String Ascii.Space b)).
    cbn [string_find].
    change (String d (a +:+ String Ascii.Space b))
      with (String d a +:+ String Ascii.Space b).
    rewrite (prefix_joined w (String d a) b Hw).
    destruct (String.prefix w (String d a)).
    + split; [left|]; by eexists.
    + by rewrite !fmap_is_Some.
Qed.

Lemma found_joined w a b :
  spaceFree w = true -> w <> EmptyString ->
  (if string_find (a +:+ " " +:+ b) w is Some _ then true else false)
  = mentions w a b.
Proof.
  intros Hw Hne. pose proof (string_find_joined w a b Hw Hne) as H.
  unfold mentions. change (" " +:+ b) with (String Ascii.Space b).
  destruct (string_find (a +:+ String Ascii.Space b) w) as [n|].
  - symmetry. apply bool_decide_eq_true. apply H. by eexists.
  - symmetry. apply bool_decide_eq_false. rewrite <- H. by intros [? [=]].
Qed.

(** X16. The result string that [move] writes is two enumerator names
    joined by a blank, and its conversion is decided by the two names
    alone: 1-0 when one of them contains WHITE, else 0-1 when one
    contains BLACK, else 1/2-1/2 when one contains DRAW, else empty. *)
Theorem ConvertResultToPGN_joined (a b : string) :
  ConvertResultToPGN (a +:+ " " +:+ b) =
    if mentions "WHITE" a b then "1-0"
    else if mentions "BLACK" a b then "0-1"
    else if mentions "DRAW" a b then "1/2-1/2"
    else "".
Proof.
  rewrite <- !found_joined by done. unfold ConvertResultToPGN.
  by repeat case_match.
Qed.

End StringFacts.

Section GuiFacts.
Context `{gui : GuiLib}.

Lemma Gui_pgnStep_board pgn b n uci :
  (Gui.pgnStep (pgn, b, n) uci).1.2 = makeMove b (uciToMove b uci).
Proof. reflexivity. Qed.

Lemma Gui_replay_snoc pgn n l uci :
  (foldl Gui.pgnStep (pgn, startBoard, n) (l ++ [uci])).1.2 =
    makeMove (foldl Gui.pgnStep (pgn, startBoard, n) l).1.2
      (uciToMove (foldl Gui.pgnStep (pgn, startBoard, n) l).1.2 uci).
Proof.
  rewrite foldl_app. cbn [foldl].
  destruct (foldl Gui.pgnStep (pgn, startBoard, n) l) as [[p b] k].
  apply Gui_pgnStep_board.
Qed.

Lemma Gui_move_unfold fuel s :
  Gui.move fuel s =
    if isHalfMoveDraw (Gui.board s) then
      Some (Gui.set_gameResult s
              (resultName (getHalfMoveDrawType (Gui.board s)).2 +:+ " "
               +:+ reasonName (getHalfMoveDrawType (Gui.board s)).1)
              (Gui.simulationState s))
    else if decide ((isGameOver (Gui.board s)).2 <> GameResult.NONE
                    \/ (isGameOver (Gui.board s)).1
                       <> GameResultReason.NONE) then
      Some (Gui.set_gameResult s
              (resultName (isGameOver (Gui.board s)).2 +:+ " "
               +:+ reasonName (isGameOver (Gui.board s)).1)
              SimulationState.PAUSED)
    else
      '(moveStr, eng) ←
        Move fuel (readClock (Gui.engine s)).2 (getFen (Gui.board s))
          defaultTimeLimitMs;
      Some {| Gui.board :=
                makeMove (Gui.board s)
                  (uciToMove (Gui.board s) (Gui.stripNewlines moveStr));
              Gui.simulationState := Gui.simulationState s;
              Gui.timeSpentOnMoves :=
                Gui.timeSpentOnMoves s
                + ((readClock eng).1 - (readClock (Gui.engine s)).1);
              Gui.timeSpentLastMove :=
                (readClock eng).1 - (readClock (Gui.engine s)).1;
              Gui.gameResult := Gui.gameResult s;
              Gui.movesDisplay :=
                Gui.movesDisplay s
                ++ [pretty
                      (fullMoveNumber
                         (makeMove (Gui.board s)
                            (uciToMove (Gui.board s)
                               (Gui.stripNewlines moveStr))))
                    +:+ " " +:+ colorName (sideToMove (Gui.board s))
                    +:+ ": " +:+ Gui.stripNewlines moveStr];
              Gui.movesUCI :=
                Gui.movesUCI s ++ [Gui.stripNewlines moveStr];
              Gui.engine := (readClock eng).2 |}.
Proof.
  unfold Gui.move. destruct (isHalfMoveDraw (Gui.board s)); [done|].
  cbv zeta. case_decide; [done|].
  unfold readClock at 1. cbv beta iota.
  destruct (Move _ _ _ _) as [[moveStr eng]|]; done.
Qed.

(** X17. On a finished game [move] does not call the engine: it writes
    the result string, pauses the simulation unless the end is a
    half-move draw, leaves the board, the move lists, the timers and the
    engine as they are, and a second call changes nothing more. *)
Theorem Gui_move_finished fuel s :
  Gui.finished (Gui.board s) ->
  exists s',
    Gui.move fuel s = Some s'
    /\ Gui.board s' = Gui.board s
    /\ Gui.movesUCI s' = Gui.movesUCI s
    /\ Gui.movesDisplay s' = Gui.movesDisplay s
    /\ Gui.engine s' = Gui.engine s
    /\ Gui.timeSpentOnMoves s' = Gui.timeSpentOnMoves s
    /\ Gui.timeSpentLastMove s' = Gui.timeSpentLastMove s
    /\ Gui.gameResult s' =
         (if isHalfMoveDraw (Gui.board s)
          then resultName (getHalfMoveDrawType (Gui.board s)).2 +:+ " "
               +:+ reasonName (getHalfMoveDrawType (Gui.board s)).1
          else resultName (isGameOver (Gui.board s)).2 +:+ " "
               +:+ reasonName (isGameOver (Gui.board s)).1)
    /\ Gui.simulationState s' =
         (if isHalfMoveDraw (Gui.board s) then Gui.simulationState s
          else SimulationState.PAUSED)
    /\ Gui.move fuel s' = Some s'.
Proof.
  intros Hfin. rewrite Gui_move_unfold.
  destruct (isHalfMoveDraw (Gui.board s)) eqn:Hh.
  - eexists. split; [done|]. repeat split.
    rewrite Gui_move_unfold. simpl. by rewrite Hh.
  - destruct Hfin as [?|Hover]; [congruence|].
    rewrite decide_True by done.
    eexists. split; [done|]. repeat split.
    rewrite Gui_move_unfold. simpl. rewrite Hh. by rewrite decide_True.
Qed.

(** X18. The board of the front end is the position that [GeneratePGN]
    reaches by replaying the recorded UCI strings from the initial
    board, and the display list is as long as the UCI list: [reset]
    establishes both and [move] keeps them. *)
Theorem Gui_board_is_replay :
  (forall s, Gui.inSync (Gui.reset s))
  /\ (forall fuel s s',
        Gui.inSync s -> Gui.move fuel s = Some s' -> Gui.inSync s').
Proof.
  split.
  - intros s. split; [|done]. intros pgn n. reflexivity.
  - intros fuel s s' [Hb Hl]. rewrite Gui_move_unfold.
    destruct (isHalfMoveDraw (Gui.board s)).
    { intros [= <-]. by split. }
    case_decide.
    { intros [= <-]. by split. }
    destruct (Move _ _ _ _) as [[moveStr eng]|]; [|done].
    intros [= <-]. split; simpl.
    + intros pgn n. by rewrite Gui_replay_snoc, Hb.
    + rewrite !length_app. simpl. lia.
Qed.

End GuiFacts.

Section GuiEngineFacts.
Context `{gui : GuiLib} `{laws : !ChessLaws lib}.

(** X19. While the game goes on, [move] returns and plays the answer
    of the engine for the position string of the board: the UCI string,
    line feeds removed, of a legal move of the parsed position is
    recorded and decoded on the board; result and simulation state are
    unchanged. *)
Theorem Gui_move_plays_engine_move fuel s :
  ~ Gui.finished (Gui.board s) ->
  (pieceCount (parseFen (getFen (Gui.board s))) < fuel)%nat ->
  legalmoves (parseFen (getFen (Gui.board s))) <> [] ->
  exists m s',
    m ∈ legalmoves (parseFen (getFen (Gui.board s)))
    /\ Gui.move fuel s = Some s'
    /\ Gui.movesUCI s' =
         Gui.movesUCI s ++ [Gui.stripNewlines (moveToUci m)]
    /\ Gui.board s' =
         makeMove (Gui.board s)
           (uciToMove (Gui.board s) (Gui.stripNewlines (moveToUci m)))
    /\ Gui.gameResult s' = Gui.gameResult s
    /\ Gui.simulationState s' = Gui.simulationState s.
Proof.
  intros Hfin Hfuel Hmoves. rewrite Gui_move_unfold.
  destruct (isHalfMoveDraw (Gui.board s)) eqn:Hh.
  { destruct Hfin. by left. }
  rewrite decide_False by (intros ?; apply Hfin; by right).
  destruct (Move_result fuel (readClock (Gui.engine s)).2
              (getFen (Gui.board s)) defaultTimeLimitMs Hfuel)
    as (str & eng' & -> & _ & Hlegal).
  destruct (Hlegal Hmoves) as (m & Hm & ->).
  exists m. eexists. split; [done|]. split; [done|]. done.
Qed.

End GuiEngineFacts.

Section BotSelectorFacts.
Import BotSelector.

Lemma find_username bots value b :
  List.find (fun x => bool_decide (username x = value)) bots = Some b ->
  username b = value /\ b ∈ bots.
Proof.
  intros H. apply find_some in H as [Hin Hb].
  apply bool_decide_eq_true in Hb. split; [done|].
  by apply list_elem_of_In.
Qed.

Lemma find_first bots b :
  NoDup (username <$> bots) -> b ∈ bots ->
  List.find (fun x => bool_decide (username x = username b)) bots = Some b.
Proof.
  induction bots as [|x bots IH]; intros Hnd Hin.
  - by apply elem_of_nil in Hin.
  - rewrite fmap_cons in Hnd. apply NoDup_cons in Hnd as [Hx Hnd]. simpl.
    apply elem_of_cons in Hin as [->|Hin].
    + by rewrite bool_decide_eq_true_2.
    + rewrite bool_decide_eq_false_2; [by apply IH|].
      intros E. apply Hx. rewrite E. by apply list_elem_of_fmap_2.
Qed.

(** X20. What the select box shows after a choice: the chosen value
    when it is the human entry or the name of a listed bot, the empty
    entry otherwise. *)
Theorem playerValue_resolvePlayer bots value :
  playerValue (resolvePlayer bots value) =
    if decide (value = "__human__"
               \/ Exists (fun b => username b = value) bots)
    then value else "".
Proof.
  unfold resolvePlayer.
  destruct (decide (value = "")) as [->|Hne]; [by case_decide|].
  destruct (decide (value = "__human__")) as [->|Hnh].
  { by rewrite decide_True by (by left). }
  destruct (List.find _ bots) as [b|] eqn:E.
  - apply find_username in E as [Hb Hin]. simpl.
    rewrite decide_True; [done|]. right. apply Exists_exists. by exists b.
  - simpl. rewrite decide_False; [done|]. intros [?|Hex]; [done|].
    apply Exists_exists in Hex as (b & Hin & Hb).
    apply list_elem_of_In in Hin.
    pose proof (find_none _ _ E b Hin) as Hf. simpl in Hf.
    by apply bool_decide_eq_false in Hf.
Qed.

(** X21. A listed bot survives the round trip through the select box
    when the names of the list are unique and its own name is neither
    empty nor the value reserved for the human player. *)
Theorem resolvePlayer_playerValue bots b :
  b ∈ bots -> NoDup (username <$> bots) ->
  username b <> "" -> username b <> "__human__" ->
  resolvePlayer bots
    (playerValue (Some {| type := PlayerType.bot; bot := Some b |}))
  = Some {| type := PlayerType.bot; bot := Some b |}.
Proof.
  intros Hin Hnd Hne Hnh. simpl. unfold resolvePlayer.
  rewrite !decide_False by done. by rewrite find_first.
Qed.

End BotSelectorFacts.


(** * The further properties on the scripted positions *)

Section FurtherScenarios.
Import Scenario Desk.

#[local] Existing Instance Scenario.chess.
#[local] Existing Instance Desk.gui.
#[local] Existing Instance Scenario_laws.

Lemma probeTT_aliasing_witness :
  tt_depth (probeTT tt_zero 5) <= 2
  /\ 0 <= tt_index 5 < TT_SIZE
  /\ tt_index (5 + 3 * TT_SIZE) = tt_index 5
  /\ probeTT (storeTT tt_zero 5 2 40 NodeType.LOWERBOUND) (5 + 3 * TT_SIZE)
     = {| tt_depth := 2; tt_score := 40; tt_type := NodeType.LOWERBOUND |}.
Proof.
  assert (H : tt_depth (probeTT tt_zero 5) <= 2) by (vm_compute; discriminate).
  split; [exact H|].
  exact (probeTT_aliasing tt_zero 5 3 2 40 NodeType.LOWERBOUND H).
Defined.

Lemma clearTT_invalidates_witness :
  0 <= 1
  /\ (forall i, tt_read (clearTT deepTable) i
                = {| tt_depth := -1;
                     tt_score := tt_score (tt_read deepTable i);
                     tt_type := tt_type (tt_read deepTable i) |})
  /\ ttLookup (probeTT (clearTT deepTable) 5) 1 (-10) 10 = inr (-10, 10)
  /\ probeTT (storeTT (clearTT deepTable) 5 1 0 NodeType.UPPERBOUND) 5
     = {| tt_depth := 1; tt_score := 0; tt_type := NodeType.UPPERBOUND |}.
Proof.
  assert (H : 0 <= 1) by lia.
  split; [exact H|].
  exact (clearTT_invalidates deepTable 5 1 (-10) 10 0 NodeType.UPPERBOUND H).
Defined.

Lemma transTable_depth_monotone_witness :
  alphaBeta 4 searching (start mateInOne) 2 (- INF) INF 1
  = Some (99998, start mateInOne, afterSearch)
  /\ ttDepth_le searching afterSearch.
Proof.
  assert (H : alphaBeta 4 searching (start mateInOne) 2 (- INF) INF 1
              = Some (99998, start mateInOne, afterSearch))
    by (vm_compute; reflexivity).
  split; [exact H|].
  exact (proj2 transTable_depth_monotone 4%nat searching (start mateInOne)
           2%nat (- INF) INF 1 99998 (start mateInOne) afterSearch H).
Defined.

Lemma timedOut_clockMonotone : clockMonotone timedOut.
Proof. intros j k Hjk. simpl. lia. Qed.

Lemma timedOut_expired : expired timedOut.
Proof. intros k _. simpl. apply Z.quot_pos; lia. Qed.

Lemma outOfTime_latches_witness :
  clockMonotone timedOut
  /\ (outOfTime timedOut).1 = true
  /\ (forall e', laterClock timedOut e' ->
                 expired e' /\ (outOfTime e').1 = true)
  /\ (forall fuel board depth alpha beta ply v b' e',
        alphaBeta fuel timedOut board depth alpha beta ply
        = Some (v, b', e') ->
        laterClock timedOut e').
Proof.
  assert (H : (outOfTime timedOut).1 = true) by reflexivity.
  split; [exact timedOut_clockMonotone|]. split; [exact H|].
  exact (outOfTime_latches timedOut timedOut_clockMonotone H).
Defined.

Lemma search_after_expiry_witness :
  expired timedOut
  /\ exists e',
       deepen 4 [1%nat; 2%nat] (legalmoves (start mateInOne))
         (start mateInOne) timedOut (Script.Mv 46 45)
       = Some (Script.Mv 46 45, e')
       /\ sameTables timedOut e'.
Proof.
  split; [exact timedOut_expired|].
  exact (proj2 (proj2 (search_after_expiry timedOut timedOut_expired))
           4%nat [1%nat; 2%nat] (legalmoves (start mateInOne))
           (start mateInOne) (Script.Mv 46 45)).
Defined.

Lemma fresh_clockMonotone : clockMonotone fresh.
Proof. intros j k Hjk. simpl. lia. Qed.

Lemma Move_without_budget_witness :
  clockMonotone fresh
  /\ 0 <= 0
  /\ legalmoves (parseFen mateInOneFen)
     = Script.Mv 46 45 :: [Script.Mv 39 60]
  /\ exists eng',
       Move 4 fresh mateInOneFen 0 = Some ("g6f6"%string, eng')
       /\ transTable eng' = clearTT (transTable fresh)
       /\ killerMoves eng' = killerMoves fresh
       /\ historyHeuristic eng' = historyHeuristic fresh.
Proof.
  assert (Hl : 0 <= 0) by lia.
  assert (Hm : legalmoves (parseFen mateInOneFen)
               = Script.Mv 46 45 :: [Script.Mv 39 60]) by reflexivity.
  split; [exact fresh_clockMonotone|]. split; [exact Hl|].
  split; [exact Hm|].
  exact (Move_without_budget 4 fresh mateInOneFen 0 (Script.Mv 46 45)
           [Script.Mv 39 60] fresh_clockMonotone Hl Hm).
Defined.

Lemma evaluate_by_side_witness :
  (evaluateMobility (start quietOrCapture)).1 = 0
  /\ (evaluate (start quietOrCapture)).1
     = - staticScore (start quietOrCapture).
Proof. exact (evaluate_by_side (start quietOrCapture)). Defined.

Lemma static_terms_mirrored_witness :
  mirrored (start castling) (start castlingFlipped)
  /\ evaluateMaterial (start castlingFlipped)
     = - evaluateMaterial (start castling)
  /\ evaluatePawnStructure (start castlingFlipped)
     = - evaluatePawnStructure (start castling)
  /\ evaluateKingSafety (start castlingFlipped)
     = - evaluateKingSafety (start castling)
  /\ evaluatePieceSquare (start castlingFlipped)
     = - evaluatePieceSquare (start castling)
  /\ evaluateDevelopment (start castlingFlipped)
     = - evaluateDevelopment (start castling)
  /\ evaluateCenterControl (start castlingFlipped)
     = - evaluateCenterControl (start castling)
  /\ staticScore (start castlingFlipped) = - staticScore (start castling).
Proof.
  split; [exact castling_mirrored|].
  exact (static_terms_mirrored (start castling) (start castlingFlipped)
           castling_mirrored).
Defined.

Lemma evaluate_bounded_witness :
  Z.of_nat (length (legalmoves (start pawnUp))) <= 3
  /\ Z.of_nat (length (legalmoves (makeNullMove (start pawnUp)))) <= 3
  /\ Z.abs (evaluate (start pawnUp)).1 <= 69170 + 2 * 3
  /\ (3 <= 256 ->
      - MATE_SCORE + 128 < (evaluate (start pawnUp)).1 < MATE_SCORE - 128).
Proof.
  assert (H1 : Z.of_nat (length (legalmoves (start pawnUp))) <= 3)
    by (vm_compute; discriminate).
  assert (H2 : Z.of_nat (length (legalmoves (makeNullMove (start pawnUp))))
               <= 3) by (vm_compute; discriminate).
  split; [exact H1|]. split; [exact H2|].
  exact (evaluate_bounded (start pawnUp) 3 H1 H2).
Defined.

Lemma quiescence_floor_witness :
  (pieceCount (start quietOrCapture) < 3)%nat
  /\ -1000 <= 1000
  /\ exists v,
       quiescence 3 (start quietOrCapture) (-1000) 1000
       = Some (v, start quietOrCapture)
       /\ Z.min 1000 (Z.max (-1000) (evaluate (start quietOrCapture)).1)
          <= v <= 1000.
Proof.
  assert (Hf : (pieceCount (start quietOrCapture) < 3)%nat)
    by (vm_compute; lia).
  assert (Hab : -1000 <= 1000) by lia.
  split; [exact Hf|]. split; [exact Hab|].
  exact (quiescence_floor 3 (start quietOrCapture) (-1000) 1000 Hf Hab).
Defined.

Lemma orderMoves_sorted_witness :
  orderMoves fresh [Script.Mv 63 15; Script.Mv 36 27] (start quietOrCapture) 0
  = [] ++ Script.Mv 36 27 :: [] ++ Script.Mv 63 15 :: []
  /\ scoreMove fresh (start quietOrCapture) (Script.Mv 63 15) 0
     <= scoreMove fresh (start quietOrCapture) (Script.Mv 36 27) 0.
Proof.
  assert (H : orderMoves fresh [Script.Mv 63 15; Script.Mv 36 27]
                (start quietOrCapture) 0
              = [] ++ Script.Mv 36 27 :: [] ++ Script.Mv 63 15 :: [])
    by (vm_compute; reflexivity).
  split; [exact H|].
  exact (proj1 (proj2 (orderMoves_sorted fresh
                         [Script.Mv 63 15; Script.Mv 36 27]
                         (start quietOrCapture) 0))
           [] (Script.Mv 36 27) [] (Script.Mv 63 15) [] H).
Defined.

Lemma quietOrCapture_distinct a b :
  a ∈ [Script.Mv 63 15; Script.Mv 36 27] ->
  b ∈ [Script.Mv 63 15; Script.Mv 36 27] ->
  scoreMove fresh (start quietOrCapture) a 0
  = scoreMove fresh (start quietOrCapture) b 0 ->
  a = b.
Proof.
  intros Ha Hb.
  apply elem_of_cons in Ha as [->|Ha];
    [|apply list_elem_of_singleton in Ha as ->];
    (apply elem_of_cons in Hb as [->|Hb];
     [|apply list_elem_of_singleton in Hb as ->]);
    vm_compute; congruence.
Qed.

Lemma quietOrCapture_sorted :
  StronglySorted (byPriority fresh (start quietOrCapture) 0)
    [Script.Mv 36 27; Script.Mv 63 15].
Proof. repeat constructor. vm_compute. discriminate. Qed.

Lemma orderMoves_unique_witness :
  [Script.Mv 36 27; Script.Mv 63 15] ≡ₚ [Script.Mv 63 15; Script.Mv 36 27]
  /\ StronglySorted (byPriority fresh (start quietOrCapture) 0)
       [Script.Mv 36 27; Script.Mv 63 15]
  /\ [Script.Mv 36 27; Script.Mv 63 15]
     = orderMoves fresh [Script.Mv 63 15; Script.Mv 36 27]
         (start quietOrCapture) 0.
Proof.
  assert (Hp : [Script.Mv 36 27; Script.Mv 63 15]
               ≡ₚ [Script.Mv 63 15; Script.Mv 36 27])
    by apply Permutation_swap.
  split; [exact Hp|]. split; [exact quietOrCapture_sorted|].
  exact (orderMoves_unique fresh [Script.Mv 63 15; Script.Mv 36 27]
           (start quietOrCapture) 0 [Script.Mv 36 27; Script.Mv 63 15]
           quietOrCapture_distinct Hp quietOrCapture_sorted).
Defined.

Lemma lost_finished : Gui.finished (Gui.board lost).
Proof. right; left. discriminate. Qed.

Lemma Gui_move_finished_witness :
  Gui.finished (Gui.board lost)
  /\ exists s',
       Gui.move 0 lost = Some s'
       /\ Gui.board s' = Gui.board lost
       /\ Gui.movesUCI s' = Gui.movesUCI lost
       /\ Gui.movesDisplay s' = Gui.movesDisplay lost
       /\ Gui.engine s' = Gui.engine lost
       /\ Gui.timeSpentOnMoves s' = Gui.timeSpentOnMoves lost
       /\ Gui.timeSpentLastMove s' = Gui.timeSpentLastMove lost
       /\ Gui.gameResult s' = "WHITE_WIN NONE"%string
       /\ Gui.simulationState s' = SimulationState.PAUSED
       /\ Gui.move 0 s' = Some s'.
Proof.
  split; [exact lost_finished|].
  exact (Gui_move_finished 0 lost lost_finished).
Defined.

Lemma Gui_board_is_replay_witness :
  Gui.inSync opening
  /\ Gui.move 4 opening = Some afterMove
  /\ Gui.inSync afterMove.
Proof.
  assert (H0 : Gui.inSync opening) by exact (proj1 Gui_board_is_replay lost).
  assert (H : Gui.move 4 opening = Some afterMove)
    by (vm_compute; reflexivity).
  split; [exact H0|]. split; [exact H|].
  exact (proj2 Gui_board_is_replay 4%nat opening afterMove H0 H).
Defined.

Lemma opening_not_finished : ~ Gui.finished (Gui.board opening).
Proof.
  intros [H|[H|H]]; [discriminate H|apply H; reflexivity..].
Qed.

Lemma Gui_move_plays_engine_move_witness :
  ~ Gui.finished (Gui.board opening)
  /\ (pieceCount (parseFen (getFen (Gui.board opening))) < 4)%nat
  /\ legalmoves (parseFen (getFen (Gui.board opening))) <> []
  /\ exists m s',
       m ∈ legalmoves (parseFen (getFen (Gui.board opening)))
       /\ Gui.move 4 opening = Some s'
       /\ Gui.movesUCI s'
          = Gui.movesUCI opening ++ [Gui.stripNewlines (moveToUci m)]
       /\ Gui.board s'
          = makeMove (Gui.board opening)
              (uciToMove (Gui.board opening)
                 (Gui.stripNewlines (moveToUci m)))
       /\ Gui.gameResult s' = Gui.gameResult opening
       /\ Gui.simulationState s' = Gui.simulationState opening.
Proof.
  assert (Hf : (pieceCount (parseFen (getFen (Gui.board opening))) < 4)%nat)
    by (vm_compute; lia).
  assert (Hm : legalmoves (parseFen (getFen (Gui.board opening))) <> [])
    by discriminate.
  split; [exact opening_not_finished|]. split; [exact Hf|].
  split; [exact Hm|].
  exact (Gui_move_plays_engine_move 4 opening opening_not_finished Hf Hm).
Defined.

(** A move through the front end, and the PGN export of the game. *)
Example Gui_plays_the_mate :
  Gui.movesUCI afterMove = ["h5e8"%string]
  /\ Gui.movesDisplay afterMove = ["1 WHITE: h5e8"%string]
  /\ Gui.ConvertResultToPGN "WHITE_WIN NONE" = "1-0"%string.
Proof. repeat split; vm_compute; reflexivity. Qed.

Lemma bots_NoDup : NoDup (BotSelector.username <$> [alice; bob]).
Proof.
  apply NoDup_cons. split; [|apply NoDup_singleton].
  intros H%list_elem_of_singleton. discriminate H.
Qed.

Lemma resolvePlayer_playerValue_witness :
  bob ∈ [alice; bob]
  /\ NoDup (BotSelector.username <$> [alice; bob])
  /\ BotSelector.resolvePlayer [alice; bob]
       (BotSelector.playerValue
          (Some {| BotSelector.type := BotSelector.PlayerType.bot;
                   BotSelector.bot := Some bob |}))
     = Some {| BotSelector.type := BotSelector.PlayerType.bot;
               BotSelector.bot := Some bob |}.
Proof.
  assert (Hin : bob ∈ [alice; bob])
    by (apply list_elem_of_further, list_elem_of_here).
  assert (Hne : BotSelector.username bob <> ""%string) by discriminate.
  assert (Hnh : BotSelector.username bob <> "__human__"%string)
    by discriminate.
  split; [exact Hin|]. split; [exact bots_NoDup|].
  exact (resolvePlayer_playerValue [alice; bob] bob Hin bots_NoDup Hne Hnh).
Defined.

End FurtherScenarios.

(** * The history table over the lifetime of the engine *)

Lemma wrap32_id x : INT_MIN <= x <= INT_MAX -> wrap32 x = x.
Proof.
  unfold INT_MIN, INT_MAX, wrap32. intros H.
  rewrite Z.mod_small by lia. lia.
Qed.

Lemma wrap32_range x : INT_MIN <= wrap32 x <= INT_MAX.
Proof.
  unfold INT_MIN, INT_MAX, wrap32.
  pose proof (Z.mod_pos_bound (x + 2 ^ 31) (2 ^ 32)). lia.
Qed.

Lemma wrap32_add x y : wrap32 (wrap32 x + y) = wrap32 (x + y).
Proof.
  unfold wrap32.
  replace ((x + 2 ^ 31) mod 2 ^ 32 - 2 ^ 31 + y + 2 ^ 31)
    with ((x + 2 ^ 31) mod 2 ^ 32 + y) by lia.
  rewrite Zplus_mod_idemp_l. f_equal. f_equal. lia.
Qed.

Section GrowthFacts.
Context `{lib : ChessLib}.

Lemma history_recordQuiet eng board move depth ply side from to :
  history (recordQuiet eng board move depth ply) side from to =
    if decide ((if decide (sideToMove board = Color.WHITE) then 0 else 1,
                move_from move, move_to move) = (side, from, to))
    then wrap32 (history eng side from to + depth * depth)
    else history eng side from to.
Proof.
  unfold recordQuiet, history; simpl.
  rewrite lookup_insert. case_decide as Hk; [|done].
  simpl. by inversion Hk.
Qed.

Lemma grownBy_refl D e : grownBy D 0 e e.
Proof. intros s f t. by left. Qed.

Lemma grownBy_mono D D' k k' e e' :
  0 <= D <= D' -> 0 <= k <= k' -> grownBy D k e e' -> grownBy D' k' e e'.
Proof.
  intros HD Hk H s f t. destruct (H s f t) as [E|(n & Hn & E)]; [by left|].
  right. exists n. split; [|done]. assert (D * k <= D' * k') by nia. lia.
Qed.

Lemma grownBy_trans D k1 k2 e0 e1 e2 :
  0 <= D -> 0 <= k1 -> 0 <= k2 ->
  grownBy D k1 e0 e1 -> grownBy D k2 e1 e2 -> grownBy D (k1 + k2) e0 e2.
Proof.
  intros HD H1 H2 G1 G2 s f t.
  assert (0 <= D * k1) by (apply Z.mul_nonneg_nonneg; lia).
  assert (0 <= D * k2) by (apply Z.mul_nonneg_nonneg; lia).
  assert (D * (k1 + k2) = D * k1 + D * k2) by lia.
  destruct (G1 s f t) as [E1|(n1 & Hn1 & E1)];
    destruct (G2 s f t) as [E2|(n2 & Hn2 & E2)].
  - left. by rewrite E2.
  - right. exists n2. split; [lia|]. by rewrite E2, E1.
  - right. exists n1. split; [lia|]. by rewrite E2.
  - right. exists (n1 + n2). split; [lia|].
    rewrite E2, E1, wrap32_add. f_equal. lia.
Qed.

Lemma grownBy_same D k e e' :
  0 <= D -> 0 <= k ->
  historyHeuristic e' = historyHeuristic e -> grownBy D k e e'.
Proof.
  intros HD Hk E s f t. left. unfold history. by rewrite E.
Qed.

Lemma grownBy_recordQuiet D e board move depth ply :
  0 < depth * depth <= D ->
  grownBy D 1 e (recordQuiet e board move depth ply).
Proof.
  intros HD s f t. rewrite history_recordQuiet.
  case_decide; [|by left].
  right. exists (depth * depth). split; [lia|done].
Qed.

(** An entry that the additions cannot take past [INT_MAX] has not
    decreased. *)
Lemma grownBy_le D k e e' side from to :
  grownBy D k e e' ->
  INT_MIN <= history e side from to ->
  history e side from to + D * k <= INT_MAX ->
  history e side from to <= history e' side from to.
Proof.
  intros G Hlo Hhi. destruct (G side from to) as [E|(n & Hn & E)]; [lia|].
  rewrite E, wrap32_id; lia.
Qed.

Lemma readings_outOfTime e : readings e (outOfTime e).2 = 1.
Proof. unfold readings, outOfTime. simpl. lia. Qed.

Lemma readings_trans e0 e1 e2 :
  readings e0 e2 = readings e0 e1 + readings e1 e2.
Proof. unfold readings. lia. Qed.

Lemma readings_recordQuiet e board move depth ply :
  readings e (recordQuiet e board move depth ply) = 0.
Proof. unfold readings, recordQuiet. simpl. lia. Qed.

(** The loop of a node: each addition comes after the time check of a
    recursive call. *)
Lemma alphaBetaLoop_growth D rec depth beta ply moves board eng alpha best
    first v b' eng' :
  0 < depth * depth <= D ->
  (forall b e a bt r b1 e1, rec b e a bt = Some (r, b1, e1) ->
     1 <= readings e e1 /\ grownBy D (readings e e1 - 1) e e1) ->
  alphaBetaLoop rec depth beta ply moves board eng alpha best first
    = Some (v, b', eng') ->
  0 <= readings eng eng' /\ grownBy D (readings eng eng') eng eng'.
Proof.
  intros HD Hrec.
  assert (HD0 : 0 <= D) by lia.
  revert board eng alpha best first.
  induction moves as [|m ms IH]; intros board eng alpha best first H;
    simpl in H.
  - inversion H; subst. unfold readings. split; [lia|].
    replace (Z.of_N (clockReads eng') - Z.of_N (clockReads eng')) with 0
      by lia.
    apply grownBy_refl.
  - assert (Hstep : forall score b1 e1,
      1 <= readings eng e1 -> grownBy D (readings eng e1 - 1) eng e1 ->
      (let board := unmakeMove b1 m in
       let bestScore := if score >? best then score else best in
       let '(alpha, eng) :=
         if score >? alpha then
           (score,
            if negb (isCapture board m)
            then recordQuiet e1 board m depth ply else e1)
         else (alpha, e1) in
       if alpha >=? beta then Some (bestScore, board, eng)
       else alphaBetaLoop rec depth beta ply ms board eng alpha bestScore
              false) = Some (v, b', eng') ->
      0 <= readings eng eng' /\ grownBy D (readings eng eng') eng eng').
    { intros score b1 e1 Hr Hg Hk. simpl in Hk.
      assert (Hq : 0 <= readings eng
                     (recordQuiet e1 (unmakeMove b1 m) m depth ply)
                /\ grownBy D (readings eng
                     (recordQuiet e1 (unmakeMove b1 m) m depth ply)) eng
                     (recordQuiet e1 (unmakeMove b1 m) m depth ply)).
      { rewrite (readings_trans eng e1), readings_recordQuiet.
        split; [lia|].
        replace (readings eng e1 + 0) with ((readings eng e1 - 1) + 1)
          by lia.
        apply (grownBy_trans D _ _ eng e1); [lia..|done|].
        by apply grownBy_recordQuiet. }
      assert (Hp : 0 <= readings eng e1
                /\ grownBy D (readings eng e1) eng e1).
      { split; [lia|]. eapply grownBy_mono; [| |exact Hg]; lia. }
      assert (Hgo : forall e al bs,
        0 <= readings eng e /\ grownBy D (readings eng e) eng e ->
        alphaBetaLoop rec depth beta ply ms (unmakeMove b1 m) e al bs false
          = Some (v, b', eng') ->
        0 <= readings eng eng' /\ grownBy D (readings eng eng') eng eng').
      { intros e al bs [He1 He2] Hl. apply IH in Hl as [Hl1 Hl2].
        rewrite (readings_trans eng e). split; [lia|].
        by apply (grownBy_trans D _ _ eng e). }
      destruct (score >? alpha).
      - destruct (negb (isCapture (unmakeMove b1 m) m)).
        + destruct (score >=? beta); [by inversion Hk; subst|].
          exact (Hgo _ _ _ Hq Hk).
        + destruct (score >=? beta); [by inversion Hk; subst|].
          exact (Hgo _ _ _ Hp Hk).
      - destruct (alpha >=? beta); [by inversion Hk; subst|].
        exact (Hgo _ _ _ Hp Hk). }
    destruct first.
    + destruct (rec (makeMove board m) eng (- beta) (- alpha))
        as [[[r b1] e1]|] eqn:E1; simpl in H; [|done].
      apply Hrec in E1 as [? ?]. by eapply Hstep.
    + destruct (rec (makeMove board m) eng (- alpha - 1) (- alpha))
        as [[[r b1] e1]|] eqn:E1; simpl in H; [|done].
      apply Hrec in E1 as [Hr1 Hg1].
      destruct ((- r >? alpha) && (- r <? beta)).
      * destruct (rec b1 e1 (- beta) (- alpha))
          as [[[r2 b2] e2]|] eqn:E2; simpl in H; [|done].
        apply Hrec in E2 as [Hr2 Hg2].
        eapply (Hstep _ _ e2); [| |exact H].
        -- rewrite (readings_trans eng e1). lia.
        -- rewrite (readings_trans eng e1).
           assert (Hg : grownBy D ((readings eng e1 - 1)
                                   + (readings e1 e2 - 1)) eng e2)
             by (apply (grownBy_trans D _ _ eng e1 e2); [lia..|done|done]).
           eapply grownBy_mono; [| |exact Hg]; lia.
      * simpl in H. by eapply Hstep.
Qed.

Lemma alphaBeta_growth fuel eng board depth alpha beta ply v b' eng' :
  alphaBeta fuel eng board depth alpha beta ply = Some (v, b', eng') ->
  1 <= readings eng eng'
  /\ grownBy (Z.of_nat depth * Z.of_nat depth) (readings eng eng' - 1)
       eng eng'.
Proof.
  revert eng board alpha beta ply v b' eng'.
  assert (Hclk : forall D e, 0 <= D ->
    1 <= readings e (outOfTime e).2
    /\ grownBy D (readings e (outOfTime e).2 - 1) e (outOfTime e).2).
  { intros D e HD. rewrite readings_outOfTime. split; [lia|].
    by apply grownBy_same. }
  induction depth as [|depth IH]; intros eng board alpha beta ply v b' eng';
    rewrite alphaBeta_unfold, (outOfTime_eta eng);
    (destruct (outOfTime eng).1;
     [destruct (evaluate board); inversion 1; subst; apply Hclk; lia|]).
  - destruct (quiescence fuel board alpha beta) as [[? ?]|]; simpl; [|done].
    inversion 1; subst. apply Hclk; lia.
  - cbv zeta. case_decide.
    { case_decide; inversion 1; subst; apply Hclk; lia. }
    destruct (ttLookup _ _ _ _) as [?|[a b]].
    { inversion 1; subst; apply Hclk; lia. }
    destruct (alphaBetaLoop _ _ _ _ _ _ _ _ _ _) as [[[bs b1] e1]|] eqn:E;
      simpl; [|done].
    inversion 1; subst.
    apply (alphaBetaLoop_growth (Z.of_nat (S depth) * Z.of_nat (S depth)))
      in E as [Hr Hg]; [|nia|].
    2:{ intros b0 e a0 bt r b2 e2 Hrec. apply IH in Hrec as [? Hg].
        split; [done|]. eapply grownBy_mono; [| |exact Hg]; nia. }
    set (e0 := (outOfTime eng).2) in *.
    assert (Hrd : readings eng (set_transTable e1
              (storeTT (transTable e1) (board_hash board)
                 (Z.of_nat (S depth)) v
                 (if v <=? a then NodeType.UPPERBOUND
                  else if v >=? b then NodeType.LOWERBOUND
                  else NodeType.EXACT))) = 1 + readings e0 e1).
    { unfold readings, e0, outOfTime. simpl. lia. }
    rewrite Hrd. split; [lia|].
    replace (1 + readings e0 e1 - 1) with (0 + readings e0 e1) by lia.
    apply (grownBy_trans _ _ _ eng e0); [nia|lia|lia| |].
    + apply grownBy_same; [nia|lia|done].
    + intros s f t. specialize (Hg s f t). exact Hg.
Qed.


Lemma rootLoop_growth D fuel depth moves board eng alpha beta best first
    bestMove bm b' eng' :
  Z.of_nat (depth - 1) * Z.of_nat (depth - 1) <= D ->
  rootLoop fuel depth moves board eng alpha beta best first bestMove
    = Some (bm, b', eng') ->
  0 <= readings eng eng' /\ grownBy D (readings eng eng') eng eng'.
Proof.
  intros HD. assert (HD0 : 0 <= D) by nia.
  assert (Hnode : forall e b a bt r b1 e1,
    alphaBeta fuel e b (depth - 1) a bt 1 = Some (r, b1, e1) ->
    1 <= readings e e1 /\ grownBy D (readings e e1 - 1) e e1).
  { intros e b a bt r b1 e1 Hn. apply alphaBeta_growth in Hn as [? Hg].
    split; [done|]. eapply grownBy_mono; [| |exact Hg]; nia. }
  revert board eng alpha best first bestMove.
  induction moves as [|m ms IH]; intros board eng alpha best first bestMove H;
    simpl in H.
  - inversion H; subst. unfold readings. split; [lia|].
    replace (Z.of_N (clockReads eng') - Z.of_N (clockReads eng')) with 0
      by lia.
    apply grownBy_refl.
  - assert (Hstep : forall score b1 e1,
      1 <= readings eng e1 -> grownBy D (readings eng e1 - 1) eng e1 ->
      (let board := unmakeMove b1 m in
       let '(timeout, eng) := outOfTime e1 in
       if timeout then Some (bestMove, board, eng)
       else
         let '(bestScore, bestMove) :=
           if score >? best then (score, m) else (best, bestMove) in
         let alpha := if score >? alpha then score else alpha in
         rootLoop fuel depth ms board eng alpha beta bestScore false
           bestMove) = Some (bm, b', eng') ->
      0 <= readings eng eng' /\ grownBy D (readings eng eng') eng eng').
    { intros score b1 e1 Hr Hg Hk. cbv zeta in Hk.
      rewrite (outOfTime_eta e1) in Hk.
      assert (Ho : 0 <= readings eng (outOfTime e1).2
                /\ grownBy D (readings eng (outOfTime e1).2) eng
                     (outOfTime e1).2).
      { rewrite (readings_trans eng e1), readings_outOfTime.
        split; [lia|].
        replace (readings eng e1 + 1) with ((readings eng e1 - 1) + 2)
          by lia.
        apply (grownBy_trans D _ _ eng e1); [lia..|done|].
        by apply grownBy_same. }
      destruct (outOfTime e1).1; [by inversion Hk; subst|].
      destruct Ho as [Ho1 Ho2].
      destruct (score >? best); apply IH in Hk as [Hk1 Hk2];
        rewrite (readings_trans eng (outOfTime e1).2);
        (split; [lia|]);
        by apply (grownBy_trans D _ _ eng (outOfTime e1).2). }
    destruct first.
    + destruct (alphaBeta fuel eng (makeMove board m) (depth - 1) (- beta)
                  (- alpha) 1) as [[[r b1] e1]|] eqn:E1; simpl in H; [|done].
      apply Hnode in E1 as [? ?].
      eapply (Hstep _ _ e1); [done|done|exact H].
    + destruct (alphaBeta fuel eng (makeMove board m) (depth - 1)
                  (- alpha - 1) (- alpha) 1)
        as [[[r b1] e1]|] eqn:E1; simpl in H; [|done].
      apply Hnode in E1 as [Hr1 Hg1].
      destruct (- r >? alpha).
      * destruct (alphaBeta fuel e1 b1 (depth - 1) (- beta) (- alpha) 1)
          as [[[r2 b2] e2]|] eqn:E2; simpl in H; [|done].
        apply Hnode in E2 as [Hr2 Hg2].
        eapply (Hstep _ _ e2); [| |exact H].
        -- rewrite (readings_trans eng e1). lia.
        -- rewrite (readings_trans eng e1).
           assert (Hg : grownBy D ((readings eng e1 - 1)
                                   + (readings e1 e2 - 1)) eng e2)
             by (apply (grownBy_trans D _ _ eng e1 e2); [lia..|done|done]).
           eapply grownBy_mono; [| |exact Hg]; lia.
      * eapply (Hstep _ _ e1); [done|done|exact H].
Qed.

Lemma deepen_growth D fuel depths moves board eng bestMove bm eng' :
  Forall (fun d => Z.of_nat (d - 1) * Z.of_nat (d - 1) <= D) depths ->
  0 <= D ->
  deepen fuel depths moves board eng bestMove = Some (bm, eng') ->
  0 <= readings eng eng' /\ grownBy D (readings eng eng') eng eng'.
Proof.
  intros Hall HD. revert moves board eng bestMove.
  induction Hall as [|d ds Hd Hds IH]; intros moves board eng bestMove H.
  - inversion H; subst. unfold readings. split; [lia|].
    replace (Z.of_N (clockReads eng') - Z.of_N (clockReads eng')) with 0
      by lia.
    apply grownBy_refl.
  - rewrite deepen_cons, (outOfTime_eta eng) in H.
    assert (Ho : 0 <= readings eng (outOfTime eng).2
              /\ grownBy D (readings eng (outOfTime eng).2) eng
                   (outOfTime eng).2).
    { rewrite readings_outOfTime. split; [lia|]. by apply grownBy_same. }
    destruct (outOfTime eng).1; [by inversion H; subst|].
    cbv zeta in H. destruct Ho as [Ho1 Ho2].
    destruct (rootLoop _ _ _ _ _ _ _ _ _ _) as [[[bm1 b1] e1]|] eqn:E;
      simpl in H; [|done].
    apply (rootLoop_growth D) in E as [E1 E2]; [|done].
    apply IH in H as [H1 H2].
    rewrite (readings_trans eng (outOfTime eng).2),
      (readings_trans (outOfTime eng).2 e1).
    split; [lia|].
    apply (grownBy_trans D _ _ eng (outOfTime eng).2); [lia..|done|].
    by apply (grownBy_trans D _ _ _ e1).
Qed.

Lemma Move_growth fuel eng fen timeLimitMs s eng' :
  Move fuel eng fen timeLimitMs = Some (s, eng') ->
  0 <= readings eng eng' /\ grownBy 16 (readings eng eng') eng eng'.
Proof.
  unfold Move. destruct (legalmoves (parseFen fen)) as [|m ms].
  - inversion 1; subst. unfold readings. split; [lia|].
    replace (Z.of_N (clockReads eng') - Z.of_N (clockReads eng')) with 0
      by lia.
    apply grownBy_refl.
  - cbv zeta. unfold readClock.
    destruct (deepen _ _ _ _ _ _) as [[bm e1]|] eqn:E; simpl; [|done].
    inversion 1; subst. apply (deepen_growth 16) in E as [E1 E2]; [| |lia].
    2:{ unfold MAX_DEPTH. simpl. repeat constructor; simpl; lia. }
    unfold readings in *. simpl in *. split; [lia|].
    replace (Z.of_N (clockReads eng') - Z.of_N (clockReads eng))
      with (1 + (Z.of_N (clockReads eng')
                 - Z.of_N (N.succ (clockReads eng)))) by lia.
    apply (grownBy_trans 16 _ _ eng (readClock eng).2); [lia..| |].
    + by apply grownBy_same.
    + intros sd f t. exact (E2 sd f t).
Qed.

(** [bestScore] never goes down in the loop. *)
Lemma alphaBetaLoop_best rec depth beta ply moves board eng alpha best first
    v b' eng' :
  alphaBetaLoop rec depth beta ply moves board eng alpha best first
    = Some (v, b', eng') ->
  best <= v.
Proof.
  revert board eng alpha best first.
  induction moves as [|m ms IH]; intros board eng alpha best first H;
    simpl in H.
  - inversion H; lia.
  - assert (Hstep : forall score b1 e1,
      (let board := unmakeMove b1 m in
       let bestScore := if score >? best then score else best in
       let '(alpha, eng) :=
         if score >? alpha then
           (score,
            if negb (isCapture board m)
            then recordQuiet e1 board m depth ply else e1)
         else (alpha, e1) in
       if alpha >=? beta then Some (bestScore, board, eng)
       else alphaBetaLoop rec depth beta ply ms board eng alpha bestScore
              false) = Some (v, b', eng') ->
      best <= v /\ score <= v).
    { intros score b1 e1 Hk. simpl in Hk.
      destruct (score >? alpha).
      - destruct (score >=? beta).
        + inversion Hk; subst. destruct (Z.gtb_spec score best); lia.
        + apply IH in Hk. destruct (Z.gtb_spec score best); lia.
      - destruct (alpha >=? beta).
        + inversion Hk; subst. destruct (Z.gtb_spec score best); lia.
        + apply IH in Hk. destruct (Z.gtb_spec score best); lia. }
    destruct first.
    + destruct (rec (makeMove board m) eng (- beta) (- alpha))
        as [[[r b1] e1]|]; simpl in H; [|done].
      by apply Hstep in H as [? _].
    + destruct (rec (makeMove board m) eng (- alpha - 1) (- alpha))
        as [[[r b1] e1]|]; simpl in H; [|done].
      destruct ((- r >? alpha) && (- r <? beta)).
      * destruct (rec b1 e1 (- beta) (- alpha))
          as [[[r2 b2] e2]|]; simpl in H; [|done].
        by apply Hstep in H as [? _].
      * simpl in H. by apply Hstep in H as [? _].
Qed.

End GrowthFacts.

Section WriteFacts.
Context `{laws : ChessLaws}.

(** The loop of a node writes the table only for a move that is not a
    capture and whose score has raised alpha. *)
Lemma alphaBetaLoop_writes rec depth beta ply moves board eng alpha best
    first v b' eng' :
  moves ⊆ legalmoves board ->
  (forall m e a bt r b1 e1, m ∈ legalmoves board ->
     rec (makeMove board m) e a bt = Some (r, b1, e1) ->
     b1 = makeMove board m /\ historyHeuristic e1 = historyHeuristic e) ->
  alphaBetaLoop rec depth beta ply moves board eng alpha best first
    = Some (v, b', eng') ->
  (forall side from to,
     history eng' side from to <> history eng side from to ->
     exists m, m ∈ moves /\ isCapture board m = false
       /\ (if decide (sideToMove board = Color.WHITE) then 0 else 1,
           move_from m, move_to m) = (side, from, to))
  /\ (v <= alpha -> historyHeuristic eng' = historyHeuristic eng).
Proof.
  intros Hsub Hrec. revert eng alpha best first Hsub.
  induction moves as [|m ms IH]; intros eng alpha best first Hsub H;
    simpl in H.
  - inversion H; subst. split; [by intros s f t []|done].
  - assert (Hm : m ∈ legalmoves board) by (apply Hsub; left).
    assert (Hms : ms ⊆ legalmoves board).
    { intros x Hx. apply Hsub. by right. }
    assert (Hstep : forall score e1,
      historyHeuristic e1 = historyHeuristic eng ->
      (let board' := unmakeMove (makeMove board m) m in
       let bestScore := if score >? best then score else best in
       let '(alpha, eng) :=
         if score >? alpha then
           (score,
            if negb (isCapture board' m)
            then recordQuiet e1 board' m depth ply else e1)
         else (alpha, e1) in
       if alpha >=? beta then Some (bestScore, board', eng)
       else alphaBetaLoop rec depth beta ply ms board' eng alpha bestScore
              false) = Some (v, b', eng') ->
      (forall side from to,
         history eng' side from to <> history eng side from to ->
         exists m0, m0 ∈ m :: ms /\ isCapture board m0 = false
           /\ (if decide (sideToMove board = Color.WHITE) then 0 else 1,
               move_from m0, move_to m0) = (side, from, to))
      /\ (v <= alpha -> historyHeuristic eng' = historyHeuristic eng)).
    { intros score e1 He1 Hk. simpl in Hk.
      rewrite move_roundtrip in Hk by done.
      assert (Hh1 : forall s f t, history e1 s f t = history eng s f t)
        by (intros; unfold history; by rewrite He1).
      assert (Hrest : forall e2 al bs,
        alphaBetaLoop rec depth beta ply ms board e2 al bs false
          = Some (v, b', eng') ->
        forall s f t, history eng' s f t <> history e2 s f t ->
          exists m0, m0 ∈ m :: ms /\ isCapture board m0 = false
            /\ (if decide (sideToMove board = Color.WHITE) then 0 else 1,
                move_from m0, move_to m0) = (s, f, t)).
      { intros e2 al bs Hl s f t Hne.
        destruct (IH _ _ _ _ Hms Hl) as [Hw _].
        destruct (Hw s f t Hne) as (m0 & ? & ? & ?).
        exists m0. split; [by right|done]. }
      destruct (Z.gtb_spec score alpha) as [Hgt|Hle].
      - assert (Hv : score <= v).
        { destruct (score >=? beta).
          - inversion Hk; subst. destruct (Z.gtb_spec score best); lia.
          - apply alphaBetaLoop_best in Hk.
            destruct (Z.gtb_spec score best); lia. }
        split; [|intros; lia].
        destruct (isCapture board m) eqn:Hcap; simpl in Hk.
        + intros s f t Hne. rewrite <- Hh1 in Hne.
          destruct (score >=? beta); [by inversion Hk; subst|].
          by eapply Hrest.
        + intros s f t Hne.
          destruct (decide (history eng' s f t
                            = history (recordQuiet e1 board m depth ply)
                                s f t)) as [E|E].
          * rewrite E, history_recordQuiet in Hne.
            case_decide as Hkey; [|by rewrite Hh1 in Hne].
            exists m. split; [left|done].
          * destruct (score >=? beta); [by inversion Hk; subst|].
            by eapply Hrest.
      - destruct (alpha >=? beta).
        + inversion Hk; subst. split; [|done].
          intros s f t Hne. by rewrite Hh1 in Hne.
        + split.
          * intros s f t Hne. rewrite <- Hh1 in Hne. by eapply Hrest.
          * intros Hv. destruct (IH _ _ _ _ Hms Hk) as [_ Hq].
            rewrite Hq by done. done. }
    destruct first.
    + destruct (rec (makeMove board m) eng (- beta) (- alpha))
        as [[[r b1] e1]|] eqn:E1; simpl in H; [|done].
      destruct (Hrec _ _ _ _ _ _ _ Hm E1) as [-> He1].
      by eapply Hstep.
    + destruct (rec (makeMove board m) eng (- alpha - 1) (- alpha))
        as [[[r b1] e1]|] eqn:E1; simpl in H; [|done].
      destruct (Hrec _ _ _ _ _ _ _ Hm E1) as [-> He1].
      destruct ((- r >? alpha) && (- r <? beta)).
      * destruct (rec (makeMove board m) e1 (- beta) (- alpha))
          as [[[r2 b2] e2]|] eqn:E2; simpl in H; [|done].
        destruct (Hrec _ _ _ _ _ _ _ Hm E2) as [-> He2].
        eapply Hstep; [|exact H]. congruence.
      * simpl in H. by eapply Hstep.
Qed.

End WriteFacts.

Section LifetimeFacts.
Context `{laws : ChessLaws}.

(** C8 (amended). The history table is written by one statement only,
    which adds [depth * depth], in the 32-bit arithmetic of [int], to the
    entry of (side, from, to) and touches no other entry; the loop of a
    node executes it only for a move that is not a capture and whose
    score has raised alpha; nothing resets the table, the clearing at the
    start of [Move] included.  Across a node of depth [d], and across a
    call of [Move], every entry is either as it was or the 32-bit sum of
    its old value and a positive total of additions, which is at most
    [d * d] (16 for [Move]) times the number of clock readings in
    between.  So no entry decreases as long as that total cannot take it
    past [INT_MAX]. *)
Theorem history_monotone :
  (forall eng board move depth ply side from to,
     history (recordQuiet eng board move depth ply) side from to =
       if decide ((if decide (sideToMove board = Color.WHITE) then 0 else 1,
                   move_from move, move_to move) = (side, from, to))
       then wrap32 (history eng side from to + depth * depth)
       else history eng side from to)
  /\ (forall rec depth beta ply moves board eng alpha best first v b' eng',
        moves ⊆ legalmoves board ->
        (forall m e a bt r b1 e1, m ∈ legalmoves board ->
           rec (makeMove board m) e a bt = Some (r, b1, e1) ->
           b1 = makeMove board m
           /\ historyHeuristic e1 = historyHeuristic e) ->
        alphaBetaLoop rec depth beta ply moves board eng alpha best first
          = Some (v, b', eng') ->
        (forall side from to,
           history eng' side from to <> history eng side from to ->
           exists m, m ∈ moves /\ isCapture board m = false
             /\ (if decide (sideToMove board = Color.WHITE) then 0 else 1,
                 move_from m, move_to m) = (side, from, to))
        /\ (v <= alpha -> historyHeuristic eng' = historyHeuristic eng))
  /\ (forall fuel eng board depth alpha beta ply v b' eng',
        alphaBeta fuel eng board depth alpha beta ply = Some (v, b', eng') ->
        grownBy (Z.of_nat depth * Z.of_nat depth) (readings eng eng' - 1)
          eng eng')
  /\ (forall fuel eng fen timeLimitMs s eng',
        Move fuel eng fen timeLimitMs = Some (s, eng') ->
        grownBy 16 (readings eng eng') eng eng')
  /\ (forall D k e e' side from to,
        grownBy D k e e' ->
        INT_MIN <= history e side from to ->
        history e side from to + D * k <= INT_MAX ->
        history e side from to <= history e' side from to)
  /\ (forall eng side from to,
        history (set_transTable eng (clearTT (transTable eng))) side from to
        = history eng side from to).
Proof.
  split; [|split; [|split; [|split; [|split]]]].
  - apply history_recordQuiet.
  - intros *. apply alphaBetaLoop_writes.
  - intros * H. by apply alphaBeta_growth in H as [_ ?].
  - intros * H. by apply Move_growth in H as [_ ?].
  - intros *. apply grownBy_le.
  - done.
Qed.

End LifetimeFacts.

(** ** The engine on the blocked position *)

Section BlockadeRuns.
Import Blockade.

#[local] Existing Instance Blockade.chess.

Lemma inCall_outOfTime r j t h e :
  inCall r j t h e -> (j < 1000)%N ->
  (outOfTime e).1 = false /\ inCall r (j + 1) t h (outOfTime e).2.
Proof.
  intros (Hc & Hs & Hl & Hr & Ht & Hh & Hk) Hj. split.
  - unfold outOfTime, readClock. simpl. rewrite Hc, Hs, Hl, Hr.
    rewrite Z.quot_small by lia. reflexivity.
  - unfold inCall, outOfTime, readClock, killers, history in *. simpl.
    repeat split; try done. lia.
Qed.

Lemma inCall_afterNode r j t h e d :
  inCall r j t h e -> t <= d ->
  inCall r (j + 2) d (wrap32 (h + d * d)) (afterNode e d).
Proof.
  intros (Hc & Hs & Hl & Hr & Ht & Hh & Hk) Htd.
  split; [exact Hc|]. split; [exact Hs|]. split; [exact Hl|].
  split; [|split; [|split]].
  - unfold afterNode, recordQuiet, outOfTime, readClock. simpl. lia.
  - unfold afterNode. simpl. unfold probeTT at 1. rewrite storeTT_read.
    rewrite decide_True; [done|]. split; [|done].
    unfold recordQuiet. simpl. lia.
  - change (history (afterNode e d) 1 43 35)
      with (history (recordQuiet (outOfTime (outOfTime e).2).2 afterWhite
                       (Script.Mv 43 35) d 1) 1 43 35).
    rewrite history_recordQuiet.
    change (sideToMove afterWhite) with Color.BLACK.
    rewrite decide_True by done. by rewrite <- Hh.
  - change (killers (afterNode e d) 0)
      with (killers (recordQuiet (outOfTime (outOfTime e).2).2 afterWhite
                       (Script.Mv 43 35) d 1) 0).
    by rewrite killers_recordQuiet.
Qed.

(** The stalemated position: the value is 0 at every depth. *)
Lemma afterBlack_node r j t h e depth :
  inCall r j t h e -> (j < 1000)%N ->
  alphaBeta 4 e afterBlack depth (- INF) (- - INF) 2
  = Some (0, afterBlack, (outOfTime e).2).
Proof.
  intros He Hj. destruct (inCall_outOfTime _ _ _ _ _ He Hj) as [Ho _].
  rewrite alphaBeta_unfold, (outOfTime_eta e), Ho.
  destruct depth as [|depth]; [|done].
  replace (quiescence 4 afterBlack (- INF) (- - INF))
    with (Some (0, afterBlack)) by (vm_compute; reflexivity).
  done.
Qed.

(** At depth 0 the position after d3-d4 gets its static evaluation. *)
Lemma afterWhite_leaf r j t h e :
  inCall r j t h e -> (j < 1000)%N ->
  alphaBeta 4 e afterWhite 0 (- INF) (- - INF) 1
  = Some (-40, afterWhite, (outOfTime e).2).
Proof.
  intros He Hj. destruct (inCall_outOfTime _ _ _ _ _ He Hj) as [Ho _].
  rewrite alphaBeta_unfold, (outOfTime_eta e), Ho.
  replace (quiescence 4 afterWhite (- INF) (- - INF))
    with (Some (-40, afterWhite)) by (vm_compute; reflexivity).
  done.
Qed.

(** At depth 1 or more its only move raises alpha. *)
Lemma afterWhite_node r j t h e depth :
  inCall r j t h e -> (j + 1 < 1000)%N -> t < Z.of_nat (S depth) ->
  alphaBeta 4 e afterWhite (S depth) (- INF) (- - INF) 1
  = Some (0, afterWhite, afterNode e (Z.of_nat (S depth))).
Proof.
  intros He Hj Ht.
  destruct (inCall_outOfTime _ _ _ _ _ He) as [Ho He1]; [lia|].
  rewrite alphaBeta_unfold, (outOfTime_eta e), Ho.
  cbv zeta.
  change (isGameOver afterWhite)
    with (GameResultReason.NONE, GameResult.NONE).
  rewrite decide_False by (by intros []).
  change (board_hash afterWhite) with 41.
  assert (Hlook : ttLookup (probeTT (transTable (outOfTime e).2) 41)
                    (Z.of_nat (S depth)) (- INF) (- - INF)
                  = inr (- INF, - - INF)).
  { destruct He1 as (_ & _ & _ & _ & Htd & _). unfold ttLookup.
    rewrite Htd.
    destruct (Z.geb_spec t (Z.of_nat (S depth))); [lia|done]. }
  rewrite Hlook.
  change (legalmoves afterWhite) with [Script.Mv 43 35].
  change (orderMoves (outOfTime e).2 [Script.Mv 43 35] afterWhite 1)
    with [Script.Mv 43 35].
  cbn [alphaBetaLoop].
  change (makeMove afterWhite (Script.Mv 43 35)) with afterBlack.
  change (1 + 1) with 2.
  rewrite (afterBlack_node r (j + 1) t h) by (done || lia).
  cbn [mbind option_bind].
  change (unmakeMove afterBlack (Script.Mv 43 35)) with afterWhite.
  change (isCapture afterWhite (Script.Mv 43 35)) with false.
  reflexivity.
Qed.


(** One pass over the root at depth 1: the reply is not searched. *)
Lemma blockade_first_pass r j t h e :
  inCall r j t h e -> (j + 1 < 1000)%N ->
  exists e',
    rootLoop 4 1 [Script.Mv 19 27] (start blockade) e (- INF) INF (- INF)
      true (Script.Mv 19 27)
    = Some (Script.Mv 19 27, start blockade, e')
    /\ inCall r (j + 2) t h e'.
Proof.
  intros He Hj.
  destruct (inCall_outOfTime _ _ _ _ _ He) as [_ He1]; [lia|].
  destruct (inCall_outOfTime _ _ _ _ _ He1) as [Ho2 He2]; [lia|].
  exists (outOfTime (outOfTime e).2).2. split.
  - rewrite (@rootLoop_cons chess 4 _ (Script.Mv 19 27) []).
    change (makeMove (start blockade) (Script.Mv 19 27)) with afterWhite.
    change (1 - 1)%nat with 0%nat.
    rewrite (afterWhite_leaf r j t h) by (done || lia).
    cbn [mbind option_bind].
    by rewrite (outOfTime_eta (outOfTime e).2), Ho2.
  - replace (j + 2)%N with (j + 1 + 1)%N by lia. exact He2.
Qed.

(** One pass over the root at depth 2 or more adds the square of the
    depth of the reply to the count of d6-d5. *)
Lemma blockade_pass r j t h e depth :
  inCall r j t h e -> (j + 2 < 1000)%N -> t < Z.of_nat (S depth) ->
  exists e',
    rootLoop 4 (S (S depth)) [Script.Mv 19 27] (start blockade) e (- INF) INF
      (- INF) true (Script.Mv 19 27)
    = Some (Script.Mv 19 27, start blockade, e')
    /\ inCall r (j + 3) (Z.of_nat (S depth))
         (wrap32 (h + Z.of_nat (S depth) * Z.of_nat (S depth))) e'.
Proof.
  intros He Hj Ht.
  pose proof (inCall_afterNode r j t h e (Z.of_nat (S depth)) He) as Hn.
  destruct (inCall_outOfTime _ _ _ _ _ (Hn ltac:(lia))) as [Ho He2];
    [lia|].
  exists (outOfTime (afterNode e (Z.of_nat (S depth)))).2. split.
  - rewrite (@rootLoop_cons chess 4 _ (Script.Mv 19 27) []).
    change (makeMove (start blockade) (Script.Mv 19 27)) with afterWhite.
    change (S (S depth) - 1)%nat with (S depth).
    rewrite (afterWhite_node r j t h) by (done || lia).
    cbn [mbind option_bind].
    by rewrite (outOfTime_eta (afterNode e (Z.of_nat (S depth)))), Ho.
  - replace (j + 3)%N with (j + 2 + 1)%N by lia. exact He2.
Qed.

(** One round of the iterative deepening. *)
Lemma blockade_round r j t h e depth depths e' :
  inCall r j t h e -> (j < 1000)%N ->
  rootLoop 4 depth [Script.Mv 19 27] (start blockade) (outOfTime e).2
    (- INF) INF (- INF) true (Script.Mv 19 27)
  = Some (Script.Mv 19 27, start blockade, e') ->
  deepen 4 (depth :: depths) [Script.Mv 19 27] (start blockade) e
    (Script.Mv 19 27)
  = deepen 4 depths [Script.Mv 19 27] (start blockade) e' (Script.Mv 19 27).
Proof.
  intros He Hj Hr.
  destruct (inCall_outOfTime _ _ _ _ _ He) as [Ho _]; [lia|].
  rewrite (@deepen_cons chess 4 depth depths [Script.Mv 19 27]).
  rewrite (outOfTime_eta e), Ho. cbv zeta.
  change (orderMoves (outOfTime e).2 [Script.Mv 19 27] (start blockade) 0)
    with [Script.Mv 19 27].
  by rewrite Hr.
Qed.

Lemma blockade_deepen r h e :
  inCall r 1 (-1) h e ->
  exists e',
    deepen 4 (seq 1 MAX_DEPTH) [Script.Mv 19 27] (start blockade) e
      (Script.Mv 19 27)
    = Some (Script.Mv 19 27, e')
    /\ inCall r 20 4 (wrap32 (h + 30)) e'.
Proof.
  intros He. change (seq 1 MAX_DEPTH) with [1; 2; 3; 4; 5]%nat.
  destruct (inCall_outOfTime _ _ _ _ _ He) as [_ He1]; [lia|].
  destruct (blockade_first_pass _ _ _ _ _ He1) as (e2 & Hr2 & He2); [lia|].
  destruct (inCall_outOfTime _ _ _ _ _ He2) as [_ He3]; [lia|].
  destruct (blockade_pass _ _ _ _ _ 0 He3) as (e4 & Hr4 & He4); [lia..|].
  destruct (inCall_outOfTime _ _ _ _ _ He4) as [_ He5]; [lia|].
  destruct (blockade_pass _ _ _ _ _ 1 He5) as (e6 & Hr6 & He6); [lia..|].
  destruct (inCall_outOfTime _ _ _ _ _ He6) as [_ He7]; [lia|].
  destruct (blockade_pass _ _ _ _ _ 2 He7) as (e8 & Hr8 & He8); [lia..|].
  destruct (inCall_outOfTime _ _ _ _ _ He8) as [_ He9]; [lia|].
  destruct (blockade_pass _ _ _ _ _ 3 He9) as (e10 & Hr10 & He10); [lia..|].
  exists e10. split.
  - rewrite (blockade_round _ _ _ _ _ _ _ _ He ltac:(lia) Hr2).
    rewrite (blockade_round _ _ _ _ _ _ _ _ He2 ltac:(lia) Hr4).
    rewrite (blockade_round _ _ _ _ _ _ _ _ He4 ltac:(lia) Hr6).
    rewrite (blockade_round _ _ _ _ _ _ _ _ He6 ltac:(lia) Hr8).
    by rewrite (blockade_round _ _ _ _ _ _ _ _ He8 ltac:(lia) Hr10).
  - assert (E : wrap32 (wrap32 (wrap32 (wrap32 (h + Z.of_nat 1 * Z.of_nat 1)
                  + Z.of_nat 2 * Z.of_nat 2) + Z.of_nat 3 * Z.of_nat 3)
                  + Z.of_nat 4 * Z.of_nat 4) = wrap32 (h + 30)).
    { rewrite (wrap32_add (h + _)), (wrap32_add (h + _ + _)).
      rewrite (wrap32_add (h + _ + _ + _)). f_equal. lia. }
    rewrite <- E. exact He10.
Qed.

(** A call of [Move] on the blocked position adds 30 to the count of
    d6-d5, whatever the tables hold. *)
Lemma blockade_Move eng :
  clock eng = (fun k => Z.of_N k * 1000) ->
  killers eng 0 = (NO_MOVE, NO_MOVE) ->
  exists e',
    Move 4 eng blockadeFen 1000 = Some ("d3d4"%string, e')
    /\ clock e' = (fun k => Z.of_N k * 1000)
    /\ killers e' 0 = (NO_MOVE, NO_MOVE)
    /\ history e' 1 43 35 = wrap32 (history eng 1 43 35 + 30).
Proof.
  intros Hc Hk.
  set (e0 := startSearch (readClock eng).2 (readClock eng).1 1000).
  destruct (blockade_deepen (clockReads eng) (history eng 1 43 35)
              (set_transTable e0 (clearTT (transTable e0))))
    as (e' & Hd & (Hc' & _ & _ & _ & _ & Hh' & Hk')).
  { split; [exact Hc|]. split; [simpl; by rewrite Hc|].
    split; [done|]. split; [simpl; lia|]. split; [|split; [done|exact Hk]].
    simpl. unfold probeTT. by rewrite tt_read_clear. }
  exists e'. split; [|by split].
  unfold Move.
  change (parseFen blockadeFen) with (start blockade).
  change (legalmoves (start blockade)) with [Script.Mv 19 27].
  cbv zeta. change (readClock eng) with ((readClock eng).1, (readClock eng).2).
  cbv beta iota. fold e0. by rewrite Hd.
Qed.

Lemma blockade_played n :
  clock (played n) = (fun k => Z.of_N k * 1000)
  /\ killers (played n) 0 = (NO_MOVE, NO_MOVE)
  /\ history (played n) 1 43 35 = wrap32 (30 * Z.of_N n)
  /\ Move 4 (played n) blockadeFen 1000
     = Some ("d3d4"%string, played (N.succ n)).
Proof.
  assert (Hs : forall k, played (N.succ k) = again (played k))
    by (intros k; unfold played; by rewrite N.iter_succ).
  assert (Hgo : forall k,
    clock (played k) = (fun k => Z.of_N k * 1000) ->
    killers (played k) 0 = (NO_MOVE, NO_MOVE) ->
    Move 4 (played k) blockadeFen 1000
      = Some ("d3d4"%string, played (N.succ k))
    /\ clock (played (N.succ k)) = (fun k => Z.of_N k * 1000)
    /\ killers (played (N.succ k)) 0 = (NO_MOVE, NO_MOVE)
    /\ history (played (N.succ k)) 1 43 35
       = wrap32 (history (played k) 1 43 35 + 30)).
  { intros k Hc Hk.
    destruct (blockade_Move (played k) Hc Hk) as (e' & HM & Hrest).
    assert (E : played (N.succ k) = e')
      by (rewrite Hs; unfold again; by rewrite HM).
    rewrite E. by split. }
  induction n as [|n IH] using N.peano_ind.
  - split; [done|]. split; [done|]. split; [done|].
    by destruct (Hgo 0%N) as [HM _].
  - destruct IH as (Hc & Hk & Hh & HM).
    destruct (Hgo n Hc Hk) as (_ & Hc' & Hk' & Hh').
    split; [done|]. split; [done|]. split.
    + rewrite Hh', Hh, wrap32_add. f_equal. lia.
    + by destruct (Hgo (N.succ n) Hc' Hk') as [HM' _].
Qed.

End BlockadeRuns.

Section BlockadeScenarios.
Import Blockade.

#[local] Existing Instance Blockade.chess.

Lemma history_monotone_witness :
  Move 4 fresh blockadeFen 1000 = Some ("d3d4"%string, played 1)
  /\ history fresh 1 43 35 = 0
  /\ history (played 1) 1 43 35 = 30
  /\ grownBy 16 (readings fresh (played 1)) fresh (played 1).
Proof.
  assert (H : Move 4 fresh blockadeFen 1000 = Some ("d3d4"%string, played 1))
    by exact (proj2 (proj2 (proj2 (blockade_played 0)))).
  split; [exact H|]. split; [reflexivity|].
  split; [exact (proj1 (proj2 (proj2 (blockade_played 1))))|].
  exact (proj1 (proj2 (proj2 (proj2 history_monotone))) 4%nat fresh
           blockadeFen 1000 "d3d4"%string (played 1) H).
Defined.

(** C8, as stated, fails when an addition leaves the range of [int].
    Each call of [Move] on the blocked position adds 1, 4, 9 and 16 to
    the count of Black's d6-d5: after 71582788 calls from start-up the
    count is 2147483640, and the next call leaves -2147483626. *)
Lemma history_wraps_at_overflow :
  Move 4 (played 71582788) blockadeFen 1000
    = Some ("d3d4"%string, played 71582789)
  /\ history (played 71582788) 1 43 35 = 2147483640
  /\ history (played 71582789) 1 43 35 = -2147483626
  /\ ~ history (played 71582788) 1 43 35
       <= history (played 71582789) 1 43 35.
Proof.
  destruct (blockade_played 71582788) as (_ & _ & H1 & HM).
  destruct (blockade_played 71582789) as (_ & _ & H2 & _).
  change (N.succ 71582788) with 71582789%N in HM.
  change (wrap32 (30 * Z.of_N 71582788)) with 2147483640 in H1.
  change (wrap32 (30 * Z.of_N 71582789)) with (-2147483626) in H2.
  revert HM H1 H2.
  generalize (played 71582788) (played 71582789). intros e1 e2 HM H1 H2.
  split; [exact HM|]. split; [exact H1|]. split; [exact H2|].
  rewrite H1, H2. lia.
Qed.

(** C6, as stated, fails once a history count has grown past the priority
    of a capture: after 3334 calls of [Move] on the blocked position the
    count of Black's d6-d5 is 100020, and in a position where Black can
    play d6-d5 or capture a pawn with a pawn (e5xf4, priority 100000) the
    quiet move is ahead. *)
Lemma scoreMove_history_outranks_capture :
  Move 4 (played 3333) blockadeFen 1000 = Some ("d3d4"%string, played 3334)
  /\ isCapture (start pushOrCapture) (Script.Mv 36 29) = true
  /\ isCapture (start pushOrCapture) (Script.Mv 43 35) = false
  /\ scoreMove (played 3334) (start pushOrCapture) (Script.Mv 36 29) 0
     = 100000
  /\ scoreMove (played 3334) (start pushOrCapture) (Script.Mv 43 35) 0
     = 100020
  /\ ~ (scoreMove (played 3334) (start pushOrCapture) (Script.Mv 43 35) 0
        < scoreMove (played 3334) (start pushOrCapture) (Script.Mv 36 29) 0).
Proof.
  destruct (blockade_played 3333) as (_ & _ & _ & HM).
  destruct (blockade_played 3334) as (_ & Hk & Hh & _).
  change (N.succ 3333) with 3334%N in HM.
  change (wrap32 (30 * Z.of_N 3334)) with 100020 in Hh.
  revert HM Hk Hh.
  generalize (played 3333) (played 3334). intros e1 e2 HM Hk Hh.
  assert (Hc : scoreMove e2 (start pushOrCapture) (Script.Mv 36 29) 0
               = 100000) by reflexivity.
  assert (Hq : scoreMove e2 (start pushOrCapture) (Script.Mv 43 35) 0
               = 100020).
  { unfold scoreMove.
    change (isCapture (start pushOrCapture) (Script.Mv 43 35)) with false.
    cbv iota. rewrite Hk. simpl fst. simpl snd.
    rewrite !decide_False by done. exact Hh. }
  split; [exact HM|]. split; [reflexivity|]. split; [reflexivity|].
  split; [exact Hc|]. split; [exact Hq|]. rewrite Hc, Hq. lia.
Qed.

Lemma scoreMove_priority_witness :
  isCapture (start pushOrCapture) (Script.Mv 36 29) = true
  /\ isCapture (start pushOrCapture) (Script.Mv 43 35) = false
  /\ history (played 10) 1 43 35 < 99100
  /\ scoreMove (played 10) (start pushOrCapture) (Script.Mv 43 35) 0
     < scoreMove (played 10) (start pushOrCapture) (Script.Mv 36 29) 0.
Proof.
  assert (Hc : isCapture (start pushOrCapture) (Script.Mv 36 29) = true)
    by reflexivity.
  assert (Hq : isCapture (start pushOrCapture) (Script.Mv 43 35) = false)
    by reflexivity.
  assert (Hh : history (played 10) 1 43 35 < 99100).
  { rewrite (proj1 (proj2 (proj2 (blockade_played 10)))).
    vm_compute. reflexivity. }
  split; [exact Hc|]. split; [exact Hq|]. split; [exact Hh|].
  exact (proj2 (proj2 (scoreMove_priority (played 10) (start pushOrCapture)
                         (Script.Mv 36 29) 0) Hc) (Script.Mv 43 35) Hq Hh).
Defined.

Lemma killerMoves_frame_witness :
  Move 4 fresh blockadeFen 1000 = Some ("d3d4"%string, played 1)
  /\ killersBelow 1 fresh (played 1).
Proof.
  assert (H : Move 4 fresh blockadeFen 1000 = Some ("d3d4"%string, played 1))
    by exact (proj2 (proj2 (proj2 (blockade_played 0)))).
  split; [exact H|].
  exact (proj2 (proj2 killerMoves_frame) 4%nat fresh blockadeFen 1000
           "d3d4"%string (played 1) H).
Defined.

End BlockadeScenarios.
